(** * Retail warehouse data-quality engine: cleaning, validation and load

    A shallow embedding of the cleaning functions ([clean_orders],
    [clean_products], [clean_stores], [clean_customers], [clean_regions],
    [auto_parse_dates], the referential filter of [run_cleaning]), of the
    schema validator ([validation.py]) and of the naming helpers and the
    loops of the database load ([load_to_db.py]), with the properties the
    specification states about them and further properties read off the
    code.

    Conventions of the embedding.
    - Text is a [string] of ASCII characters; the case, whitespace, digit
      and word classes are the ASCII ones. Python's classes are wider:
      where a property depends on what [str.title], [str.upper], [\d] or
      [\w] do outside ASCII, it is stated for ASCII text
      ([AsciiText.ascii_text]).
    - A text cell enters the model as the text [astype(str)] gives for it; a
      numeric cell enters as the value [pd.to_numeric(errors="coerce")] gives
      for it, [None] standing for the missing marker (NaN).
    - [astype(int)] produces 64-bit integers: a digit string denoting more
      than [2^63 - 1] makes the conversion raise. A cleaning function that
      can raise returns an [option], [None] standing for the exception.
    - A table is a list of rows in table order. The order-line table also
      carries its row labels, which [clean_orders] uses to address rows.
    - Timestamps are integers; [auto_parse_dates] and the validator work on
      generic tables (named columns of cells), the cleaning functions on
      typed rows, whose date fields are already parsed.
    - The database and the files are outside the embedding: the loops of
      the load take what a connection test and the load of one file do to
      them as parameters, and log records are not modelled. *)

From Stdlib Require Import ZArith NArith QArith Ascii String.
From Stdlib Require Import DecimalString DecimalN DecimalPos DecimalFacts.
From stdpp Require Import prelude strings gmap.

(** ** Text primitives (the [str] methods the cleaning code calls) *)

Module Text.

Definition code (c : ascii) : nat := nat_of_ascii c.

Definition is_digit (c : ascii) : bool :=
  (48 <=? code c)%nat && (code c <=? 57)%nat.

Definition is_upper (c : ascii) : bool :=
  (65 <=? code c)%nat && (code c <=? 90)%nat.

Definition is_lower (c : ascii) : bool :=
  (97 <=? code c)%nat && (code c <=? 122)%nat.

Definition is_alpha (c : ascii) : bool := is_upper c || is_lower c.

(** [str.isspace] on ASCII: tab, line feed, vertical tab, form feed,
    carriage return, the four separators 28..31 and the blank. *)
Definition is_space (c : ascii) : bool :=
  ((9 <=? code c)%nat && (code c <=? 13)%nat)
  || ((28 <=? code c)%nat && (code c <=? 32)%nat).

Definition lower_char (c : ascii) : ascii :=
  if is_upper c then ascii_of_nat (code c + 32) else c.

Definition upper_char (c : ascii) : ascii :=
  if is_lower c then ascii_of_nat (code c - 32) else c.

(** [str.lower] *)
Fixpoint lower (s : string) : string :=
  match s with
  | EmptyString => EmptyString
  | String c t => String (lower_char c) (lower t)
  end.

(** [str.upper] *)
Fixpoint upper (s : string) : string :=
  match s with
  | EmptyString => EmptyString
  | String c t => String (upper_char c) (upper t)
  end.

Fixpoint lstrip (s : string) : string :=
  match s with
  | EmptyString => EmptyString
  | String c t => if is_space c then lstrip t else s
  end.

Fixpoint rstrip (s : string) : string :=
  match s with
  | EmptyString => EmptyString
  | String c t =>
      match rstrip t with
      | EmptyString => if is_space c then EmptyString else String c EmptyString
      | String _ _ as t' => String c t'
      end
  end.

(** [str.strip] *)
Definition strip (s : string) : string := rstrip (lstrip s).

(** [str.title] on ASCII text: a letter is upper-cased when the character
    before it is not a letter, lower-cased otherwise. *)
Fixpoint title_aux (prev_cased : bool) (s : string) : string :=
  match s with
  | EmptyString => EmptyString
  | String c t =>
      if is_alpha c
      then String (if prev_cased then lower_char c else upper_char c)
                  (title_aux true t)
      else String c (title_aux false t)
  end.

Definition title (s : string) : string := title_aux false s.

(** [str.replace(old, new)] for a non-empty [old]: occurrences are replaced
    from left to right without overlap; [skip] counts the characters of a
    matched occurrence still to be passed over. *)
Fixpoint replace_aux (old new : string) (skip : nat) (s : string) : string :=
  match s with
  | EmptyString => EmptyString
  | String c t =>
      match skip with
      | S k => replace_aux old new k t
      | O =>
          if String.prefix old s
          then new +:+ replace_aux old new (String.length old - 1) t
          else String c (replace_aux old new 0 t)
      end
  end.

Definition str_replace (old new s : string) : string := replace_aux old new 0 s.

(** [pat in s] *)
Fixpoint contains (pat s : string) : bool :=
  String.prefix pat s
  || match s with
     | EmptyString => false
     | String _ t => contains pat t
     end.

(** The digits that follow a first digit: the rest of a greedy [\d+]. *)
Fixpoint take_digits (s : string) : string :=
  match s with
  | EmptyString => EmptyString
  | String c t => if is_digit c then String c (take_digits t) else EmptyString
  end.

(** [str.extract(r"(\d+)")[0]] on ASCII text: the leftmost maximal run of
    digits, missing when the text has no digit. *)
Fixpoint str_extract_digits (s : string) : option string :=
  match s with
  | EmptyString => None
  | String c t =>
      if is_digit c then Some (String c (take_digits t))
      else str_extract_digits t
  end.

Definition digit_val (c : ascii) : N := N.of_nat (code c - 48).

(** [int(s)] on an unsigned decimal numeral (the only texts the cleaning
    code converts): [None] is the [ValueError] of a non-numeral. *)
Fixpoint int_acc (acc : N) (s : string) : option N :=
  match s with
  | EmptyString => Some acc
  | String c t =>
      if is_digit c then int_acc (10 * acc + digit_val c)%N t else None
  end.

Definition python_int (s : string) : option N :=
  match s with
  | EmptyString => None
  | String _ _ => int_acc 0 s
  end.

(** The number a text of digits denotes, read most significant digit
    first (the empty text denotes 0). *)
Fixpoint decimal_acc (acc : N) (s : string) : N :=
  match s with
  | EmptyString => acc
  | String c t => decimal_acc (10 * acc + digit_val c)%N t
  end.

Definition decimal_value (s : string) : N := decimal_acc 0 s.

Definition int64_max : N := 9223372036854775807.

(** [astype(int)] of one text cell: [None] is the exception raised for a
    non-numeral or for a value that does not fit 64 bits. *)
Definition astype_int (s : string) : option N :=
  n ← python_int s;
  if (n <=? int64_max)%N then Some n else None.

(** [str(n)] of a non-negative integer. *)
Definition str_of_int (n : N) : string :=
  NilZero.string_of_uint (N.to_uint n).

(** [fillna(d)] of one cell. *)
Definition fillna {A} (d : A) (o : option A) : A := default d o.

(** Predicates used to state properties of texts. *)
Fixpoint all_chars (p : ascii → bool) (s : string) : bool :=
  match s with
  | EmptyString => true
  | String c t => p c && all_chars p t
  end.

Definition all_digits (s : string) : bool := all_chars is_digit s.
Definition no_digit (s : string) : bool := all_chars (λ c, negb (is_digit c)) s.

(** The first character of [s] is not a digit (or [s] is empty). *)
Definition not_digit_led (s : string) : bool :=
  match s with
  | EmptyString => true
  | String c _ => negb (is_digit c)
  end.

(** [s] starts, respectively ends, with a whitespace character. *)
Definition space_led (s : string) : bool :=
  match s with
  | EmptyString => false
  | String c _ => is_space c
  end.

Fixpoint space_ended (s : string) : bool :=
  match s with
  | EmptyString => false
  | String c EmptyString => is_space c
  | String _ t => space_ended t
  end.

(** [s] has no upper-case letter. *)
Definition lowered (s : string) : bool :=
  all_chars (λ c, negb (is_upper c)) s.

(** [s] has a leading zero: it starts with ["0"] and is longer than one
    character. *)
Definition zero_led (s : string) : bool :=
  match s with
  | String c (String _ _) => Ascii.eqb c "0"
  | _ => false
  end.

End Text.

(** ** Business-key canonicalisation *)

Module Keys.
Import Text.

(** [standardize_id] of [clean_orders], on one cell. The same expression
    is written out in [clean_customers], [clean_products] and
    [clean_stores]. *)
Definition standardize_id (text prefix : string) : option string :=
  n ← astype_int (fillna "0" (str_extract_digits text));
  Some (prefix +:+ "-" +:+ str_of_int n).

(** The number a canonical key carries, as [clean_orders] recovers it for
    the renumbering step. *)
Definition order_num (code : string) : option N :=
  astype_int (fillna "0" (str_extract_digits code)).

End Keys.

(** ** Column primitives shared by the cleaning functions *)

Module Frame.

(** A numeric cell after [pd.to_numeric(errors="coerce")]. *)
Definition num := option Q.

(** [series.notna()] on one cell. *)
Definition notna {A} (o : option A) : bool :=
  match o with Some _ => true | None => false end.

(** [series >= bound] on one cell: a comparison with the missing marker is
    false. *)
Definition ge (o : num) (bound : Q) : bool :=
  match o with Some q => Qle_bool bound q | None => false end.

(** Equality of two numeric cells as [duplicated] sees it: equal numbers,
    or both missing. *)
Definition num_eqb (a b : num) : bool :=
  match a, b with
  | Some x, Some y => Qeq_bool x y
  | None, None => true
  | _, _ => false
  end.

(** [df.duplicated(subset=..., keep="first")] on the column of keys: a row
    is marked when an earlier row carries an equal key. *)
Fixpoint duplicated_aux {K} (eqb : K → K → bool) (seen keys : list K) : list bool :=
  match keys with
  | [] => []
  | k :: rest => existsb (eqb k) seen :: duplicated_aux eqb (k :: seen) rest
  end.

Definition duplicated {K} (eqb : K → K → bool) (keys : list K) : list bool :=
  duplicated_aux eqb [] keys.

(** [df[mask]]: the rows whose mask entry is true, in table order. *)
Fixpoint select {A} (rows : list A) (mask : list bool) : list A :=
  match rows, mask with
  | r :: rows', b :: mask' =>
      if b then r :: select rows' mask' else select rows' mask'
  | _, _ => []
  end.

(** [df.drop_duplicates(subset=[key], keep="first")]; the
    [reset_index(drop=True)] that follows only renames the row labels. *)
Definition drop_duplicates {A K} (eqb : K → K → bool) (key : A → K)
    (rows : list A) : list A :=
  select rows (map negb (duplicated eqb (map key rows))).

End Frame.

(** ** [clean_orders] *)

Module Orders.
Import Text Keys Frame.

Record order_row := {
  order_code : string;
  order_ts : option Z;
  delivery_ts : option Z;
  store_code : string;
  customer_code : string;
  order_type : string;
  order_status : string;
  line_number : num;
  product_code : string;
  quantity : num;
  unit_price : num;
  unit_cost : num }.

(** An order table keeps the row labels of its index: [clean_orders]
    filters rows without renumbering them and addresses rows by label
    ([df.at[idx, ...]]). *)
Definition frame := list (nat * order_row).

(** The default [RangeIndex] a table has when it is read. *)
Definition range_index (rows : list order_row) : frame :=
  zip (seq 0 (length rows)) rows.

Definition labels (t : frame) : list nat := map fst t.
Definition rows (t : frame) : list order_row := map snd t.

Definition set_order_code (c : string) (r : order_row) : order_row :=
  {| order_code := c; order_ts := order_ts r; delivery_ts := delivery_ts r;
     store_code := store_code r; customer_code := customer_code r;
     order_type := order_type r; order_status := order_status r;
     line_number := line_number r; product_code := product_code r;
     quantity := quantity r; unit_price := unit_price r;
     unit_cost := unit_cost r |}.

(** Lines 19-38 on one row: status and type lower-cased and stripped, the
    four codes canonicalised; the numeric columns are already coerced. *)
Definition normalize_order (r : order_row) : option order_row :=
  oc ← standardize_id (order_code r) "ord";
  cc ← standardize_id (customer_code r) "cust";
  sc ← standardize_id (store_code r) "store";
  pc ← standardize_id (product_code r) "prd";
  Some {| order_code := oc; order_ts := order_ts r;
          delivery_ts := delivery_ts r;
          store_code := sc; customer_code := cc;
          order_type := strip (lower (order_type r));
          order_status := strip (lower (order_status r));
          line_number := line_number r; product_code := pc;
          quantity := quantity r; unit_price := unit_price r;
          unit_cost := unit_cost r |}.

Definition normalize (t : frame) : option frame :=
  mapM (λ lr, r ← normalize_order lr.2; Some (lr.1, r)) t.

(** Lines 41-44: the four boolean masks, applied one after the other. *)
Definition filter_orders (t : frame) : frame :=
  let t := List.filter (λ lr, notna (unit_cost lr.2)) t in
  let t := List.filter (λ lr, ge (quantity lr.2) 0) t in
  let t := List.filter (λ lr, ge (unit_price lr.2) 0) t in
  List.filter (λ lr, ge (unit_cost lr.2) 0) t.

(** The key of the order-line table. *)
Definition key : Type := string * num.
Definition key_of (r : order_row) : key := (order_code r, line_number r).
Definition key_eqb (a b : key) : bool :=
  String.eqb a.1 b.1 && num_eqb a.2 b.2.

(** [int(order_nums.max()) if not order_nums.empty else 0] *)
Definition max_of (nums : list N) : N :=
  match nums with
  | [] => 0%N
  | n :: ns => fold_left N.max ns n
  end.

(** The code [f"ord-{n}"]. *)
Definition new_code (n : N) : string := "ord-" +:+ str_of_int n.

(** [df.at[idx, "order_code"] = c]: the rows labelled [idx] get the code. *)
Definition set_at (idx : nat) (c : string) (t : frame) : frame :=
  map (λ lr, if Nat.eqb lr.1 idx then (lr.1, set_order_code c lr.2) else lr) t.

(** Lines 60-62: the loop over [enumerate(dup_indices, start=1)]; [offset]
    is the value the enumeration has reached. *)
Fixpoint renumber_loop (max_order_num offset : N) (dup_indices : list nat)
    (t : frame) : frame :=
  match dup_indices with
  | [] => t
  | idx :: rest =>
      renumber_loop max_order_num (offset + 1) rest
        (set_at idx (new_code (max_order_num + offset)) t)
  end.

(** Lines 49-63: the renumbering step. *)
Definition renumber (t : frame) : option frame :=
  order_nums ← mapM (λ lr, order_num (order_code lr.2)) t;
  let max_order_num := max_of order_nums in
  let dup_mask := duplicated key_eqb (map (λ lr, key_of lr.2) t) in
  let dup_indices := select (labels t) dup_mask in
  Some (renumber_loop max_order_num 1 dup_indices t).

Definition clean_orders (df : frame) : option frame :=
  t ← normalize df;
  renumber (filter_orders t).

(** The renumbering as the specification words it: one scan in table
    order that remembers the keys met so far and counts the collisions;
    the [k]-th collision gets the code ["ord-" + (max_order_num + k)]. *)
Fixpoint renumber_scan (max_order_num k : N) (seen : list key)
    (rs : list order_row) : list order_row :=
  match rs with
  | [] => []
  | r :: rest =>
      if existsb (key_eqb (key_of r)) seen
      then set_order_code (new_code (max_order_num + k)) r
           :: renumber_scan max_order_num (k + 1) seen rest
      else r :: renumber_scan max_order_num k (key_of r :: seen) rest
  end.

(** Two lists of seen keys that answer every membership test alike. *)
Definition same_seen (s1 s2 : list key) : Prop :=
  ∀ x, existsb (key_eqb x) s1 = existsb (key_eqb x) s2.

(** The row with another line number. *)
Definition set_line_number (v : num) (r : order_row) : order_row :=
  {| order_code := order_code r; order_ts := order_ts r;
     delivery_ts := delivery_ts r;
     store_code := store_code r; customer_code := customer_code r;
     order_type := order_type r; order_status := order_status r;
     line_number := v; product_code := product_code r;
     quantity := quantity r; unit_price := unit_price r;
     unit_cost := unit_cost r |}.

(** No two rows at different positions carry equal keys. *)
Fixpoint distinct_keys (rs : list order_row) : bool :=
  match rs with
  | [] => true
  | r :: rest =>
      negb (existsb (λ r', key_eqb (key_of r) (key_of r')) rest)
      && distinct_keys rest
  end.

(** What the loop amounts to, row by row: a marked row takes the next new
    code, an unmarked row stays. *)
Fixpoint renumber_marked (max_order_num k : N) (mask : list bool)
    (t : frame) : frame :=
  match t, mask with
  | lr :: t', b :: mask' =>
      if b
      then (lr.1, set_order_code (new_code (max_order_num + k)) lr.2)
           :: renumber_marked max_order_num (k + 1) mask' t'
      else lr :: renumber_marked max_order_num k mask' t'
  | _, _ => t
  end.

End Orders.

(** ** The dimension tables *)

Module Regions.
Import Text.

Record region_row := {
  region_code : string;
  region_name : string;
  active_flag : string }.

(** The chain [lower / replace("region", "") / strip / title], written the
    same way in [clean_regions] and in [clean_stores]. *)
Definition normalize_region_name (s : string) : string :=
  title (strip (str_replace "region" "" (lower s))).

Definition clean_regions (df : list region_row) : list region_row :=
  map (λ r, {| region_code := region_code r;
               region_name := normalize_region_name (region_name r);
               active_flag := active_flag r |}) df.

End Regions.

Module Customers.
Import Text Keys Frame.

Record customer_row := {
  customer_code : string;
  signup_date : option Z;
  customer_segment : option string;
  email : option string;
  loyalty_id : option string }.

Definition normalize_customer (r : customer_row) : option customer_row :=
  cc ← standardize_id (customer_code r) "cust";
  Some {| customer_code := cc; signup_date := signup_date r;
          customer_segment := (λ s, strip (lower s)) <$> customer_segment r;
          email := email r; loyalty_id := loyalty_id r |}.

(** The [.str] accessor exists on a column that holds texts: a column
    read with rows and no text in it is a column of floats, on which the
    accessor raises. *)
Definition str_accessor (col : list (option string)) : option unit :=
  match col with
  | [] => Some ()
  | _ :: _ => if existsb notna col then Some () else None
  end.

(** The dtype of the raw key column is not part of a row: the assignment
    through [.loc] is taken to store the keys, as it does on a column
    read as texts. *)
Definition clean_customers (df : list customer_row) : option (list customer_row) :=
  t ← mapM normalize_customer df;
  _ ← str_accessor (map customer_segment df);
  Some (drop_duplicates String.eqb customer_code t).

End Customers.

Module Products.
Import Text Keys Frame.

Record product_row := {
  product_code : string;
  product_name : string;
  category : string;
  base_price : num;
  active_flag : string }.

Definition normalize_product (r : product_row) : option product_row :=
  pc ← standardize_id (product_code r) "prd";
  Some {| product_code := pc;
          product_name := title (strip (product_name r));
          category := title (strip (category r));
          base_price := base_price r; active_flag := active_flag r |}.

Definition filter_products (t : list product_row) : list product_row :=
  List.filter (λ r, ge (base_price r) 0)
    (List.filter (λ r, notna (base_price r)) t).

Definition clean_products (df : list product_row) : option (list product_row) :=
  t ← mapM normalize_product df;
  Some (drop_duplicates String.eqb product_code (filter_products t)).

End Products.

Module Stores.
Import Text Keys Frame.

Record store_row := {
  store_code : string;
  store_name : string;
  city : string;
  state : string;
  region_name : string;
  open_date : option Z;
  close_date : option Z;
  square_feet : num }.

Definition normalize_store (r : store_row) : option store_row :=
  sc ← standardize_id (store_code r) "store";
  Some {| store_code := sc;
          store_name := title (strip (store_name r));
          city := title (strip (city r));
          state := upper (strip (state r));
          region_name := Regions.normalize_region_name (region_name r);
          open_date := open_date r; close_date := close_date r;
          square_feet := square_feet r |}.

Definition filter_stores (t : list store_row) : list store_row :=
  List.filter (λ r, ge (square_feet r) 1)
    (List.filter (λ r, notna (square_feet r)) t).

Definition clean_stores (df : list store_row) : option (list store_row) :=
  t ← mapM normalize_store df;
  Some (drop_duplicates String.eqb store_code (filter_stores t)).

End Stores.

(** ** [run_cleaning]: per-table cleaning, then the referential filter *)

Module Cleaning.
Import Frame.

(** Lines 43-55 of [run_cleaning]. *)
Definition enforce_fk (stores_clean : list Stores.store_row)
    (products_clean : list Products.product_row)
    (orders_clean : Orders.frame) : Orders.frame :=
  let valid_store_codes : gset string :=
    list_to_set (map Stores.store_code stores_clean) in
  let valid_product_codes : gset string :=
    list_to_set (map Products.product_code products_clean) in
  List.filter
    (λ lr,
       (bool_decide (Orders.store_code lr.2 ∈ valid_store_codes)
        || String.eqb (Orders.store_code lr.2) "store-0")
       && (bool_decide (Orders.product_code lr.2 ∈ valid_product_codes)
           || String.eqb (Orders.product_code lr.2) "prd-0"))
    orders_clean.

Record cleaned := {
  regions_clean : list Regions.region_row;
  products_clean : list Products.product_row;
  stores_clean : list Stores.store_row;
  customers_clean : list Customers.customer_row;
  orders_clean : Orders.frame }.

(** [run_cleaning] between reading the raw tables and writing the cleaned
    ones; dates are already parsed in the rows. *)
Definition run_cleaning (regions : list Regions.region_row)
    (orders : Orders.frame) (products : list Products.product_row)
    (stores : list Stores.store_row)
    (customers : list Customers.customer_row) : option cleaned :=
  let regions_clean := Regions.clean_regions regions in
  products_clean ← Products.clean_products products;
  stores_clean ← Stores.clean_stores stores;
  customers_clean ← Customers.clean_customers customers;
  orders_clean ← Orders.clean_orders orders;
  Some {| regions_clean := regions_clean;
          products_clean := products_clean;
          stores_clean := stores_clean;
          customers_clean := customers_clean;
          orders_clean := enforce_fk stores_clean products_clean orders_clean |}.

End Cleaning.

(** ** Generic tables: named columns of cells *)

Module Table.

Inductive dtype := DObject | DString | DInt | DFloat | DDatetime.

(** One cell: the missing marker (NaN, NaT, NA), a text, a number or a
    timestamp. *)
Inductive cell :=
| Missing
| Text (s : string)
| Number (q : Q)
| Timestamp (t : Z).

Record column := { col_dtype : dtype; col_cells : list cell }.

(** A DataFrame: its columns in order, by name. *)
Abbreviation dataframe := (list (string * column)).

(** [df.columns] *)
Definition columns (df : dataframe) : list string := map fst df.

(** The column [df[name]] denotes, when there is one. *)
Definition lookup_column (name : string) (df : dataframe) : option column :=
  snd <$> List.find (λ p, String.eqb p.1 name) df.

(** [df[name] = v]: the column is replaced where it stands, a new name is
    appended. *)
Fixpoint setitem (name : string) (v : column) (df : dataframe) : dataframe :=
  match df with
  | [] => [(name, v)]
  | (n, c) :: rest =>
      if String.eqb n name then (n, v) :: rest
      else (n, c) :: setitem name v rest
  end.

(** [series.isna()] on one cell. *)
Definition isna (c : cell) : bool :=
  match c with Missing => true | _ => false end.

Definition cell_eqb (a b : cell) : bool :=
  match a, b with
  | Missing, Missing => true
  | Text s, Text t => String.eqb s t
  | Number p, Number q => Qeq_bool p q
  | Timestamp s, Timestamp t => Z.eqb s t
  | _, _ => false
  end.

(** [series.isin(values)] on one cell. *)
Definition isin (c : cell) (values : list cell) : bool :=
  existsb (cell_eqb c) values.

End Table.

(** ** [auto_parse_dates] *)

Module Dates.
Import Text Table.

(** DataFrames are objects: a table lives at a location of the store, and
    a list of tables is a list of locations. *)
Abbreviation store := (gmap nat dataframe).

(** ["date" in col.lower() or "_ts" in col.lower()] *)
Definition is_date_col (name : string) : bool :=
  contains "date" (lower name) || contains "_ts" (lower name).

(** [is_string_dtype] of a dtype. *)
Definition is_string_dtype (d : dtype) : bool :=
  match d with DString | DObject => true | _ => false end.

(** [series.astype("object")] *)
Definition astype_object (c : column) : column :=
  {| col_dtype := DObject; col_cells := col_cells c |}.

Section AutoParseDates.

(** What [pd.to_datetime(format="mixed")] reads in one cell; [None] when
    the cell cannot be parsed. *)
Variable parse_datetime : cell → option Z.

(** [errors="coerce"]: an unparseable cell becomes the missing marker. *)
Definition to_datetime_cell (c : cell) : cell :=
  match parse_datetime c with
  | Some t => Timestamp t
  | None => Missing
  end.

Definition to_datetime (c : column) : column :=
  {| col_dtype := DDatetime; col_cells := map to_datetime_cell (col_cells c) |}.

(** The body of the loop over [date_cols] (lines 21-27), on the table it
    mutates. *)
Definition parse_column (df : dataframe) (col : string) : dataframe :=
  match lookup_column col df with
  | None => df
  | Some c =>
      let df :=
        if is_string_dtype (col_dtype c) then setitem col (astype_object c) df
        else df in
      match lookup_column col df with
      | None => df
      | Some c' => setitem col (to_datetime c') df
      end
  end.

(** One iteration of the outer loop (lines 15-29): [df.copy()] allocates a
    new table, whose date columns are then assigned in place. *)
Definition parse_one (l : nat) (h : store) : nat * store :=
  let l' := fresh (dom h) in
  let h := <[l' := default [] (h !! l)]> h in
  let date_cols := List.filter is_date_col (columns (default [] (h !! l'))) in
  (l', foldl (λ h col, alter (λ df, parse_column df col) l' h) h date_cols).

Fixpoint auto_parse_dates (df_list : list nat) (h : store) : list nat * store :=
  match df_list with
  | [] => ([], h)
  | l :: rest =>
      let '(l', h) := parse_one l h in
      let '(processed_dfs, h) := auto_parse_dates rest h in
      (l' :: processed_dfs, h)
  end.

(** The table the specification describes: the date columns converted,
    every other column as it was. *)
Definition with_dates_parsed (df : dataframe) : dataframe :=
  map (λ p, (p.1, if is_date_col p.1 then to_datetime p.2 else p.2)) df.

End AutoParseDates.

End Dates.

(** ** The schema validator ([validation.py]) *)

Module Validation.
Import Table.

(** One entry of [SCHEMAS]. Sets are finite sets; the dictionaries
    [allowed_values] and [min_values] and the list [unique_keys] keep the
    order they are written in, and are empty when the entry omits them. *)
Record schema := {
  required_columns : gset string;
  allow_nulls : gset string;
  strings : gset string;
  ints : gset string;
  floats : gset string;
  datetimes : gset string;
  unique_keys : list (list string);
  allowed_values : list (string * list string);
  min_values : list (string * Q) }.

Definition regions_schema : schema := {|
  required_columns := list_to_set ["region_code"; "region_name"; "active_flag"];
  allow_nulls := ∅;
  strings := list_to_set ["region_code"; "region_name"; "active_flag"];
  ints := ∅; floats := ∅; datetimes := ∅;
  unique_keys := [["region_code"]; ["region_name"]];
  allowed_values := [("active_flag", ["Y"; "N"])];
  min_values := [] |}.

Definition products_schema : schema := {|
  required_columns :=
    list_to_set ["product_code"; "product_name"; "category"; "base_price";
                 "active_flag"];
  allow_nulls := ∅;
  strings := list_to_set ["product_code"; "product_name"; "category"; "active_flag"];
  ints := ∅; floats := list_to_set ["base_price"]; datetimes := ∅;
  unique_keys := [["product_code"]];
  allowed_values := [("active_flag", ["Y"; "N"])];
  min_values := [("base_price", 0%Q)] |}.

Definition stores_schema : schema := {|
  required_columns :=
    list_to_set ["store_code"; "store_name"; "city"; "state"; "region_name";
                 "open_date"; "close_date"; "square_feet"];
  allow_nulls := list_to_set ["close_date"];
  strings := list_to_set ["store_code"; "store_name"; "city"; "state"; "region_name"];
  ints := ∅; floats := list_to_set ["square_feet"];
  datetimes := list_to_set ["open_date"; "close_date"];
  unique_keys := [["store_code"]];
  allowed_values := [];
  min_values := [("square_feet", 1%Q)] |}.

Definition customers_schema : schema := {|
  required_columns :=
    list_to_set ["customer_code"; "signup_date"; "customer_segment"; "email";
                 "loyalty_id"];
  allow_nulls := list_to_set ["loyalty_id"; "email"];
  strings := list_to_set ["customer_code"; "customer_segment"; "email"; "loyalty_id"];
  ints := ∅; floats := ∅; datetimes := list_to_set ["signup_date"];
  unique_keys := [["customer_code"]];
  allowed_values := [];
  min_values := [] |}.

Definition orders_schema : schema := {|
  required_columns :=
    list_to_set ["order_code"; "order_ts"; "delivery_ts"; "store_code";
                 "customer_code"; "order_type"; "order_status"; "line_number";
                 "product_code"; "quantity"; "unit_price"; "unit_cost"];
  allow_nulls := list_to_set ["delivery_ts"];
  strings :=
    list_to_set ["order_code"; "store_code"; "customer_code"; "order_type";
                 "order_status"; "product_code"];
  ints := list_to_set ["line_number"; "quantity"];
  floats := list_to_set ["unit_price"; "unit_cost"];
  datetimes := list_to_set ["order_ts"; "delivery_ts"];
  unique_keys := [["order_code"; "line_number"]];
  allowed_values := [];
  min_values :=
    [("line_number", 1%Q); ("quantity", 0%Q); ("unit_price", 0%Q);
     ("unit_cost", 0%Q)] |}.

(** The keys of [TABLE_PATHS], in the order they are written. *)
Definition TABLE_PATHS : list string :=
  ["regions"; "products"; "stores"; "customers"; "orders"].

Definition SCHEMAS : list (string * schema) :=
  [("regions", regions_schema); ("products", products_schema);
   ("stores", stores_schema); ("customers", customers_schema);
   ("orders", orders_schema)].

(** *** What the validator prints *)

Inductive level := FAIL | WARN | OK.

Inductive message :=
| Loaded (table : string) (n_rows n_cols : nat)
| MissingColumns (table : string) (missing : list string)
| ExtraColumns (table : string) (extra : list string)
| NullsNotAllowed (table col : string) (found : nat)
| WrongDtype (table col : string) (found : dtype) (expected : string)
| InvalidValues (table col : string) (bad : list cell)
| BelowMinimum (table col : string) (min_val : Q) (examples : list cell)
| DuplicateKey (table : string) (cols : list string) (preview : list (list cell))
| ForeignKey (child parent : string) (examples : list cell)
| AllPassed.

Definition line : Type := level * message.

(** The columns of the checked table a message is about. *)
Definition message_columns (m : message) : list string :=
  match m with
  | NullsNotAllowed _ col _ | WrongDtype _ col _ _ | InvalidValues _ col _
  | BelowMinimum _ col _ _ => [col]
  | DuplicateKey _ cols _ => cols
  | _ => []
  end.

(** *** Printing and raising *)

Inductive exn := KeyError (key : string) | TypeError | SystemExit.

Inductive result (A : Type) :=
| Done (a : A)
| Raised (e : exn).
Arguments Done {A} a.
Arguments Raised {A} e.

(** A run yields a value or an exception, and the lines printed on the
    way; what was printed before an exception stays printed. *)
Definition V (A : Type) : Type := result A * list line.

Definition ret {A} (a : A) : V A := (Done a, []).

Definition bind {A B} (m : V A) (f : A → V B) : V B :=
  match m with
  | (Done a, out) => let '(r, out') := f a in (r, out ++ out')
  | (Raised e, out) => (Raised e, out)
  end.

Definition raise {A} (e : exn) : V A := (Raised e, []).

Definition print (l : line) : V unit := (Done (), [l]).

Declare Scope validator_scope.
Delimit Scope validator_scope with V.
Notation "x <- m ; k" := (bind m (λ x, k))
  (at level 20, m at level 100, k at level 200, only parsing) : validator_scope.
Local Open Scope validator_scope.

Definition _fail (m : message) : V unit := print (FAIL, m).
Definition _warn (m : message) : V unit := print (WARN, m).
Definition _ok (m : message) : V unit := print (OK, m).

(** [d[key]] on a dictionary written as a list of entries. *)
Definition dict_get {A} (d : list (string * A)) (key : string) : V A :=
  match List.find (λ p, String.eqb p.1 key) d with
  | Some p => ret p.2
  | None => raise (KeyError key)
  end.

(** [df[col]] *)
Definition getitem (df : dataframe) (col : string) : V column :=
  match lookup_column col df with
  | Some c => ret c
  | None => raise (KeyError col)
  end.

(** [col in df.columns] *)
Definition has_column (df : dataframe) (col : string) : bool :=
  bool_decide (col ∈ columns df).

(** A [for] loop whose body may clear the flag [ok]: the body returns
    [false] when it does. *)
Fixpoint for_each {A} (xs : list A) (body : A → V bool) (ok : bool) : V bool :=
  match xs with
  | [] => ret ok
  | x :: rest => b <- body x ; for_each rest body (ok && b)
  end.

(** *** The per-table checks, for a given schema entry *)

(** The names a message lists are those of a set: the code prints them
    sorted, [elements] gives them in the order of the set. *)
Definition check_schema (schema : schema) (name : string) (df : dataframe)
    : V bool :=
  let required := required_columns schema in
  let cols : gset string := list_to_set (columns df) in
  let missing := required ∖ cols in
  let extra := cols ∖ required in
  ok <- (if bool_decide (missing ≠ ∅)
         then _ <- _fail (MissingColumns name (elements missing)) ; ret false
         else ret true) ;
  _ <- (if bool_decide (extra ≠ ∅)
        then _warn (ExtraColumns name (elements extra))
        else ret ()) ;
  ret ok.

Definition check_nulls (schema : schema) (name : string) (df : dataframe)
    : V bool :=
  for_each (elements (required_columns schema))
    (λ col,
       if negb (has_column df col) then ret true
       else if bool_decide (col ∉ allow_nulls schema)
       then c <- getitem df col ;
            if existsb isna (col_cells c)
            then _ <- _fail (NullsNotAllowed name col
                               (length (List.filter isna (col_cells c)))) ;
                 ret false
            else ret true
       else ret true)
    true.

(** The dtype tests of [pandas.api.types]. An object column counts as a
    column of texts whatever its cells are. *)
Definition is_string_dtype (c : column) : bool :=
  match col_dtype c with DString | DObject => true | _ => false end.
Definition is_integer_dtype (c : column) : bool :=
  match col_dtype c with DInt => true | _ => false end.
Definition is_float_dtype (c : column) : bool :=
  match col_dtype c with DFloat => true | _ => false end.
Definition is_datetime64_any_dtype (c : column) : bool :=
  match col_dtype c with DDatetime => true | _ => false end.

(** One of the four loops of [validate_dtypes]. *)
Definition dtype_loop (declared : gset string) (test : column → bool)
    (expected : string) (name : string) (df : dataframe) (ok : bool) : V bool :=
  for_each (elements declared)
    (λ col,
       if has_column df col
       then c <- getitem df col ;
            if negb (test c)
            then _ <- _fail (WrongDtype name col (col_dtype c) expected) ; ret false
            else ret true
       else ret true)
    ok.

Definition check_dtypes (schema : schema) (name : string) (df : dataframe)
    : V bool :=
  ok <- dtype_loop (strings schema) is_string_dtype "string" name df true ;
  ok <- dtype_loop (ints schema) is_integer_dtype "integer" name df ok ;
  ok <- dtype_loop (floats schema)
          (λ c, is_float_dtype c || is_integer_dtype c) "float" name df ok ;
  dtype_loop (datetimes schema) is_datetime64_any_dtype "datetime" name df ok.

(** [series.unique()]: the values in order of first appearance. *)
Definition unique (cells : list cell) : list cell :=
  Frame.drop_duplicates cell_eqb id cells.

Definition check_allowed_values (schema : schema) (name : string)
    (df : dataframe) : V bool :=
  for_each (allowed_values schema)
    (λ '(col, allowed),
       if negb (has_column df col) then ret true
       else
         c <- getitem df col ;
         let bad :=
           unique (List.filter
                     (λ x, negb (isna x) && negb (isin x (map Text allowed)))
                     (col_cells c)) in
         if (0 <? length bad)%nat
         then _ <- _fail (InvalidValues name col (take 10 bad)) ; ret false
         else ret true)
    true.

(** [series < min_val]: cell by cell for numbers, false for a missing
    cell; a text or a timestamp cannot be compared with a number. *)
Definition cell_lt (min_val : Q) (x : cell) : option bool :=
  match x with
  | Number q => Some (negb (Qle_bool min_val q))
  | Missing => Some false
  | Text _ | Timestamp _ => None
  end.

Definition series_lt (c : column) (min_val : Q) : V (list bool) :=
  match col_dtype c, mapM (cell_lt min_val) (col_cells c) with
  | DDatetime, _ | _, None => raise TypeError
  | _, Some mask => ret mask
  end.

Definition check_min_values (schema : schema) (name : string)
    (df : dataframe) : V bool :=
  for_each (min_values schema)
    (λ '(col, min_val),
       if negb (has_column df col) then ret true
       else
         c <- getitem df col ;
         below <- series_lt c min_val ;
         let bad :=
           Frame.select (col_cells c)
             (zip_with andb (map (λ x, negb (isna x)) (col_cells c)) below) in
         if (0 <? length bad)%nat
         then _ <- _fail (BelowMinimum name col min_val (take 5 bad)) ; ret false
         else ret true)
    true.

(** The rows of [df[cols]]: one list of cells per row. *)
Fixpoint row_tuples (n_rows : nat) (cols : list (list cell)) : list (list cell) :=
  match cols with
  | [] => replicate n_rows []
  | c :: rest => zip_with cons c (row_tuples n_rows rest)
  end.

Definition tuple_eqb (a b : list cell) : bool :=
  (length a =? length b)%nat && forallb id (zip_with cell_eqb a b).

(** [df.duplicated(subset=cols, keep=False)]: a row is marked when
    another row carries an equal tuple. *)
Definition duplicated_all (keys : list (list cell)) : list bool :=
  map (λ k, (1 <? length (List.filter (tuple_eqb k) keys))%nat) keys.

(** [df.shape[0]] *)
Definition n_rows (df : dataframe) : nat :=
  match df with
  | [] => 0
  | (_, c) :: _ => length (col_cells c)
  end.

(** [getitem] for each name of a list. *)
Fixpoint getitems (df : dataframe) (cols : list string) : V (list column) :=
  match cols with
  | [] => ret []
  | col :: rest => c <- getitem df col ; cs <- getitems df rest ; ret (c :: cs)
  end.

Definition check_uniqueness (schema : schema) (name : string)
    (df : dataframe) : V bool :=
  for_each (unique_keys schema)
    (λ cols,
       if existsb (λ c, negb (has_column df c)) cols then ret true
       else
         cs <- getitems df cols ;
         let keys := row_tuples (n_rows df) (map col_cells cs) in
         let dupes := Frame.select keys (duplicated_all keys) in
         if (0 <? length dupes)%nat
         then _ <- _fail (DuplicateKey name cols (take 5 dupes)) ; ret false
         else ret true)
    true.

(** *** The checks as [run_validation] calls them *)

Definition validate_schema (name : string) (df : dataframe) : V bool :=
  schema <- dict_get SCHEMAS name ; check_schema schema name df.
Definition validate_nulls (name : string) (df : dataframe) : V bool :=
  schema <- dict_get SCHEMAS name ; check_nulls schema name df.
Definition validate_dtypes (name : string) (df : dataframe) : V bool :=
  schema <- dict_get SCHEMAS name ; check_dtypes schema name df.
Definition validate_allowed_values (name : string) (df : dataframe) : V bool :=
  schema <- dict_get SCHEMAS name ; check_allowed_values schema name df.
Definition validate_min_values (name : string) (df : dataframe) : V bool :=
  schema <- dict_get SCHEMAS name ; check_min_values schema name df.
Definition validate_uniqueness (name : string) (df : dataframe) : V bool :=
  schema <- dict_get SCHEMAS name ; check_uniqueness schema name df.

(** One foreign-key test: the child values that are neither missing, nor
    the sentinel (when there is one), nor a value of the parent column. *)
Definition fk_check (child_name : string) (child : dataframe)
    (child_col : string) (parent_name : string) (parent : dataframe)
    (parent_col : string) (sentinel : option string) : V bool :=
  values <- getitem child child_col ;
  keys <- getitem parent parent_col ;
  let dangling :=
    List.filter
      (λ x, negb (isin x (col_cells keys))
            && match sentinel with
               | Some s => negb (cell_eqb x (Text s))
               | None => true
               end)
      (col_cells values) in
  let missing := unique (List.filter (λ x, negb (isna x)) dangling) in
  if (0 <? length missing)%nat
  then _ <- _fail (ForeignKey (child_name +:+ "." +:+ child_col)
                     (parent_name +:+ "." +:+ parent_col) (take 10 missing)) ;
       ret false
  else ret true.

Definition validate_referential_integrity (tables : list (string * dataframe))
    : V bool :=
  regions <- dict_get tables "regions" ;
  products <- dict_get tables "products" ;
  stores <- dict_get tables "stores" ;
  customers <- dict_get tables "customers" ;
  orders <- dict_get tables "orders" ;
  ok1 <- fk_check "orders" orders "store_code" "stores" stores "store_code"
           (Some "store-0") ;
  ok2 <- fk_check "orders" orders "customer_code" "customers" customers
           "customer_code" (Some "cust-0") ;
  ok3 <- fk_check "orders" orders "product_code" "products" products
           "product_code" (Some "prd-0") ;
  ok4 <- fk_check "stores" stores "region_name" "regions" regions
           "region_name" None ;
  ret (ok1 && ok2 && ok3 && ok4).

(** [all_ok &= check]: the check runs whatever [all_ok] is. *)
Definition and_assign (all_ok : bool) (check : V bool) : V bool :=
  b <- check ; ret (all_ok && b).

(** The body of the loop over [tables.items()]. *)
Definition check_table (all_ok : bool) (name : string) (df : dataframe)
    : V bool :=
  all_ok <- and_assign all_ok (validate_schema name df) ;
  all_ok <- and_assign all_ok (validate_nulls name df) ;
  all_ok <- and_assign all_ok (validate_dtypes name df) ;
  all_ok <- and_assign all_ok (validate_allowed_values name df) ;
  all_ok <- and_assign all_ok (validate_min_values name df) ;
  and_assign all_ok (validate_uniqueness name df).

Fixpoint check_tables (all_ok : bool) (tables : list (string * dataframe))
    : V bool :=
  match tables with
  | [] => ret all_ok
  | (name, df) :: rest =>
      all_ok <- check_table all_ok name df ; check_tables all_ok rest
  end.

(** The loading loop: [load_table] stands for reading and re-typing a
    persisted table. *)
Fixpoint load_tables (load_table : string → dataframe) (names : list string)
    : V (list (string * dataframe)) :=
  match names with
  | [] => ret []
  | name :: rest =>
      let df := load_table name in
      _ <- _ok (Loaded name (n_rows df) (length (columns df))) ;
      tables <- load_tables load_table rest ;
      ret ((name, df) :: tables)
  end.

Definition run_validation (load_table : string → dataframe) : V unit :=
  tables <- load_tables load_table TABLE_PATHS ;
  all_ok <- check_tables true tables ;
  all_ok <- and_assign all_ok (validate_referential_integrity tables) ;
  if negb all_ok then raise SystemExit else print (OK, AllPassed).

(** *** Notions used to state the properties of the validator *)

(** A run completes (raises nothing) and prints only lines whose message
    satisfies [P]. *)
Definition safe {A} (P : message → Prop) (m : V A) : Prop :=
  (∃ a, m.1 = Done a) ∧ Forall (λ l : line, P l.2) m.2.

(** Checks run one after the other, each folded into the flag with
    [all_ok &= check]. *)
Fixpoint run_checks (all_ok : bool) (checks : list (V bool)) : V bool :=
  match checks with
  | [] => ret all_ok
  | c :: rest => all_ok <- and_assign all_ok c ; run_checks all_ok rest
  end.

(** The six per-table checks of every table, in the order of the run. *)
Definition per_table_checks (tables : list (string * dataframe))
    : list (V bool) :=
  concat
    (map (λ t : string * dataframe,
            [validate_schema t.1 t.2; validate_nulls t.1 t.2;
             validate_dtypes t.1 t.2; validate_allowed_values t.1 t.2;
             validate_min_values t.1 t.2; validate_uniqueness t.1 t.2])
       tables).

(** A column holds numbers only, under a numeric dtype. *)
Definition is_numeric_column (c : column) : bool :=
  match col_dtype c with DInt | DFloat => true | _ => false end
  && forallb (λ x, match x with Missing | Number _ => true | _ => false end)
       (col_cells c).

(** What [load_table] establishes for a table (lines 102-110): the columns
    declared as integers or floats, when present, are numeric. *)
Definition loaded_like (schema : schema) (df : dataframe) : bool :=
  forallb
    (λ col, match lookup_column col df with
            | Some c => is_numeric_column c
            | None => true
            end)
    (elements (ints schema ∪ floats schema)).

(** A message speaks of columns of the table only. *)
Definition about_present (df : dataframe) (m : message) : Prop :=
  ∀ col, col ∈ message_columns m → col ∈ columns df.

End Validation.

(** ** Table and column names for the database load ([load_to_db.py]) *)

Module LoadToDb.
Import Text.

Definition is_underscore (c : ascii) : bool := Ascii.eqb c "_".

(** The class [\w] on ASCII text: a letter, a digit or the underscore. *)
Definition is_word (c : ascii) : bool :=
  is_alpha c || is_digit c || is_underscore c.

(** [re.sub(cls + "+", "_", s)] for a class [cls] of characters: every
    maximal run of characters of the class becomes one underscore;
    [in_run] tells that the character before belongs to a run whose
    underscore is already written. *)
Fixpoint sub_runs (cls : ascii → bool) (in_run : bool) (s : string) : string :=
  match s with
  | EmptyString => EmptyString
  | String c t =>
      if cls c
      then if in_run then sub_runs cls true t
           else String "_" (sub_runs cls true t)
      else String c (sub_runs cls false t)
  end.

(** [re.sub(r"([a-z0-9])([A-Z])", r"\1_\2", s)]: the matches are found from
    left to right and do not overlap, the search resuming after the
    upper-case letter of a match. *)
Fixpoint sub_camel (s : string) : string :=
  match s with
  | EmptyString => EmptyString
  | String c t =>
      match t with
      | String d t' =>
          if (is_lower c || is_digit c) && is_upper d
          then String c (String "_" (String d (sub_camel t')))
          else String c (sub_camel t)
      | EmptyString => String c EmptyString
      end
  end.

(** [s.lstrip(chars)] and [s.rstrip(chars)], for the set of characters
    [cls]. *)
Fixpoint lstrip_chars (cls : ascii → bool) (s : string) : string :=
  match s with
  | EmptyString => EmptyString
  | String c t => if cls c then lstrip_chars cls t else s
  end.

Fixpoint rstrip_chars (cls : ascii → bool) (s : string) : string :=
  match s with
  | EmptyString => EmptyString
  | String c t =>
      match rstrip_chars cls t with
      | EmptyString => if cls c then EmptyString else String c EmptyString
      | String _ _ as t' => String c t'
      end
  end.

Definition strip_chars (cls : ascii → bool) (s : string) : string :=
  rstrip_chars cls (lstrip_chars cls s).

(** Lines 52-57. *)
Definition snake_case (name : string) : string :=
  let name := strip name in
  let name := sub_runs (λ c, negb (is_word c)) false name in
  let name := sub_camel name in
  lower (strip_chars is_underscore (sub_runs is_underscore false name)).

(** The rest of a match of [^[a-zA-Z_][a-zA-Z0-9_]*$] after its first
    character: identifier characters up to the end of the text, where [$]
    also matches just before a final line feed. *)
Fixpoint identifier_tail (s : string) : bool :=
  match s with
  | EmptyString => true
  | String c t =>
      if is_word c then identifier_tail t
      else Ascii.eqb c "010" && String.eqb t EmptyString
  end.

(** Lines 60-63. *)
Definition validate_schema_name (schema : string) : bool :=
  match schema with
  | EmptyString => false
  | String c t => (is_alpha c || is_underscore c) && identifier_tail t
  end.

(** [s.split(sep)] for a separator of one character. *)
Fixpoint split (sep : ascii) (s : string) : list string :=
  match s with
  | EmptyString => [EmptyString]
  | String c t =>
      if Ascii.eqb c sep then EmptyString :: split sep t
      else match split sep t with
           | [] => [String c EmptyString]
           | h :: rest => String c h :: rest
           end
  end.

(** [s[n:]] *)
Fixpoint drop_chars (n : nat) (s : string) : string :=
  match n, s with
  | S k, String _ t => drop_chars k t
  | _, _ => s
  end.

(** The body of the loop over the prefixes (lines 106-107). *)
Definition strip_prefix (table_name p : string) : string :=
  if String.prefix p table_name
  then lstrip_chars is_underscore (drop_chars (String.length p) table_name)
  else table_name.

(** Lines 94-109, for the stem of the path ([csv_path.stem]) and the value
    of the environment variable [TABLE_PREFIX_STRIP] (the empty text when
    it is not set). *)
Definition infer_table_name (stem TABLE_PREFIX_STRIP : string) : string :=
  let table_name := snake_case stem in
  let prefixes := strip TABLE_PREFIX_STRIP in
  if String.eqb prefixes EmptyString then table_name
  else
    foldl strip_prefix table_name
      (map snake_case
         (List.filter (λ x, negb (String.eqb (strip x) EmptyString))
            (split "," prefixes))).

(** Lines 177-181 of [load_csv_to_raw]: the columns of a chunk are renamed,
    and a chunk with an empty or blank column name is refused. *)
Definition rename_columns (columns : list string) : list string :=
  map snake_case columns.

Definition has_empty_column (columns : list string) : bool :=
  existsb (λ col, String.eqb col EmptyString
                  || String.eqb (strip col) EmptyString) columns.

(** The double quote, and a name between double quotes ([f'"{name}"']). *)
Definition double_quote : ascii := "034".

Definition quoted (name : string) : string :=
  String double_quote (name +:+ String double_quote EmptyString).

(** Lines 79-90: the statement [ensure_schema] executes; [None] stands for
    the [ValueError] it raises for a refused name. *)
Definition ensure_schema (schema : string) : option string :=
  if negb (validate_schema_name schema) then None
  else Some ("CREATE SCHEMA IF NOT EXISTS " +:+ quoted schema +:+ ";").

(** Lines 125-134: the query [get_table_row_count] sends; [None] when it
    returns 0 without asking the database. *)
Definition row_count_query (schema table : string) : option string :=
  if negb (validate_schema_name schema) || negb (validate_schema_name table)
  then None
  else Some ("SELECT COUNT(*) FROM " +:+ quoted schema +:+ "."
             +:+ quoted table).

(** *** The loops of [main] *)

(** [range(n)] *)
Definition range (n : Z) : list Z := map Z.of_nat (seq 0 (Z.to_nat n)).

Section Main.

(** What lies outside the program: the database and the files. *)
Variable World : Type.

(** One connection test (lines 235-236): whether it went through
    ([false]: it raised [SQLAlchemyError]), and the world after it. *)
Variable connection_test : World → bool * World.

(** [csv_path.stem] *)
Variable stem : string → string.

(** [load_csv_to_raw] after its name guard (lines 154-213), for a path, a
    schema and a table: whether it returned ([false]: it raised), and the
    world after it. *)
Variable load_chunks : string → string → string → World → bool * World.

(** The configuration read from the environment. *)
Variable MAX_RETRIES : Z.
Variable RAW_SCHEMA TABLE_PREFIX_STRIP : string.

(** Lines 233-245, over the values of [attempt] still to come: whether the
    loop ended without raising, the number of tests made, and the world
    after them. *)
Fixpoint connectivity_loop (attempts : list Z) (w : World) : bool * nat * World :=
  match attempts with
  | [] => (true, 0, w)
  | attempt :: rest =>
      let '(connected, w) := connection_test w in
      if connected then (true, 1, w)
      else if (attempt <? MAX_RETRIES - 1)%Z
      then let '(ok, n, w) := connectivity_loop rest w in (ok, S n, w)
      else (false, 1, w)
  end.

Definition connectivity_check (w : World) : bool * nat * World :=
  connectivity_loop (range MAX_RETRIES) w.

(** [load_csv_to_raw]: the name guard (lines 151-152), which raises
    [ValueError] before anything is read or written, then the load. *)
Definition load_csv_to_raw (csv_path schema table : string) (w : World)
    : bool * World :=
  if negb (validate_schema_name schema) || negb (validate_schema_name table)
  then (false, w)
  else load_chunks csv_path schema table w.

(** Lines 264-280: the loop over the files, which counts the files loaded
    and the files that raised. [main] reaches the loop only when
    [ensure_schema] (line 247) has accepted [RAW_SCHEMA]. *)
Fixpoint load_files (csv_files : list string) (successful failed : nat)
    (w : World) : nat * nat * World :=
  match csv_files with
  | [] => (successful, failed, w)
  | csv_path :: rest =>
      let table := infer_table_name (stem csv_path) TABLE_PREFIX_STRIP in
      let '(returned, w) := load_csv_to_raw csv_path RAW_SCHEMA table w in
      if returned then load_files rest (successful + 1) failed w
      else load_files rest successful (failed + 1) w
  end.

(** Lines 286-287: [main] raises [RuntimeError] after the loop. *)
Definition raises_runtime_error (failed : nat) : bool := (0 <? failed)%nat.

(** The world after [k] connection tests, and whether the test numbered
    [k] (from 0) goes through. *)
Definition world_after (k : nat) (w : World) : World :=
  Nat.iter k (λ w, (connection_test w).2) w.

Definition connects (k : nat) (w : World) : bool :=
  (connection_test (world_after k w)).1.

(** The name guard refuses the table inferred for a file. *)
Definition refused (csv_path : string) : bool :=
  negb (validate_schema_name
          (infer_table_name (stem csv_path) TABLE_PREFIX_STRIP)).

End Main.

(** *** Notions used to state the properties of the names *)

Fixpoint any_char (p : ascii → bool) (s : string) : bool :=
  match s with
  | EmptyString => false
  | String c t => p c || any_char p t
  end.

Definition is_alnum (c : ascii) : bool := is_alpha c || is_digit c.

(** The characters of a name in snake case. *)
Definition is_snake_char (c : ascii) : bool :=
  is_lower c || is_digit c || is_underscore c.

Definition underscore_led (s : string) : bool :=
  match s with
  | EmptyString => false
  | String c _ => is_underscore c
  end.

Fixpoint underscore_ended (s : string) : bool :=
  match s with
  | EmptyString => false
  | String c EmptyString => is_underscore c
  | String _ t => underscore_ended t
  end.

Fixpoint no_double_underscore (s : string) : bool :=
  match s with
  | EmptyString => true
  | String c t =>
      negb (is_underscore c && underscore_led t) && no_double_underscore t
  end.

(** A name in snake case: lower-case letters, digits and underscores, no
    underscore at either end and no two underscores in a row. *)
Definition snake_shaped (s : string) : bool :=
  all_chars is_snake_char s && negb (underscore_led s)
  && negb (underscore_ended s) && no_double_underscore s.

(** An identifier: a letter or an underscore, then letters, digits and
    underscores. *)
Definition identifier (s : string) : bool :=
  match s with
  | EmptyString => false
  | String c t => (is_alpha c || is_underscore c) && all_chars is_word t
  end.

(** The number of double quotes in a text. *)
Fixpoint count_quotes (s : string) : nat :=
  match s with
  | EmptyString => 0
  | String c t => (if Ascii.eqb c double_quote then 1 else 0) + count_quotes t
  end.

End LoadToDb.

(** ** Notions used to state what the checks of the validator decide *)

Module Verdicts.
Import Table Validation.

(** A printed line reports a failure. *)
Definition is_failure (l : line) : bool :=
  match l.1 with FAIL => true | _ => false end.

Definition has_failure (out : list line) : bool := existsb is_failure out.

(** The cells of the column [col] of a table; none when the column is
    absent. *)
Definition cells_of (df : dataframe) (col : string) : list cell :=
  match lookup_column col df with
  | Some c => col_cells c
  | None => []
  end.

(** A check that started with the flag [ok] returns the flag cleared
    exactly when it printed a failure, and does not end the run by
    itself. *)
Definition tracks (ok : bool) (m : V bool) : Prop :=
  match m.1 with
  | Done ok' => ok' = ok && negb (has_failure m.2)
  | Raised e => e ≠ SystemExit
  end.

(** A step that prints no failure and does not end the run. *)
Definition quiet {A} (m : V A) : Prop :=
  has_failure m.2 = false ∧ m.1 ≠ Raised SystemExit.

(** The rows of [df[cols]]: one tuple of cells per row. *)
Definition key_tuples (df : dataframe) (cols : list string) : list (list cell) :=
  row_tuples (n_rows df) (map (cells_of df) cols).

(** Two rows at different positions carry equal tuples. *)
Definition collide (keys : list (list cell)) : Prop :=
  ∃ i j ki kj,
    i ≠ j ∧ keys !! i = Some ki ∧ keys !! j = Some kj ∧ tuple_eqb ki kj = true.

(** The table under a name in the dictionary of the loaded tables. *)
Definition table_of (tables : list (string * dataframe)) (name : string)
    : dataframe :=
  match List.find (λ p, String.eqb p.1 name) tables with
  | Some p => p.2
  | None => []
  end.

(** Every value of the child column is missing, is the sentinel (when
    there is one), or is a value of the parent column. *)
Definition references_resolve (child : dataframe) (child_col : string)
    (parent : dataframe) (parent_col : string) (sentinel : option string)
    : bool :=
  forallb
    (λ x, isna x || isin x (cells_of parent parent_col)
          || match sentinel with
             | Some s => cell_eqb x (Text s)
             | None => false
             end)
    (cells_of child child_col).

(** The tables and the key columns [validate_referential_integrity]
    reads, in the order it reads them. *)
Definition key_columns : list (string * string) :=
  [("orders", "store_code"); ("stores", "store_code");
   ("orders", "customer_code"); ("customers", "customer_code");
   ("orders", "product_code"); ("products", "product_code");
   ("stores", "region_name"); ("regions", "region_name")].

End Verdicts.

(** ** Notions used to state what cleaning leaves behind *)

Module Cleaned.
Import Frame Orders.

(** An order line passes the four masks of [clean_orders]. *)
Definition passes (r : order_row) : Prop :=
  notna (unit_cost r) = true ∧ ge (quantity r) 0 = true
  ∧ ge (unit_price r) 0 = true ∧ ge (unit_cost r) 0 = true.

End Cleaned.

(** ** ASCII text *)

Module AsciiText.
Import Text.

(** A character of the ASCII range. On a text made of such characters the
    classes and the case maps of [Text] are those of Python's [str]
    methods and of [re]. *)
Definition is_ascii (c : ascii) : bool := (code c <? 128)%nat.

Definition ascii_text (s : string) : bool := all_chars is_ascii s.

(** The texts that the cleaning function of a dimension rewrites are
    ASCII. *)
Definition ascii_product (r : Products.product_row) : bool :=
  ascii_text (Products.product_code r)
  && ascii_text (Products.product_name r)
  && ascii_text (Products.category r).

Definition ascii_store (r : Stores.store_row) : bool :=
  ascii_text (Stores.store_code r) && ascii_text (Stores.store_name r)
  && ascii_text (Stores.city r) && ascii_text (Stores.state r)
  && ascii_text (Stores.region_name r).

Definition ascii_region (r : Regions.region_row) : bool :=
  ascii_text (Regions.region_name r).

End AsciiText.

(** ** Sample tables *)

Module Examples.
Import Orders.

Definition order (code : string) (line : Z) : order_row :=
  {| order_code := code; order_ts := Some 0%Z; delivery_ts := None;
     store_code := "store-1"; customer_code := "cust-1";
     order_type := "online"; order_status := "shipped";
     line_number := Some (inject_Z line); product_code := "prd-1";
     quantity := Some (inject_Z 2); unit_price := Some (inject_Z 3);
     unit_cost := Some (inject_Z 1) |}.

(** Three order lines that all carry the key [("ord-5", 1)]. *)
Definition three_collisions : frame :=
  range_index [order "ord-5" 1; order "ord-5" 1; order "ord-5" 1].

(** An order line with chosen references, quantity and line number. *)
Definition order_ref (code store customer product : string)
    (qty : Frame.num) (line : Z) : order_row :=
  {| order_code := code; order_ts := Some 0%Z; delivery_ts := None;
     store_code := store; customer_code := customer;
     order_type := "online"; order_status := "shipped";
     line_number := Some (inject_Z line); product_code := product;
     quantity := qty; unit_price := Some (inject_Z 3);
     unit_cost := Some (inject_Z 1) |}.

Definition product (code name : string) (price : Frame.num) : Products.product_row :=
  {| Products.product_code := code; Products.product_name := name;
     Products.category := "Tools"; Products.base_price := price;
     Products.active_flag := "Y" |}.

Definition store (code : string) (area : Z) : Stores.store_row :=
  {| Stores.store_code := code; Stores.store_name := "Main";
     Stores.city := "Springfield"; Stores.state := "IL";
     Stores.region_name := "North"; Stores.open_date := Some 0%Z;
     Stores.close_date := None;
     Stores.square_feet := Some (inject_Z area) |}.

Definition customer (code : string) : Customers.customer_row :=
  {| Customers.customer_code := code; Customers.signup_date := Some 0%Z;
     Customers.customer_segment := Some "retail";
     Customers.email := None; Customers.loyalty_id := None |}.

Definition region (code name : string) : Regions.region_row :=
  {| Regions.region_code := code; Regions.region_name := name;
     Regions.active_flag := "Y" |}.

(** Orders for the referential filter: a known store, the sentinel store,
    an unknown store, and a known store with an unknown customer. *)
Definition fk_orders : frame :=
  range_index
    [order_ref "ord-1" "store-1" "cust-1" "prd-1" (Some (inject_Z 2)) 1;
     order_ref "ord-2" "store-0" "cust-1" "prd-0" (Some (inject_Z 2)) 1;
     order_ref "ord-3" "store-999" "cust-1" "prd-1" (Some (inject_Z 2)) 1;
     order_ref "ord-4" "store-1" "cust-77" "prd-1" (Some (inject_Z 2)) 1].

(** Two products that normalise to the key ["prd-1"]; the first has no
    price. *)
Definition priced_twice : list Products.product_row :=
  [product "P-001" "hammer" None; product "P1" "mallet" (Some (inject_Z 5))].

(** Two regions with the same code. *)
Definition region_twice : list Regions.region_row :=
  [region "R1" "north region"; region "R1" "North"].

(** A region whose name hides a second occurrence of the removed word. *)
Definition nested_region : list Regions.region_row :=
  [region "R1" "regregionion"].

(** A parser for the samples: a timestamp is itself, a text of digits is
    read as a number of seconds, anything else is not a date. *)
Definition parse_demo (c : Table.cell) : option Z :=
  match c with
  | Table.Timestamp t => Some t
  | Table.Text s => Z.of_N <$> Text.python_int s
  | _ => None
  end.

(** A raw table with two date-like columns and one that is not. *)
Definition raw_orders_frame : Table.dataframe :=
  [("order_code", {| Table.col_dtype := Table.DObject;
                     Table.col_cells := [Table.Text "A1"; Table.Text "A2"] |});
   ("Order_TS", {| Table.col_dtype := Table.DObject;
                   Table.col_cells := [Table.Text "1700"; Table.Text "soon"] |});
   ("quantity", {| Table.col_dtype := Table.DInt;
                   Table.col_cells := [Table.Number 2; Table.Number 3] |});
   ("due_date", {| Table.col_dtype := Table.DString;
                   Table.col_cells := [Table.Missing; Table.Text "1800"] |})].

(** Loaded tables for the validator: one valid row per dimension. *)
Definition text_col (cells : list string) : Table.column :=
  {| Table.col_dtype := Table.DString; Table.col_cells := map Table.Text cells |}.
Definition int_col (cells : list Z) : Table.column :=
  {| Table.col_dtype := Table.DInt;
     Table.col_cells := map (λ z, Table.Number (inject_Z z)) cells |}.
Definition float_col (cells : list Z) : Table.column :=
  {| Table.col_dtype := Table.DFloat;
     Table.col_cells := map (λ z, Table.Number (inject_Z z)) cells |}.
Definition time_col (cells : list Z) : Table.column :=
  {| Table.col_dtype := Table.DDatetime;
     Table.col_cells := map Table.Timestamp cells |}.

Definition regions_ok : Table.dataframe :=
  [("region_code", text_col ["R1"]); ("region_name", text_col ["North"]);
   ("active_flag", text_col ["Y"])].

Definition products_ok : Table.dataframe :=
  [("product_code", text_col ["prd-1"]); ("product_name", text_col ["Nail"]);
   ("category", text_col ["Tools"]); ("base_price", float_col [2]%Z);
   ("active_flag", text_col ["Y"])].

Definition stores_ok : Table.dataframe :=
  [("store_code", text_col ["store-1"]); ("store_name", text_col ["Main"]);
   ("city", text_col ["Springfield"]); ("state", text_col ["IL"]);
   ("region_name", text_col ["North"]); ("open_date", time_col [0]%Z);
   ("close_date", {| Table.col_dtype := Table.DDatetime;
                     Table.col_cells := [Table.Missing] |});
   ("square_feet", float_col [100]%Z)].

Definition customers_ok : Table.dataframe :=
  [("customer_code", text_col ["cust-1"]); ("signup_date", time_col [0]%Z);
   ("customer_segment", text_col ["retail"]);
   ("email", {| Table.col_dtype := Table.DString;
                Table.col_cells := [Table.Missing] |});
   ("loyalty_id", text_col ["L1"])].

(** Two order lines with the same key [("ord-1", 1)]; the column
    [delivery_ts] is absent. *)
Definition orders_two_faults : Table.dataframe :=
  [("order_code", text_col ["ord-1"; "ord-1"]);
   ("order_ts", time_col [0; 0]%Z);
   ("store_code", text_col ["store-1"; "store-0"]);
   ("customer_code", text_col ["cust-1"; "cust-0"]);
   ("order_type", text_col ["online"; "online"]);
   ("order_status", text_col ["shipped"; "shipped"]);
   ("line_number", int_col [1; 1]%Z);
   ("product_code", text_col ["prd-1"; "prd-0"]);
   ("quantity", int_col [2; 2]%Z);
   ("unit_price", float_col [3; 3]%Z);
   ("unit_cost", float_col [1; 1]%Z)].

(** One valid order line in a table without the column [store_code]. *)
Definition orders_no_store : Table.dataframe :=
  [("order_code", text_col ["ord-1"]);
   ("order_ts", time_col [0]%Z);
   ("delivery_ts", time_col [0]%Z);
   ("customer_code", text_col ["cust-1"]);
   ("order_type", text_col ["online"]);
   ("order_status", text_col ["shipped"]);
   ("line_number", int_col [1]%Z);
   ("product_code", text_col ["prd-1"]);
   ("quantity", int_col [2]%Z);
   ("unit_price", float_col [3]%Z);
   ("unit_cost", float_col [1]%Z)].

(** One order line of an unknown store and an unknown product, in a table
    without the column [customer_code]. *)
Definition orders_no_customer : Table.dataframe :=
  [("order_code", text_col ["ord-1"]);
   ("order_ts", time_col [0]%Z);
   ("delivery_ts", time_col [0]%Z);
   ("store_code", text_col ["store-9"]);
   ("order_type", text_col ["online"]);
   ("order_status", text_col ["shipped"]);
   ("line_number", int_col [1]%Z);
   ("product_code", text_col ["prd-9"]);
   ("quantity", int_col [2]%Z);
   ("unit_price", float_col [3]%Z);
   ("unit_cost", float_col [1]%Z)].

(** The loaded tables, by name, with a chosen orders table. *)
Definition load_with (orders : Table.dataframe) (name : string) : Table.dataframe :=
  if String.eqb name "regions" then regions_ok
  else if String.eqb name "products" then products_ok
  else if String.eqb name "stores" then stores_ok
  else if String.eqb name "customers" then customers_ok
  else orders.

(** The tables with the orders table of two faults. *)
Definition load_two_faults : string → Table.dataframe :=
  load_with orders_two_faults.

End Examples.

(** * Properties *)

(** ** Facts about the text primitives *)

Module TextFacts.
Import Text.

Ltac by_char c := destruct c as [[] [] [] [] [] [] [] []]; vm_compute; try reflexivity; try discriminate; auto.

Lemma lower_char_idem c : lower_char (lower_char c) = lower_char c.
Proof. by_char c. Qed.

Lemma lower_upper_char c : lower_char (upper_char c) = lower_char c.
Proof. by_char c. Qed.

Lemma is_space_lower_char c : is_space (lower_char c) = is_space c.
Proof. by_char c. Qed.

Lemma is_space_upper_char c : is_space (upper_char c) = is_space c.
Proof. by_char c. Qed.

Lemma is_alpha_lower_char c : is_alpha (lower_char c) = is_alpha c.
Proof. by_char c. Qed.

Lemma is_alpha_upper_char c : is_alpha (upper_char c) = is_alpha c.
Proof. by_char c. Qed.

Lemma upper_char_idem c : upper_char (upper_char c) = upper_char c.
Proof. by_char c. Qed.




(** *** Decimal numerals *)

Lemma int_acc_decimal acc s :
  all_digits s = true → int_acc acc s = Some (decimal_acc acc s).
Proof.
  revert acc; induction s as [|c t IH]; intros acc H; simpl in *; [done|].
  apply andb_prop in H as [Hc Ht]. rewrite Hc. by apply IH.
Qed.

Lemma python_int_decimal s :
  all_digits s = true → s ≠ EmptyString →
  python_int s = Some (decimal_value s).
Proof.
  intros H Hne. destruct s; [done|]. by apply int_acc_decimal.
Qed.

Lemma decimal_acc_uint d a :
  decimal_acc (Unsigned.of_lu a) (NilEmpty.string_of_uint d)
  = Unsigned.of_lu (Decimal.revapp d a).
Proof.
  revert a; induction d; intros a; simpl; try done;
    rewrite <- IHd; f_equal; cbn [Unsigned.of_lu];
    match goal with
    | |- context [digit_val ?c] =>
        let v := eval vm_compute in (digit_val c) in
        change (digit_val c) with v
    end; lia.
Qed.

Lemma decimal_value_str_of_int n : decimal_value (str_of_int n) = n.
Proof.
  unfold decimal_value, str_of_int.
  assert (H : ∀ d, decimal_acc 0 (NilEmpty.string_of_uint d) = N.of_uint d).
  { intros d. change 0%N with (Unsigned.of_lu Decimal.Nil).
    rewrite decimal_acc_uint. symmetry. apply Unsigned.of_uint_alt. }
  destruct (N.to_uint n) eqn:E; cbn [NilZero.string_of_uint];
    try (rewrite <- E at 1; rewrite H, E; rewrite <- E; apply DecimalN.Unsigned.of_to).
  apply (f_equal N.of_uint) in E. rewrite DecimalN.Unsigned.of_to in E.
  subst n. reflexivity.
Qed.

Lemma all_digits_string_of_uint d : all_digits (NilEmpty.string_of_uint d) = true.
Proof. induction d; simpl; auto. Qed.

Lemma all_digits_str_of_int n : all_digits (str_of_int n) = true.
Proof.
  unfold str_of_int. destruct (N.to_uint n); try apply all_digits_string_of_uint.
  reflexivity.
Qed.

Lemma str_of_int_nonempty n : str_of_int n ≠ EmptyString.
Proof.
  unfold str_of_int.
  pose proof (DecimalN.Unsigned.to_of (N.to_uint n)) as H.
  rewrite DecimalN.Unsigned.of_to in H.
  destruct (N.to_uint n); simpl; discriminate.
Qed.

Lemma python_int_str_of_int n : python_int (str_of_int n) = Some n.
Proof.
  rewrite python_int_decimal; auto using all_digits_str_of_int, str_of_int_nonempty.
  by rewrite decimal_value_str_of_int.
Qed.

Lemma str_of_int_inj n m : str_of_int n = str_of_int m → n = m.
Proof.
  intros H. apply (f_equal decimal_value) in H.
  by rewrite !decimal_value_str_of_int in H.
Qed.

Lemma str_of_int_no_leading_zero n : zero_led (str_of_int n) = false.
Proof.
  unfold str_of_int.
  pose proof (DecimalN.Unsigned.to_of (N.to_uint n)) as H.
  rewrite DecimalN.Unsigned.of_to in H. rewrite H.
  generalize (N.to_uint n) as d. intros d.
  unfold Decimal.unorm.
  pose proof (nzhead_nonzero d) as Hnz.
  destruct (Decimal.nzhead d) as [|d'|d'|d'|d'|d'|d'|d'|d'|d'|d'] eqn:E;
    try reflexivity; try (by destruct (Hnz d'));
    simpl; by destruct d'.
Qed.


(** *** Concatenation *)

Lemma app_cons c s t : String c s +:+ t = String c (s +:+ t).
Proof. reflexivity. Qed.

Lemma app_nil_l t : EmptyString +:+ t = t.
Proof. reflexivity. Qed.

Lemma append_empty_r s : s +:+ EmptyString = s.
Proof. induction s as [|c s IH]; [done|]. by rewrite app_cons, IH. Qed.

Lemma append_assoc s t u : (s +:+ t) +:+ u = s +:+ t +:+ u.
Proof. induction s as [|c s IH]; [done|]. by rewrite !app_cons, IH. Qed.

(** *** The first run of digits *)

Lemma take_digits_run run post :
  all_digits run = true → not_digit_led post = true →
  take_digits (run +:+ post) = run.
Proof.
  intros Hr Hp. induction run as [|c t IH]; rewrite ?app_cons, ?app_nil_l; simpl in *.
  - destruct post as [|c t]; simpl in *; [done|].
    by destruct (is_digit c).
  - apply andb_prop in Hr as [Hc Ht]. rewrite Hc. f_equal. by apply IH.
Qed.

Lemma extract_digits_run pre run post :
  no_digit pre = true → all_digits run = true → run ≠ EmptyString →
  not_digit_led post = true →
  str_extract_digits (pre +:+ run +:+ post) = Some run.
Proof.
  intros Hpre Hr Hne Hp. induction pre as [|c t IH]; rewrite ?app_cons, ?app_nil_l; simpl in *.
  - destruct run as [|c t]; [done|]. rewrite app_cons. simpl in *.
    apply andb_prop in Hr as [Hc Ht]. rewrite Hc. f_equal. f_equal.
    by apply take_digits_run.
  - apply andb_prop in Hpre as [Hc Ht].
    apply negb_true_iff in Hc. rewrite Hc. by apply IH.
Qed.

(** Every text splits into the characters before its first digit, the
    run of digits that starts there, and what follows the run. *)
Lemma take_digits_split t :
  ∃ post, t = take_digits t +:+ post
    ∧ all_digits (take_digits t) = true ∧ not_digit_led post = true.
Proof.
  induction t as [|c t (post & Ht & Hd & Hp)]; simpl.
  - by exists EmptyString.
  - destruct (is_digit c) eqn:E.
    + exists post. rewrite app_cons, <- Ht. unfold all_digits in *. simpl.
      by rewrite E, Hd.
    + exists (String c t). simpl. by rewrite E.
Qed.

Lemma first_run_split text :
  ∃ pre run post,
    text = pre +:+ run +:+ post
    ∧ no_digit pre = true ∧ all_digits run = true
    ∧ not_digit_led post = true ∧ (run = EmptyString → post = EmptyString).
Proof.
  induction text as [|c t (pre & run & post & Ht & H1 & H2 & H3 & H4)].
  - by exists EmptyString, EmptyString, EmptyString.
  - destruct (is_digit c) eqn:E.
    + destruct (take_digits_split t) as (post' & Hp & Hd & Hl).
      exists EmptyString, (String c (take_digits t)), post'.
      rewrite app_nil_l, app_cons, <- Hp. unfold all_digits in *. simpl.
      by rewrite E, Hd.
    + exists (String c pre), run, post. rewrite app_cons, <- Ht.
      unfold no_digit in *. simpl. by rewrite E, H1.
Qed.

Lemma extract_digits_none s :
  no_digit s = true → str_extract_digits s = None.
Proof.
  induction s as [|c t IH]; simpl; [done|]. intros H.
  apply andb_prop in H as [Hc Ht]. apply negb_true_iff in Hc.
  rewrite Hc. by apply IH.
Qed.

End TextFacts.

(** ** Business keys *)

Module KeysFacts.
Import Text Keys AsciiText TextFacts.

Lemma astype_int_digits s :
  all_digits s = true → s ≠ EmptyString →
  (decimal_value s ≤ int64_max)%N →
  astype_int s = Some (decimal_value s).
Proof.
  intros Hd Hne Hle. unfold astype_int.
  rewrite python_int_decimal by done. simpl.
  apply N.leb_le in Hle. by rewrite Hle.
Qed.

Lemma astype_int_str_of_int n :
  astype_int (str_of_int n) = if (n <=? int64_max)%N then Some n else None.
Proof. unfold astype_int. by rewrite python_int_str_of_int. Qed.

(** The number read back from a canonical key is the number it was built
    from. *)
Lemma order_num_canonical prefix n :
  no_digit prefix = true →
  order_num (prefix +:+ "-" +:+ str_of_int n)
  = if (n <=? int64_max)%N then Some n else None.
Proof.
  intros Hp. unfold order_num.
  replace (prefix +:+ "-" +:+ str_of_int n)
    with ((prefix +:+ "-") +:+ str_of_int n +:+ EmptyString)
    by (by rewrite append_empty_r, append_assoc).
  rewrite extract_digits_run; auto using all_digits_str_of_int, str_of_int_nonempty.
  - apply astype_int_str_of_int.
  - clear -Hp. unfold no_digit in *.
    induction prefix as [|c t IH]; rewrite ?app_cons, ?app_nil_l; simpl in *; [done|].
    apply andb_prop in Hp as [Hc Ht]. rewrite Hc. by apply IH.
Qed.

(** Beyond 64 bits the conversion raises and there is no key. *)
Lemma standardize_id_too_large (prefix pre run post : string) :
  no_digit pre = true → all_digits run = true → run ≠ EmptyString →
  not_digit_led post = true → (int64_max < decimal_value run)%N →
  standardize_id (pre +:+ run +:+ post) prefix = None.
Proof.
  intros Hpre Hrun Hne Hpost Hlt. unfold standardize_id.
  rewrite extract_digits_run by done. simpl. unfold astype_int.
  rewrite python_int_decimal by done. simpl.
  apply N.leb_gt in Hlt. by rewrite Hlt.
Qed.




End KeysFacts.

(** ** Column primitives *)

Module FrameFacts.
Import Frame.

Lemma num_eqb_refl a : num_eqb a a = true.
Proof. destruct a as [q|]; simpl; [apply Qeq_bool_refl|done]. Qed.

Lemma num_eqb_sym a b : num_eqb a b = num_eqb b a.
Proof.
  destruct a as [x|], b as [y|]; simpl; try done.
  apply eq_true_iff_eq. rewrite !Qeq_bool_iff. split; intros H; by symmetry.
Qed.

Lemma num_eqb_trans a b c :
  num_eqb a b = true → num_eqb b c = true → num_eqb a c = true.
Proof.
  destruct a as [x|], b as [y|], c as [z|]; simpl; try done.
  rewrite !Qeq_bool_iff. intros H1 H2. by rewrite H1.
Qed.

Lemma length_duplicated_aux {K} (eqb : K → K → bool) seen keys :
  length (duplicated_aux eqb seen keys) = length keys.
Proof. revert seen; induction keys; intros; simpl; auto. Qed.


Lemma select_sublist {A} (rows : list A) mask : sublist (select rows mask) rows.
Proof.
  revert mask; induction rows as [|r rows IH]; intros mask; simpl.
  - destruct mask; apply sublist_nil_l.
  - destruct mask as [|[] mask]; [apply sublist_nil_l| |].
    + by apply sublist_skip.
    + by apply sublist_cons.
Qed.

Lemma filter_list_sublist {A} (p : A → bool) l : sublist (List.filter p l) l.
Proof.
  induction l as [|x l IH]; simpl; [constructor|].
  destruct (p x); [by apply sublist_skip|by apply sublist_cons].
Qed.

Lemma NoDup_list_filter {A} (p : A → bool) l : NoDup l → NoDup (List.filter p l).
Proof. intros H. eapply sublist_NoDup; [exact H|apply filter_list_sublist]. Qed.

End FrameFacts.

(** ** The order-line table *)

Module OrdersFacts.
Import Text Keys Frame Orders TextFacts KeysFacts FrameFacts.

Lemma key_eqb_refl k : key_eqb k k = true.
Proof.
  unfold key_eqb. rewrite String.eqb_refl, num_eqb_refl. done.
Qed.

Lemma key_eqb_sym a b : key_eqb a b = key_eqb b a.
Proof.
  unfold key_eqb. by rewrite String.eqb_sym, num_eqb_sym.
Qed.

Lemma key_eqb_trans a b c :
  key_eqb a b = true → key_eqb b c = true → key_eqb a c = true.
Proof.
  unfold key_eqb. rewrite !andb_true_iff, !String.eqb_eq.
  intros [-> H1] [-> H2]. eauto using num_eqb_trans.
Qed.

Lemma key_eqb_code a b :
  key_eqb a b = true → a.1 = b.1.
Proof. unfold key_eqb. rewrite andb_true_iff, String.eqb_eq. tauto. Qed.

(** *** The loop over the duplicated labels rewrites rows in place *)

Lemma set_at_absent idx c t : idx ∉ labels t → set_at idx c t = t.
Proof.
  induction t as [|[l r] t IH]; simpl; [done|]. intros H.
  apply not_elem_of_cons in H as [Hne Hnin].
  destruct (Nat.eqb_spec l idx); [congruence|]. f_equal. by apply IH.
Qed.

Lemma set_at_app idx c t1 t2 :
  set_at idx c (t1 ++ t2) = set_at idx c t1 ++ set_at idx c t2.
Proof. unfold set_at. by rewrite map_app. Qed.

Lemma labels_snoc pre (l : nat) (r r' : order_row) suf :
  labels ((pre ++ [(l, r')]) ++ suf) = labels (pre ++ (l, r) :: suf).
Proof. unfold labels. by rewrite <- app_assoc, !map_app. Qed.

Lemma renumber_loop_marked m k mask pre suf :
  NoDup (labels (pre ++ suf)) → length mask = length suf →
  renumber_loop m k (select (labels suf) mask) (pre ++ suf)
  = pre ++ renumber_marked m k mask suf.
Proof.
  revert k mask pre. induction suf as [|[l r] suf IH]; intros k mask pre Hnd Hlen.
  - destruct mask; simpl; done.
  - destruct mask as [|b mask]; [done|]. simpl in Hlen.
    assert (Hsplit : ∀ x, pre ++ x :: suf = (pre ++ [x]) ++ suf)
      by (intros; by rewrite <- app_assoc).
    pose proof Hnd as Hnd'.
    unfold labels in Hnd'. rewrite map_app in Hnd'. simpl in Hnd'.
    apply NoDup_app in Hnd' as (Hpre & Hdisj & Hsuf).
    apply NoDup_cons in Hsuf as [Hl Hsuf].
    destruct b; simpl.
    + rewrite set_at_app. simpl. rewrite Nat.eqb_refl.
      rewrite !set_at_absent; [|done|].
      * rewrite Hsplit, IH; [by rewrite <- app_assoc| |lia].
        by rewrite (labels_snoc _ _ r).
      * intros Hin. apply (Hdisj l Hin). apply elem_of_cons. by left.
    + rewrite Hsplit, IH; [by rewrite <- app_assoc| |lia].
      by rewrite (labels_snoc _ _ r).
Qed.

Lemma labels_renumber_marked m k mask t :
  labels (renumber_marked m k mask t) = labels t.
Proof.
  revert k mask; induction t as [|lr t IH]; intros k [|[] mask]; simpl;
    try done; f_equal; apply IH.
Qed.

(** *** The marked rows are those the scan of the specification renumbers *)

Lemma existsb_seen_dup k x seen :
  existsb (key_eqb k) seen = true →
  existsb (key_eqb x) (k :: seen) = existsb (key_eqb x) seen.
Proof.
  intros Hk. simpl. destruct (key_eqb x k) eqn:E; [|done]. simpl.
  symmetry. apply existsb_exists in Hk as (k' & Hin & Hkk').
  apply existsb_exists. exists k'. eauto using key_eqb_trans.
Qed.

Lemma same_seen_cons k s1 s2 :
  same_seen s1 s2 → same_seen (k :: s1) (k :: s2).
Proof. intros H x. simpl. by rewrite H. Qed.

Lemma renumber_scan_same_seen m k s1 s2 rs :
  same_seen s1 s2 → renumber_scan m k s1 rs = renumber_scan m k s2 rs.
Proof.
  revert k s1 s2; induction rs as [|r rs IH]; intros k s1 s2 H; simpl; [done|].
  rewrite (H (key_of r)). destruct (existsb _ s2).
  - f_equal. by apply IH.
  - f_equal. apply IH. by apply same_seen_cons.
Qed.

Lemma rows_renumber_marked m k seen t :
  rows (renumber_marked m k
          (duplicated_aux key_eqb seen (map (λ lr, key_of lr.2) t)) t)
  = renumber_scan m k seen (rows t).
Proof.
  revert k seen; induction t as [|[l r] t IH]; intros k seen; simpl; [done|].
  destruct (existsb (key_eqb (key_of r)) seen) eqn:E; simpl; f_equal.
  - rewrite IH. apply renumber_scan_same_seen.
    intros x. by apply existsb_seen_dup.
  - apply IH.
Qed.

(** *** New codes collide with nothing *)

Lemma new_code_inj a b : new_code a = new_code b → a = b.
Proof.
  unfold new_code. intros H. apply (inj (String.app "ord-")) in H.
  by apply str_of_int_inj.
Qed.

Lemma order_num_new_code n :
  order_num (new_code n) = if (n <=? int64_max)%N then Some n else None.
Proof. by apply (order_num_canonical "ord"). Qed.

Lemma new_code_fresh m j n c :
  order_num c = Some n → (n ≤ m)%N → (1 ≤ j)%N → c ≠ new_code (m + j).
Proof.
  intros Hc Hle Hj ->. rewrite order_num_new_code in Hc.
  destruct (_ <=? _)%N; [|done]. injection Hc as Hc. lia.
Qed.

Lemma key_of_set_order_code c r :
  key_of (set_order_code c r) = (c, line_number r).
Proof. done. Qed.

Lemma scan_rows m k seen rs o :
  o ∈ renumber_scan m k seen rs →
  (∃ j, (k ≤ j)%N ∧ order_code o = new_code (m + j))
  ∨ (o ∈ rs ∧ existsb (key_eqb (key_of o)) seen = false).
Proof.
  revert k seen; induction rs as [|r rs IH]; intros k seen; simpl.
  - by intros ?%elem_of_nil.
  - destruct (existsb (key_eqb (key_of r)) seen) eqn:E;
      intros [->|Hin]%elem_of_cons.
    + left. exists k. split; [lia|done].
    + destruct (IH _ _ Hin) as [(j & Hj & Hc)|[Ho Hs]].
      * left. exists j. split; [lia|done].
      * right. split; [by apply elem_of_cons; right|done].
    + right. split; [by apply elem_of_cons; left|done].
    + destruct (IH _ _ Hin) as [(j & Hj & Hc)|[Ho Hs]].
      * left. by exists j.
      * right. split; [by apply elem_of_cons; right|].
        simpl in Hs. by apply orb_false_elim in Hs as [_ Hs].
Qed.

Lemma scan_distinct m k seen rs :
  (∀ r, r ∈ rs → ∃ n, order_num (order_code r) = Some n ∧ (n ≤ m)%N) →
  (1 ≤ k)%N →
  distinct_keys (renumber_scan m k seen rs) = true.
Proof.
  revert k seen; induction rs as [|r rs IH]; intros k seen Hnum Hk; simpl; [done|].
  assert (Hrs : ∀ r', r' ∈ rs →
            ∃ n, order_num (order_code r') = Some n ∧ (n ≤ m)%N).
  { intros r' Hr'. apply Hnum, elem_of_cons. by right. }
  destruct (Hnum r) as (n & Hn & Hle); [apply elem_of_cons; by left|].
  destruct (existsb (key_eqb (key_of r)) seen) eqn:E; simpl;
    apply andb_true_iff; (split; [|apply IH; [done|lia]]);
    apply negb_true_iff, not_true_is_false; intros Hex;
    apply existsb_exists in Hex as (o & Hin & Heq);
    apply list_elem_of_In in Hin;
    pose proof (key_eqb_code _ _ Heq) as Hcode; simpl in Hcode;
    apply scan_rows in Hin as [(j & Hj & Hc)|[Ho Hs]].
  - rewrite Hc in Hcode. apply new_code_inj in Hcode. lia.
  - destruct (Hrs o Ho) as (n' & Hn' & Hle').
    symmetry in Hcode. revert Hcode.
    apply (new_code_fresh m k n'); [done|done|lia].
  - rewrite Hc in Hcode. revert Hcode.
    apply (new_code_fresh m j n); [done|done|lia].
  - simpl in Hs. apply orb_false_elim in Hs as [Hs _].
    rewrite key_eqb_sym in Hs. congruence.
Qed.

Lemma max_of_fold ns n :
  (n ≤ fold_left N.max ns n)%N
  ∧ (∀ x, x ∈ ns → (x ≤ fold_left N.max ns n)%N)
  ∧ (fold_left N.max ns n = n ∨ fold_left N.max ns n ∈ ns).
Proof.
  revert n; induction ns as [|a ns IH]; intros n; simpl.
  - split_and!; [lia| |by left]. by intros x ?%elem_of_nil.
  - destruct (IH (N.max n a)) as (H1 & H2 & H3). split_and!.
    + lia.
    + intros x [->|Hx]%elem_of_cons; [lia|by apply H2].
    + destruct H3 as [H3|H3]; [|right; apply elem_of_cons; by right].
      rewrite H3. destruct (N.max_spec n a) as [[_ E]|[_ E]]; rewrite E.
      * right. apply elem_of_cons. by left.
      * by left.
Qed.

Lemma max_of_upper nums x : x ∈ nums → (x ≤ max_of nums)%N.
Proof.
  destruct nums as [|n ns]; [by intros ?%elem_of_nil|]. simpl.
  destruct (max_of_fold ns n) as (H1 & H2 & _).
  intros [->|Hx]%elem_of_cons; auto.
Qed.

Lemma max_of_attained nums : nums ≠ [] → max_of nums ∈ nums.
Proof.
  destruct nums as [|n ns]; [done|]. intros _. simpl.
  destruct (max_of_fold ns n) as (_ & _ & [->|H]); apply elem_of_cons; auto.
Qed.

(** *** Normalised and filtered tables *)

Lemma normalize_order_code r r' :
  normalize_order r = Some r' →
  ∃ n, order_code r' = new_code n ∧ order_num (order_code r') = Some n.
Proof.
  unfold normalize_order, standardize_id. intros H.
  destruct (astype_int (fillna "0" (str_extract_digits (order_code r))))
    as [n|] eqn:En; [|done]. simpl in H.
  destruct (astype_int (fillna "0" (str_extract_digits (customer_code r))));
    [|done]. simpl in H.
  destruct (astype_int (fillna "0" (str_extract_digits (store_code r))));
    [|done]. simpl in H.
  destruct (astype_int (fillna "0" (str_extract_digits (product_code r))));
    [|done]. simpl in H.
  injection H as <-. simpl. exists n. split; [done|].
  change ("ord" +:+ "-" +:+ str_of_int n) with (new_code n).
  rewrite order_num_new_code.
  unfold astype_int in En. destruct (python_int _) as [n'|]; [|done].
  simpl in En. destruct (n' <=? int64_max)%N eqn:E; [|done].
  injection En as ->. by rewrite E.
Qed.

Lemma normalize_orders_ok t t' :
  normalize t = Some t' →
  labels t' = labels t
  ∧ ∀ lr, lr ∈ t' → ∃ n, order_num (order_code lr.2) = Some n.
Proof.
  unfold normalize. intros H. apply mapM_Some in H.
  induction H as [|[l r] [l' r'] t t' Hrow H IH]; simpl.
  - split; [done|]. by intros lr ?%elem_of_nil.
  - destruct IH as [IH1 IH2]. simpl in Hrow.
    destruct (normalize_order r) as [r''|] eqn:E; [|done].
    simpl in Hrow. injection Hrow as <- <-. split; [by f_equal|].
    intros lr [->|Hin]%elem_of_cons; [|by apply IH2].
    destruct (normalize_order_code _ _ E) as (n & _ & Hn). by exists n.
Qed.

Lemma filter_orders_sublist t : sublist (filter_orders t) t.
Proof.
  unfold filter_orders.
  repeat (etrans; [apply filter_list_sublist|]). done.
Qed.

Lemma scan_only_codes m k seen rs :
  Forall2 (λ r o, o = set_order_code (order_code o) r)
    rs (renumber_scan m k seen rs).
Proof.
  revert k seen; induction rs as [|r rs IH]; intros k seen; simpl;
    [constructor|].
  destruct (existsb _ seen); constructor; auto. by destruct r.
Qed.

Lemma range_index_labels rs : NoDup (labels (range_index rs)).
Proof.
  unfold labels, range_index.
  change (map fst ?l) with (fst <$> l).
  rewrite fst_zip by (by rewrite length_seq). apply NoDup_seq.
Qed.

Lemma sublist_map {A B} (f : A → B) l1 l2 :
  sublist l1 l2 → sublist (map f l1) (map f l2).
Proof. induction 1; simpl; by constructor. Qed.

Lemma elem_of_rows r (t : frame) : r ∈ rows t ↔ ∃ l, (l, r) ∈ t.
Proof.
  unfold rows. change (map snd t) with (snd <$> t).
  rewrite list_elem_of_fmap. split.
  - intros ([l r'] & -> & Hin). by exists l.
  - intros (l & Hin). by exists (l, r).
Qed.

(** C1: once the codes are canonical and the rows filtered, the renumbering
    step of [clean_orders] returns a table with the same rows and labels in
    which no two rows share [(order_code, line_number)]; it is the scan of
    the specification run with [m], the largest number carried by an
    [order_code] of the table (0 for the empty table), so that the first
    occurrence of a key is kept and the [k]-th collision gets the code
    ["ord-" + (m + k)] with its [line_number] unchanged. *)
Theorem clean_orders_renumbering (df t1 : frame) :
  NoDup (labels df) → normalize df = Some t1 →
  ∃ out m,
    clean_orders df = Some out
    ∧ (∀ r, r ∈ rows (filter_orders t1) →
         ∃ n, order_num (order_code r) = Some n ∧ (n ≤ m)%N)
    ∧ (filter_orders t1 = [] ∧ m = 0%N
       ∨ ∃ r, r ∈ rows (filter_orders t1) ∧ order_num (order_code r) = Some m)
    ∧ length out = length (filter_orders t1)
    ∧ labels out = labels (filter_orders t1)
    ∧ distinct_keys (rows out) = true
    ∧ rows out = renumber_scan m 1 [] (rows (filter_orders t1))
    ∧ Forall2 (λ r o, o = set_order_code (order_code o) r)
        (rows (filter_orders t1)) (rows out).
Proof.
  intros Hnd Hnorm.
  destruct (normalize_orders_ok _ _ Hnorm) as [Hlab Hnum].
  set (t := filter_orders t1).
  assert (Hsub : sublist t t1) by apply filter_orders_sublist.
  assert (Hndt : NoDup (labels t)).
  { apply (sublist_NoDup (labels t) (labels t1)).
    - by rewrite Hlab.
    - by apply sublist_map. }
  assert (Hsome : is_Some (mapM (λ lr : nat * order_row,
                                   order_num (order_code lr.2)) t)).
  { apply mapM_is_Some, Forall_forall. intros lr Hin. simpl.
    destruct (Hnum lr) as (n & ->); [|done].
    eapply elem_of_submseteq; [exact Hin|by apply sublist_submseteq]. }
  destruct Hsome as [nums Hnums].
  pose proof (mapM_Some_1 _ _ _ Hnums) as Hf2.
  assert (Hrows : rows (renumber_marked (max_of nums) 1
                   (duplicated key_eqb (map (λ lr, key_of lr.2) t)) t)
                  = renumber_scan (max_of nums) 1 [] (rows t))
    by apply rows_renumber_marked.
  assert (Hbound : ∀ r, r ∈ rows t →
            ∃ n, order_num (order_code r) = Some n ∧ (n ≤ max_of nums)%N).
  { intros r (l & Hin)%elem_of_rows.
    apply list_elem_of_lookup in Hin as (i & Hi).
    destruct (Forall2_lookup_l _ _ _ _ _ Hf2 Hi) as (n & Hn & Hrn).
    exists n. split; [done|]. apply max_of_upper.
    apply list_elem_of_lookup. by exists i. }
  exists (renumber_marked (max_of nums) 1
            (duplicated key_eqb (map (λ lr, key_of lr.2) t)) t), (max_of nums).
  split_and!.
  - unfold clean_orders. rewrite Hnorm. simpl. fold t. unfold renumber.
    rewrite Hnums. simpl. f_equal.
    apply (renumber_loop_marked _ _ _ [] t); [done|].
    unfold duplicated. by rewrite length_duplicated_aux, length_map.
  - done.
  - destruct nums as [|n0 nums'] eqn:En.
    + left. split; [|done]. apply Forall2_length in Hf2.
      destruct t; [done|discriminate].
    + right. rewrite <- En in *.
      assert (Hin : max_of nums ∈ nums) by (apply max_of_attained; by rewrite En).
      apply list_elem_of_lookup in Hin as (i & Hi).
      destruct (Forall2_lookup_r _ _ _ _ _ Hf2 Hi) as ([l r] & Hr & Hrn).
      exists r. split; [|done]. apply elem_of_rows. exists l.
      apply list_elem_of_lookup. by exists i.
  - rewrite <- (length_map fst), <- (length_map fst t).
    fold (labels t). by rewrite <- (labels_renumber_marked (max_of nums) 1
      (duplicated key_eqb (map (λ lr, key_of lr.2) t)) t).
  - apply labels_renumber_marked.
  - rewrite Hrows. by apply scan_distinct.
  - done.
  - rewrite Hrows. apply scan_only_codes.
Qed.

Lemma clean_orders_renumbering_witness :
  ∃ out, clean_orders Examples.three_collisions = Some out
    ∧ map key_of (rows out)
      = [("ord-5", Some 1%Q); ("ord-6", Some 1%Q); ("ord-7", Some 1%Q)].
Proof.
  destruct (clean_orders_renumbering Examples.three_collisions
              Examples.three_collisions)
    as (out & m & Hout & _).
  { apply (bool_decide_unpack (NoDup (labels Examples.three_collisions))).
    vm_compute. exact I. }
  { reflexivity. }
  exists out. split; [exact Hout|].
  vm_compute in Hout. injection Hout as <-. reflexivity.
Defined.

End OrdersFacts.

(** ** Row filters *)

Module FilterFacts.
Import Frame FrameFacts.

Lemma ge_spec (o : num) (bound : Q) :
  ge o bound = true ↔ ∃ q, o = Some q ∧ (bound <= q)%Q.
Proof.
  destruct o as [q|]; simpl.
  - rewrite Qle_bool_iff. split; [by exists q|by intros (? & [= <-] & ?)].
  - split; [done|by intros (? & ? & _)].
Qed.

Lemma elem_of_list_filter {A} (p : A → bool) l x :
  x ∈ List.filter p l ↔ x ∈ l ∧ p x = true.
Proof. rewrite !list_elem_of_In. apply filter_In. Qed.

(** C8 (as stated): an order line whose quantity is missing, with a cost
    and a price in range, passes the [unit_cost] presence mask and is
    dropped by the quantity floor. *)
Lemma missing_quantity_dropped :
  let t := Orders.range_index
             [Examples.order_ref "ord-1" "store-1" "cust-1" "prd-1" None 1] in
  List.filter (λ lr, notna (Orders.unit_cost lr.2)) t = t
  ∧ List.filter (λ lr, ge (Orders.quantity lr.2) 0) t = []
  ∧ Orders.clean_orders t = Some [].
Proof. split_and!; reflexivity. Qed.

(** C7 (the code at the failing input): the masks of [clean_orders] do not
    read [line_number]: rewriting the line numbers of a table by any
    function changes nothing to the rows the filter keeps; and an order
    line numbered -1 comes out of [clean_orders] with its line number. *)
Lemma line_number_not_filtered :
  (∀ (f : num → num) t,
     let renumbered :=
       map (λ lr : nat * Orders.order_row,
              (lr.1, Orders.set_line_number (f (Orders.line_number lr.2)) lr.2)) in
     Orders.filter_orders (renumbered t) = renumbered (Orders.filter_orders t))
  ∧ Orders.clean_orders (Orders.range_index [Examples.order "ord-1" (-1)])
    = Some (Orders.range_index [Examples.order "ord-1" (-1)]).
Proof.
  split; [|reflexivity]. intros f t renumbered.
  assert (Hmap : ∀ (p : Orders.order_row → bool) l,
            (∀ r v, p (Orders.set_line_number v r) = p r) →
            List.filter (λ lr : nat * Orders.order_row, p lr.2) (renumbered l)
            = renumbered (List.filter (λ lr, p lr.2) l)).
  { intros p l Hp. induction l as [|[n r] l IH]; [done|]. simpl.
    rewrite Hp. destruct (p r); simpl; by rewrite IH. }
  unfold Orders.filter_orders.
  rewrite (Hmap (λ r, notna (Orders.unit_cost r))) by done.
  rewrite (Hmap (λ r, ge (Orders.quantity r) 0)) by done.
  rewrite (Hmap (λ r, ge (Orders.unit_price r) 0)) by done.
  by rewrite (Hmap (λ r, ge (Orders.unit_cost r) 0)).
Qed.

End FilterFacts.

(** ** Dimension tables: duplicate keys *)

Module DimsFacts.
Import Frame FrameFacts.

Section DropDuplicates.
Context {A : Type} (key : A → string).

Local Abbreviation dd seen l :=
  (select l (map negb (duplicated_aux String.eqb seen (map key l)))).
Local Abbreviation has k := (λ r, String.eqb (key r) k).

Lemma existsb_eqb_elem k (seen : list string) :
  existsb (String.eqb k) seen = true ↔ k ∈ seen.
Proof.
  rewrite existsb_exists. split.
  - intros (x & Hin & ->%String.eqb_eq). by apply list_elem_of_In.
  - intros Hin. exists k. split; [by apply list_elem_of_In|apply String.eqb_refl].
Qed.

Lemma dd_cons seen r l :
  dd seen (r :: l)
  = if decide (key r ∈ seen) then dd (key r :: seen) l
    else r :: dd (key r :: seen) l.
Proof.
  simpl. destruct (existsb (String.eqb (key r)) seen) eqn:E; simpl.
  - apply existsb_eqb_elem in E. by rewrite decide_True.
  - rewrite decide_False; [done|]. intros H%existsb_eqb_elem. congruence.
Qed.

Lemma dd_elem seen l r : r ∈ dd seen l → r ∈ l ∧ key r ∉ seen.
Proof.
  revert seen; induction l as [|x l IH]; intros seen.
  - by intros ?%elem_of_nil.
  - rewrite dd_cons. destruct (decide (key x ∈ seen)) as [Hx|Hx].
    + intros [H1 H2]%IH. split; [apply elem_of_cons; by right|].
      intros H. apply H2, elem_of_cons. by right.
    + intros [->|[H1 H2]%IH]%elem_of_cons; [split; [apply elem_of_cons; by left|done]|].
      split; [apply elem_of_cons; by right|].
      intros H. apply H2, elem_of_cons. by right.
Qed.

Lemma dd_NoDup seen l : NoDup (map key (dd seen l)).
Proof.
  revert seen; induction l as [|x l IH]; intros seen; [constructor|].
  rewrite dd_cons. destruct (decide (key x ∈ seen)); [apply IH|].
  simpl. constructor; [|apply IH].
  change (map key ?l) with (key <$> l).
  intros (r & Hk & [_ Hr]%dd_elem)%list_elem_of_fmap.
  apply Hr. rewrite Hk. apply elem_of_cons. by left.
Qed.

Lemma dd_find seen l k :
  find (has k) (dd seen l)
  = if decide (k ∈ seen) then None else find (has k) l.
Proof.
  revert seen; induction l as [|x l IH]; intros seen.
  - simpl. by destruct (decide _).
  - rewrite dd_cons. destruct (decide (key x ∈ seen)) as [Hx|Hx].
    + rewrite IH. simpl. destruct (decide (k ∈ seen)) as [Hk|Hk].
      * rewrite decide_True; [done|]. apply elem_of_cons. by right.
      * destruct (String.eqb_spec (key x) k) as [<-|Hne]; [done|].
        rewrite decide_False; [done|].
        intros [->|?]%elem_of_cons; done.
    + simpl. destruct (String.eqb_spec (key x) k) as [<-|Hne].
      * by rewrite decide_False.
      * rewrite IH. destruct (decide (k ∈ seen)) as [Hk|Hk].
        -- rewrite decide_True; [done|]. apply elem_of_cons. by right.
        -- rewrite decide_False; [done|].
           intros [->|?]%elem_of_cons; done.
Qed.

(** What [drop_duplicates(subset=[key], keep="first")] guarantees. *)
Lemma drop_duplicates_spec l :
  NoDup (map key (drop_duplicates String.eqb key l))
  ∧ sublist (drop_duplicates String.eqb key l) l
  ∧ ∀ k, find (has k) (drop_duplicates String.eqb key l) = find (has k) l.
Proof.
  unfold drop_duplicates, duplicated. split_and!.
  - apply dd_NoDup.
  - apply select_sublist.
  - intros k. rewrite dd_find. rewrite decide_False; [done|].
    by intros ?%elem_of_nil.
Qed.

End DropDuplicates.

(** C2 (amended): the cleaned Product, Store and Customer tables hold each
    primary key once; the row kept for a key is the first row carrying it,
    in table order, among the normalised rows that pass the row filters
    (Customer has no row filter), and the rows kept stay in table order. *)
Theorem dimension_keys_unique :
  (∀ df out, Products.clean_products df = Some out →
     ∃ t, mapM Products.normalize_product df = Some t
       ∧ NoDup (map Products.product_code out)
       ∧ sublist out (Products.filter_products t)
       ∧ ∀ k, find (λ r, String.eqb (Products.product_code r) k) out
              = find (λ r, String.eqb (Products.product_code r) k)
                  (Products.filter_products t))
  ∧ (∀ df out, Stores.clean_stores df = Some out →
       ∃ t, mapM Stores.normalize_store df = Some t
         ∧ NoDup (map Stores.store_code out)
         ∧ sublist out (Stores.filter_stores t)
         ∧ ∀ k, find (λ r, String.eqb (Stores.store_code r) k) out
                = find (λ r, String.eqb (Stores.store_code r) k)
                    (Stores.filter_stores t))
  ∧ (∀ df out, Customers.clean_customers df = Some out →
       ∃ t, mapM Customers.normalize_customer df = Some t
         ∧ NoDup (map Customers.customer_code out)
         ∧ sublist out t
         ∧ ∀ k, find (λ r, String.eqb (Customers.customer_code r) k) out
                = find (λ r, String.eqb (Customers.customer_code r) k) t).
Proof.
  split_and!; intros df out H.
  - unfold Products.clean_products in H.
    destruct (mapM Products.normalize_product df) as [t|]; [|done].
    injection H as <-. exists t. split; [done|].
    apply (drop_duplicates_spec Products.product_code).
  - unfold Stores.clean_stores in H.
    destruct (mapM Stores.normalize_store df) as [t|]; [|done].
    injection H as <-. exists t. split; [done|].
    apply (drop_duplicates_spec Stores.store_code).
  - unfold Customers.clean_customers in H.
    destruct (mapM Customers.normalize_customer df) as [t|]; [|done].
    simpl in H. destruct (Customers.str_accessor _); [|done].
    injection H as <-. exists t. split; [done|].
    apply (drop_duplicates_spec Customers.customer_code).
Qed.

Lemma dimension_keys_unique_witness :
  ∃ out, Products.clean_products Examples.priced_twice = Some out
    ∧ NoDup (map Products.product_code out)
    ∧ map Products.product_name out = ["Mallet"].
Proof.
  destruct (proj1 dimension_keys_unique Examples.priced_twice
              [Examples.product "prd-1" "Mallet" (Some (inject_Z 5))])
    as (t & _ & Hnd & _); [reflexivity|].
  eexists. split; [reflexivity|]. split; [exact Hnd|reflexivity].
Defined.

(** C2 (as stated): [clean_regions] keeps two rows with one region code,
    and [clean_products] drops the first occurrence of a key when that row
    has no price, keeping the second. *)
Lemma dimension_keys_counterexample :
  map Regions.region_code (Regions.clean_regions Examples.region_twice)
  = ["R1"; "R1"]
  ∧ (Products.normalize_product <$> Examples.priced_twice
     = [Some (Examples.product "prd-1" "Hammer" None);
        Some (Examples.product "prd-1" "Mallet" (Some (inject_Z 5)))])
  ∧ Products.clean_products Examples.priced_twice
    = Some [Examples.product "prd-1" "Mallet" (Some (inject_Z 5))].
Proof. split_and!; reflexivity. Qed.

End DimsFacts.

(** ** The referential filter of [run_cleaning] *)

Module CleaningFacts.
Import Frame FrameFacts FilterFacts Cleaning.

Lemma enforce_fk_elem stores products orders lr :
  lr ∈ enforce_fk stores products orders ↔
  lr ∈ orders
  ∧ (Orders.store_code lr.2 = "store-0"
     ∨ Orders.store_code lr.2 ∈ map Stores.store_code stores)
  ∧ (Orders.product_code lr.2 = "prd-0"
     ∨ Orders.product_code lr.2 ∈ map Products.product_code products).
Proof.
  unfold enforce_fk. rewrite elem_of_list_filter, andb_true_iff, !orb_true_iff.
  rewrite !bool_decide_eq_true, !elem_of_list_to_set, !String.eqb_eq.
  tauto.
Qed.

(** C3: the orders [run_cleaning] writes are the cleaned orders, in table
    order, whose [store_code] is ["store-0"] or a cleaned store's code and
    whose [product_code] is ["prd-0"] or a cleaned product's code; the
    customers play no part in the selection, and the stores and products
    written are the cleaned ones, untouched by the filter. *)
Theorem run_cleaning_referential regions orders products stores customers out :
  run_cleaning regions orders products stores customers = Some out →
  ∃ oc, Orders.clean_orders orders = Some oc
    ∧ Stores.clean_stores stores = Some (stores_clean out)
    ∧ Products.clean_products products = Some (products_clean out)
    ∧ sublist (orders_clean out) oc
    ∧ (∀ lr, lr ∈ orders_clean out ↔
         lr ∈ oc
         ∧ (Orders.store_code lr.2 = "store-0"
            ∨ Orders.store_code lr.2
              ∈ map Stores.store_code (stores_clean out))
         ∧ (Orders.product_code lr.2 = "prd-0"
            ∨ Orders.product_code lr.2
              ∈ map Products.product_code (products_clean out)))
    ∧ (∀ customers' out',
         run_cleaning regions orders products stores customers' = Some out' →
         orders_clean out' = orders_clean out).
Proof.
  unfold run_cleaning. intros H.
  destruct (Products.clean_products products) as [pc|]; [|done].
  destruct (Stores.clean_stores stores) as [sc|]; [|done].
  destruct (Customers.clean_customers customers) as [cc|]; [|done].
  destruct (Orders.clean_orders orders) as [oc|]; [|done].
  simpl in H. injection H as <-. simpl. exists oc. split_and!; try done.
  - apply FrameFacts.filter_list_sublist.
  - intros lr. apply enforce_fk_elem.
  - intros customers' out' H'.
    destruct (Customers.clean_customers customers') as [cc'|]; [|done].
    simpl in H'. by injection H' as <-.
Qed.

Lemma run_cleaning_referential_witness :
  ∃ out oc,
    run_cleaning [] Examples.fk_orders
      [Examples.product "prd-1" "nail" (Some 1%Q)]
      [Examples.store "store-1" 100] [Examples.customer "cust-1"] = Some out
    ∧ Orders.clean_orders Examples.fk_orders = Some oc
    ∧ Stores.clean_stores [Examples.store "store-1" 100]
      = Some (stores_clean out)
    ∧ sublist (orders_clean out) oc
    ∧ map (λ lr, Orders.order_code lr.2) oc = ["ord-1"; "ord-2"; "ord-3"; "ord-4"]
    ∧ map (λ lr, Orders.order_code lr.2) (orders_clean out)
      = ["ord-1"; "ord-2"; "ord-4"].
Proof.
  destruct (run_cleaning [] Examples.fk_orders
              [Examples.product "prd-1" "nail" (Some 1%Q)]
              [Examples.store "store-1" 100] [Examples.customer "cust-1"])
    as [out|] eqn:Hrun; [|vm_compute in Hrun; discriminate].
  destruct (run_cleaning_referential _ _ _ _ _ _ Hrun)
    as (oc & Hoc & Hst & _ & Hsub & _ & _).
  exists out, oc. split_and!; try done.
  - vm_compute in Hoc. by injection Hoc as <-.
  - vm_compute in Hrun. by injection Hrun as <-.
Defined.

End CleaningFacts.

(** ** Case and whitespace transforms *)

Module CaseFacts.
Import Text TextFacts.

Lemma lower_char_fix c : is_upper c = false → lower_char c = c.
Proof. unfold lower_char. by intros ->. Qed.

Lemma lower_char_not_upper c : is_upper (lower_char c) = false.
Proof. by_char c. Qed.

Lemma lowered_lower s : lowered (lower s) = true.
Proof.
  induction s as [|c t IH]; simpl; [done|].
  unfold lowered in *. simpl. by rewrite lower_char_not_upper, IH.
Qed.

Lemma lower_fix s : lowered s = true → lower s = s.
Proof.
  unfold lowered. induction s as [|c t IH]; simpl; [done|].
  intros [Hc Ht]%andb_prop. apply negb_true_iff in Hc.
  by rewrite lower_char_fix, IH.
Qed.

Lemma lower_idem s : lower (lower s) = lower s.
Proof. apply lower_fix, lowered_lower. Qed.

Lemma lower_title_aux b s : lower (title_aux b s) = lower s.
Proof.
  revert b; induction s as [|c t IH]; intros b; simpl; [done|].
  destruct (is_alpha c); simpl; rewrite IH; [|done].
  destruct b; by rewrite ?lower_char_idem, ?lower_upper_char.
Qed.

Lemma title_aux_idem b s : title_aux b (title_aux b s) = title_aux b s.
Proof.
  revert b; induction s as [|c t IH]; intros b; simpl; [done|].
  destruct (is_alpha c) eqn:E; simpl.
  - destruct b; rewrite ?is_alpha_lower_char, ?is_alpha_upper_char, E, IH;
      by rewrite ?lower_char_idem, ?upper_char_idem.
  - by rewrite E, IH.
Qed.

Lemma upper_idem s : upper (upper s) = upper s.
Proof. induction s as [|c t IH]; simpl; [done|]. by rewrite upper_char_idem, IH. Qed.

(** *** Stripped texts *)

Lemma lstrip_fix s : space_led s = false → lstrip s = s.
Proof. destruct s as [|c t]; simpl; [done|]. by intros ->. Qed.

Lemma rstrip_fix s : space_ended s = false → rstrip s = s.
Proof.
  induction s as [|c t IH]; [done|]. cbn [space_ended rstrip].
  destruct t as [|c' t']; [by intros ->|].
  intros H. by rewrite (IH H).
Qed.

Lemma space_led_lstrip s : space_led (lstrip s) = false.
Proof.
  induction s as [|c t IH]; simpl; [done|].
  destruct (is_space c) eqn:E; [done|]. simpl. done.
Qed.

Lemma space_ended_rstrip s : space_ended (rstrip s) = false.
Proof.
  induction s as [|c t IH]; [done|]. cbn [rstrip].
  destruct (rstrip t) as [|c' t'] eqn:E.
  - destruct (is_space c) eqn:Ec; [done|]. simpl. done.
  - done.
Qed.

Lemma space_led_rstrip s : space_led s = false → space_led (rstrip s) = false.
Proof.
  destruct s as [|c t]; [done|]. cbn [rstrip space_led]. intros Hc.
  destruct (rstrip t); [by rewrite Hc|done].
Qed.

Lemma strip_fix s : space_led s = false → space_ended s = false → strip s = s.
Proof. intros H1 H2. unfold strip. by rewrite lstrip_fix, rstrip_fix. Qed.

Lemma strip_stripped s :
  space_led (strip s) = false ∧ space_ended (strip s) = false.
Proof.
  unfold strip. split; [apply space_led_rstrip, space_led_lstrip|].
  apply space_ended_rstrip.
Qed.

Lemma strip_idem s : strip (strip s) = strip s.
Proof. destruct (strip_stripped s). by apply strip_fix. Qed.

Lemma all_chars_lstrip p s : all_chars p s = true → all_chars p (lstrip s) = true.
Proof.
  induction s as [|c t IH]; simpl; [done|]. intros [Hc Ht]%andb_prop.
  destruct (is_space c); [by apply IH|]. simpl. by rewrite Hc, Ht.
Qed.

Lemma all_chars_rstrip p s : all_chars p s = true → all_chars p (rstrip s) = true.
Proof.
  induction s as [|c t IH]; [done|]. cbn [rstrip all_chars].
  intros [Hc Ht]%andb_prop. specialize (IH Ht).
  destruct (rstrip t) as [|c' t'].
  - destruct (is_space c); [done|]. simpl. by rewrite Hc.
  - cbn [all_chars] in *. by rewrite Hc, IH.
Qed.

Lemma all_chars_strip p s : all_chars p s = true → all_chars p (strip s) = true.
Proof. intros H. by apply all_chars_rstrip, all_chars_lstrip. Qed.

Lemma space_led_title_aux b s : space_led (title_aux b s) = space_led s.
Proof.
  destruct s as [|c t]; simpl; [done|].
  destruct (is_alpha c); simpl; [|done].
  destruct b; by rewrite ?is_space_lower_char, ?is_space_upper_char.
Qed.

Lemma space_ended_title_aux b s : space_ended (title_aux b s) = space_ended s.
Proof.
  revert b; induction s as [|c t IH]; intros b; [done|].
  cbn [title_aux]. destruct t as [|c' t'].
  - destruct (is_alpha c); simpl; [|done].
    destruct b; by rewrite ?is_space_lower_char, ?is_space_upper_char.
  - assert (Hne : ∀ b', ∃ d u, title_aux b' (String c' t') = String d u).
    { intros b'. simpl. destruct (is_alpha c'); eauto. }
    destruct (is_alpha c).
    + destruct (Hne true) as (d & u & E). cbn [space_ended].
      rewrite E, <- E. apply IH.
    + destruct (Hne false) as (d & u & E). cbn [space_ended].
      rewrite E, <- E. apply IH.
Qed.

Lemma title_strip_idem s : title (strip (title (strip s))) = title (strip s).
Proof.
  unfold title. destruct (strip_stripped s) as [H1 H2].
  rewrite (strip_fix (title_aux false (strip s)));
    rewrite ?space_led_title_aux, ?space_ended_title_aux; try done.
  apply title_aux_idem.
Qed.

Lemma lower_strip_idem s : strip (lower (strip (lower s))) = strip (lower s).
Proof.
  rewrite (lower_fix (strip (lower s))).
  - apply strip_idem.
  - apply all_chars_strip, lowered_lower.
Qed.

Lemma space_led_upper s : space_led (upper s) = space_led s.
Proof. destruct s; simpl; [done|apply is_space_upper_char]. Qed.

Lemma space_ended_upper s : space_ended (upper s) = space_ended s.
Proof.
  induction s as [|c t IH]; [done|]. cbn [upper].
  destruct t as [|c' t']; [apply is_space_upper_char|]. apply IH.
Qed.

Lemma upper_strip_idem s : upper (strip (upper (strip s))) = upper (strip s).
Proof.
  destruct (strip_stripped s) as [H1 H2].
  rewrite (strip_fix (upper (strip s)));
    rewrite ?space_led_upper, ?space_ended_upper; try done.
  apply upper_idem.
Qed.

(** *** Lengths *)

Lemma length_lower s : String.length (lower s) = String.length s.
Proof. induction s; simpl; congruence. Qed.

Lemma length_title_aux b s : String.length (title_aux b s) = String.length s.
Proof.
  revert b; induction s as [|c t IH]; intros b; simpl; [done|].
  destruct (is_alpha c); simpl; by rewrite IH.
Qed.

Lemma length_lstrip s : String.length (lstrip s) ≤ String.length s.
Proof.
  induction s as [|c t IH]; simpl; [done|]. destruct (is_space c); simpl; lia.
Qed.

Lemma length_rstrip s : String.length (rstrip s) ≤ String.length s.
Proof.
  induction s as [|c t IH]; [done|]. cbn [rstrip].
  destruct (rstrip t); [destruct (is_space c)|]; simpl in *; lia.
Qed.

Lemma length_strip s : String.length (strip s) ≤ String.length s.
Proof.
  unfold strip. etrans; [apply length_rstrip|apply length_lstrip].
Qed.

(** *** Removing a pattern *)

Lemma replace_absent old new s :
  contains old s = false → replace_aux old new 0 s = s.
Proof.
  induction s as [|c t IH]; [done|]. cbn [contains replace_aux].
  intros [Hp Ht]%orb_false_elim. rewrite Hp. by rewrite IH.
Qed.

Lemma all_chars_remove p old k s :
  all_chars p s = true → all_chars p (replace_aux old EmptyString k s) = true.
Proof.
  revert k; induction s as [|c t IH]; intros k; [done|].
  cbn [replace_aux all_chars]. intros [Hc Ht]%andb_prop.
  destruct k; [|by apply IH].
  destruct (String.prefix old (String c t)).
  - rewrite app_nil_l. by apply IH.
  - cbn [all_chars]. by rewrite Hc, IH.
Qed.

Lemma length_remove old k s :
  String.length (replace_aux old EmptyString k s) ≤ String.length s.
Proof.
  revert k; induction s as [|c t IH]; intros k; [done|].
  cbn [replace_aux]. destruct k; [|specialize (IH k); simpl; lia].
  destruct (String.prefix old (String c t)).
  - rewrite app_nil_l. specialize (IH (String.length old - 1)). simpl. lia.
  - specialize (IH 0). simpl. lia.
Qed.

Lemma length_remove_present a old s :
  contains (String a old) s = true →
  String.length (replace_aux (String a old) EmptyString 0 s) < String.length s.
Proof.
  induction s as [|c t IH]; [done|]. cbn [contains replace_aux].
  destruct (String.prefix (String a old) (String c t)) eqn:E.
  - intros _. rewrite app_nil_l.
    pose proof (length_remove (String a old) (String.length (String a old) - 1) t).
    simpl in *. lia.
  - simpl. intros H. specialize (IH H). simpl. lia.
Qed.

End CaseFacts.

(** ** The field normalisers applied twice *)

Module NormalizerFacts.
Import Text Keys AsciiText TextFacts KeysFacts CaseFacts.

Lemma standardize_id_idem text prefix y :
  no_digit prefix = true →
  standardize_id text prefix = Some y → standardize_id y prefix = Some y.
Proof.
  intros Hp H. unfold standardize_id in *.
  destruct (astype_int (fillna "0" (str_extract_digits text))) as [n|] eqn:E;
    [|done].
  simpl in H. injection H as <-.
  change (astype_int (fillna "0" (str_extract_digits ?c))) with (order_num c).
  rewrite order_num_canonical by done.
  unfold astype_int in E. destruct (python_int _) as [n'|]; [|done].
  simpl in E. destruct (n' <=? int64_max)%N eqn:Hle; [|done].
  injection E as ->. by rewrite Hle.
Qed.

Lemma mapM_idem {A} (f : A → option A) l k :
  (∀ x y, f x = Some y → f y = Some y) →
  mapM f l = Some k → mapM f k = Some k.
Proof.
  intros Hf H%mapM_Some. apply mapM_Some.
  induction H; constructor; eauto.
Qed.

Lemma normalize_order_idem r r' :
  Orders.normalize_order r = Some r' → Orders.normalize_order r' = Some r'.
Proof.
  unfold Orders.normalize_order. intros H.
  destruct (standardize_id (Orders.order_code r) "ord") as [oc|] eqn:Eo; [|done].
  destruct (standardize_id (Orders.customer_code r) "cust") as [cc|] eqn:Ec; [|done].
  destruct (standardize_id (Orders.store_code r) "store") as [sc|] eqn:Es; [|done].
  destruct (standardize_id (Orders.product_code r) "prd") as [pc|] eqn:Ep; [|done].
  simpl in H. injection H as <-. simpl.
  rewrite (standardize_id_idem _ "ord" _ eq_refl Eo),
    (standardize_id_idem _ "cust" _ eq_refl Ec),
    (standardize_id_idem _ "store" _ eq_refl Es),
    (standardize_id_idem _ "prd" _ eq_refl Ep).
  simpl. by rewrite !lower_strip_idem.
Qed.

Lemma normalize_product_idem r r' :
  Products.normalize_product r = Some r' →
  Products.normalize_product r' = Some r'.
Proof.
  unfold Products.normalize_product. intros H.
  destruct (standardize_id (Products.product_code r) "prd") as [pc|] eqn:Ep;
    [|done].
  simpl in H. injection H as <-. simpl.
  rewrite (standardize_id_idem _ "prd" _ eq_refl Ep). simpl.
  by rewrite !title_strip_idem.
Qed.

Lemma normalize_customer_idem r r' :
  Customers.normalize_customer r = Some r' →
  Customers.normalize_customer r' = Some r'.
Proof.
  unfold Customers.normalize_customer. intros H.
  destruct (standardize_id (Customers.customer_code r) "cust") as [cc|] eqn:Ec;
    [|done].
  simpl in H. injection H as <-. simpl.
  rewrite (standardize_id_idem _ "cust" _ eq_refl Ec). simpl.
  destruct (Customers.customer_segment r); simpl; [|done].
  by rewrite lower_strip_idem.
Qed.

(** The region name comes back unchanged exactly when the first pass left
    no occurrence of the removed word. *)
Lemma normalize_region_name_twice x :
  Regions.normalize_region_name (Regions.normalize_region_name x)
  = Regions.normalize_region_name x
  ↔ contains "region" (lower (Regions.normalize_region_name x)) = false.
Proof.
  unfold Regions.normalize_region_name, title, str_replace.
  set (s := strip (replace_aux "region" "" 0 (lower x))).
  assert (Hlow : lower s = s).
  { apply lower_fix, all_chars_strip, all_chars_remove, lowered_lower. }
  rewrite !lower_title_aux, Hlow.
  destruct (contains "region" s) eqn:E.
  - split; [|done]. intros H. apply (f_equal String.length) in H.
    rewrite !length_title_aux in H.
    pose proof (length_strip (replace_aux "region" "" 0 s)).
    pose proof (length_remove_present _ _ _ E). lia.
  - split; [done|]. intros _. rewrite replace_absent by done.
    subst s. by rewrite strip_idem.
Qed.

Lemma normalize_store_idem r r' :
  Stores.normalize_store r = Some r' →
  contains "region" (lower (Stores.region_name r')) = false →
  Stores.normalize_store r' = Some r'.
Proof.
  unfold Stores.normalize_store. intros H.
  destruct (standardize_id (Stores.store_code r) "store") as [sc|] eqn:Ec;
    [|done].
  simpl in H. injection H as <-. simpl. intros Hreg.
  rewrite (standardize_id_idem _ "store" _ eq_refl Ec). simpl.
  apply normalize_region_name_twice in Hreg.
  by rewrite !title_strip_idem, upper_strip_idem, Hreg.
Qed.

(** C6 (amended): normalising a normalised table again changes nothing for
    the Order and Customer tables, and for a Product table of ASCII texts;
    for a Region table of ASCII names, and a Store table of ASCII texts,
    which shares the region-name rule, it changes nothing when no
    normalised region name still contains the word "region" in any letter
    case, and an ASCII region name normalises to a fixed point of the rule
    exactly under that condition. *)
Theorem normalizer_idempotent :
  (∀ t t', Orders.normalize t = Some t' → Orders.normalize t' = Some t')
  ∧ (∀ t t', forallb ascii_product t = true →
       mapM Products.normalize_product t = Some t' →
       mapM Products.normalize_product t' = Some t')
  ∧ (∀ t t', mapM Customers.normalize_customer t = Some t' →
       mapM Customers.normalize_customer t' = Some t')
  ∧ (∀ t t', forallb ascii_store t = true →
       mapM Stores.normalize_store t = Some t' →
       (∀ r, r ∈ t' → contains "region" (lower (Stores.region_name r)) = false) →
       mapM Stores.normalize_store t' = Some t')
  ∧ (∀ df, forallb ascii_region df = true →
       (∀ r, r ∈ Regions.clean_regions df →
          contains "region" (lower (Regions.region_name r)) = false) →
       Regions.clean_regions (Regions.clean_regions df)
       = Regions.clean_regions df)
  ∧ (∀ x, ascii_text x = true →
       Regions.normalize_region_name (Regions.normalize_region_name x)
       = Regions.normalize_region_name x
       ↔ contains "region" (lower (Regions.normalize_region_name x)) = false).
Proof.
  split_and!.
  - intros t t'. apply mapM_idem. intros [l r] [l' r'] H. simpl in *.
    destruct (Orders.normalize_order r) as [r''|] eqn:E; [|done].
    simpl in H. injection H as <- <-.
    by rewrite (normalize_order_idem _ _ E).
  - intros t t' _. apply mapM_idem, normalize_product_idem.
  - intros t t'. apply mapM_idem, normalize_customer_idem.
  - intros t t' _ H%mapM_Some Hreg. apply mapM_Some.
    induction H as [|r r' t t' Hr H IH]; constructor.
    + apply (normalize_store_idem r); [done|].
      apply Hreg, elem_of_cons. by left.
    + apply IH. intros r0 Hr0. apply Hreg, elem_of_cons. by right.
  - intros df _. induction df as [|r df IH]; [done|]. simpl. intros Hreg.
    f_equal.
    + f_equal. apply normalize_region_name_twice.
      apply (Hreg {| Regions.region_code := Regions.region_code r;
                     Regions.region_name :=
                       Regions.normalize_region_name (Regions.region_name r);
                     Regions.active_flag := Regions.active_flag r |}).
      apply elem_of_cons. by left.
    + apply IH. intros r0 Hr0. apply Hreg, elem_of_cons. by right.
  - intros x _. apply normalize_region_name_twice.
Qed.

Lemma normalizer_idempotent_witness :
  Regions.clean_regions
    (Regions.clean_regions [Examples.region "R1" "North Region "])
  = [Examples.region "R1" "North"]
  ∧ Orders.normalize Examples.three_collisions = Some Examples.three_collisions.
Proof.
  destruct normalizer_idempotent as (Ho & _ & _ & _ & Hr & _). split.
  - rewrite Hr; [reflexivity|reflexivity|].
    intros r Hr0. vm_compute in Hr0.
    apply list_elem_of_singleton in Hr0. by subst r.
  - apply Ho with (t := Examples.three_collisions). reflexivity.
Defined.

(** C6 (as stated): the name "regregionion" normalises to "Region", and
    "Region" normalises to the empty name, so a second pass over the
    cleaned Region table changes it. *)
Lemma region_name_not_idempotent :
  Regions.normalize_region_name "regregionion" = "Region"
  ∧ Regions.normalize_region_name "Region" = ""
  ∧ Regions.clean_regions Examples.nested_region
    = [Examples.region "R1" "Region"]
  ∧ Regions.clean_regions (Regions.clean_regions Examples.nested_region)
    = [Examples.region "R1" ""].
Proof. split_and!; reflexivity. Qed.

End NormalizerFacts.

(** ** [auto_parse_dates] *)

Module DatesFacts.
Import Text Table Dates.

Lemma lookup_setitem m n v df :
  lookup_column m (setitem n v df)
  = if String.eqb m n then Some v else lookup_column m df.
Proof.
  unfold lookup_column. induction df as [|[n0 c] df IH]; simpl.
  - rewrite (String.eqb_sym n m). by destruct (String.eqb m n).
  - destruct (String.eqb_spec n0 n) as [->|Hne]; simpl.
    + rewrite (String.eqb_sym n m). by destruct (String.eqb m n).
    + destruct (String.eqb_spec n0 m) as [->|Hne']; simpl.
      * destruct (String.eqb_spec m n); [congruence|done].
      * apply IH.
Qed.

Lemma lookup_column_None n df : lookup_column n df = None ↔ n ∉ columns df.
Proof.
  unfold lookup_column, columns. induction df as [|[n0 c] df IH]; simpl.
  - split; [intros _ ?%elem_of_nil; done|done].
  - rewrite not_elem_of_cons. destruct (String.eqb_spec n0 n) as [->|Hne]; simpl.
    + split; [done|tauto].
    + rewrite IH. split; [intros ?; split; [congruence|done]|tauto].
Qed.

Lemma columns_setitem n v df :
  n ∈ columns df → columns (setitem n v df) = columns df.
Proof.
  unfold columns. induction df as [|[n0 c] df IH]; simpl.
  - by intros ?%elem_of_nil.
  - destruct (String.eqb_spec n0 n) as [->|Hne]; [done|]. simpl.
    intros [->|Hin]%elem_of_cons; [done|]. f_equal. by apply IH.
Qed.

(** Tables with the same column names, none repeated, and the same column
    under each name are equal. *)
Lemma dataframe_ext d1 d2 :
  columns d1 = columns d2 → NoDup (columns d1) →
  (∀ n, lookup_column n d1 = lookup_column n d2) → d1 = d2.
Proof.
  revert d2; induction d1 as [|[n c] d1 IH]; intros [|[n' c'] d2]; simpl;
    try done.
  intros [= <- Hcols] [Hn Hnd]%NoDup_cons Hlook.
  pose proof (Hlook n) as Hn0. unfold lookup_column in Hn0. simpl in Hn0.
  rewrite String.eqb_refl in Hn0. simpl in Hn0. injection Hn0 as <-.
  f_equal. apply IH; [done|done|]. intros m.
  destruct (String.eqb_spec n m) as [<-|Hne].
  - transitivity (@None column); [|symmetry]; apply lookup_column_None;
      [done|by rewrite <- Hcols].
  - specialize (Hlook m). unfold lookup_column in *. simpl in Hlook.
    destruct (String.eqb_spec n m); [done|]. done.
Qed.

Section Parse.
Variable parse_datetime : cell → option Z.

Local Abbreviation parse_column := (parse_column parse_datetime).
Local Abbreviation to_datetime := (to_datetime parse_datetime).

Lemma parse_column_spec df col c :
  lookup_column col df = Some c →
  columns (parse_column df col) = columns df
  ∧ ∀ m, lookup_column m (parse_column df col)
         = if String.eqb m col then Some (to_datetime c)
           else lookup_column m df.
Proof.
  intros Hc. unfold Dates.parse_column. rewrite Hc.
  assert (Hin : col ∈ columns df).
  { destruct (decide (col ∈ columns df)) as [|Hn]; [done|].
    apply lookup_column_None in Hn. congruence. }
  destruct (is_string_dtype (col_dtype c)).
  - rewrite lookup_setitem, String.eqb_refl.
    rewrite !columns_setitem; [|done|by rewrite columns_setitem].
    split; [done|]. intros m. rewrite !lookup_setitem.
    by destruct (String.eqb m col).
  - rewrite Hc, columns_setitem by done. split; [done|].
    intros m. by rewrite lookup_setitem.
Qed.

Lemma foldl_parse_columns todo df :
  NoDup todo → (∀ n, n ∈ todo → n ∈ columns df) →
  columns (foldl parse_column df todo) = columns df
  ∧ ∀ m, lookup_column m (foldl parse_column df todo)
         = if decide (m ∈ todo) then to_datetime <$> lookup_column m df
           else lookup_column m df.
Proof.
  revert df; induction todo as [|col todo IH]; intros df Hnd Hin; cbn [foldl].
  - split; [done|]. intros m. rewrite decide_False; [done|].
    by intros ?%elem_of_nil.
  - apply NoDup_cons in Hnd as [Hcol Hnd].
    destruct (lookup_column col df) as [c|] eqn:Hc.
    2:{ apply lookup_column_None in Hc. destruct Hc.
        apply Hin, elem_of_cons. by left. }
    destruct (parse_column_spec df col c Hc) as [Hcols Hlook].
    destruct (IH (parse_column df col) Hnd) as [IH1 IH2].
    { intros n Hn. rewrite Hcols. apply Hin, elem_of_cons. by right. }
    split; [by rewrite IH1|]. intros m. rewrite IH2, Hlook.
    destruct (String.eqb_spec m col) as [->|Hne].
    + rewrite decide_False by done.
      rewrite decide_True by (apply elem_of_cons; by left). by rewrite Hc.
    + destruct (decide (m ∈ todo)) as [Hm|Hm].
      * rewrite decide_True by (apply elem_of_cons; by right). done.
      * rewrite decide_False; [done|]. by intros [?|?]%elem_of_cons.
Qed.

Lemma columns_with_dates_parsed df :
  columns (with_dates_parsed parse_datetime df) = columns df.
Proof. unfold columns, with_dates_parsed. rewrite map_map. done. Qed.

Lemma lookup_with_dates_parsed m df :
  lookup_column m (with_dates_parsed parse_datetime df)
  = (λ c, if is_date_col m then to_datetime c else c) <$> lookup_column m df.
Proof.
  unfold lookup_column, with_dates_parsed.
  induction df as [|[n c] df IH]; simpl; [done|].
  destruct (String.eqb_spec n m) as [->|Hne]; simpl; [done|apply IH].
Qed.

Lemma foldl_alter_insert {A B} (f : A → B → A) (l : nat) (d : A)
    (h : gmap nat A) (cols : list B) :
  foldl (λ h col, alter (λ x, f x col) l h) (<[l:=d]> h) cols
  = <[l:=foldl f d cols]> h.
Proof.
  revert d; induction cols as [|col cols IH]; intros d; simpl; [done|].
  by rewrite alter_insert_eq, IH.
Qed.

Lemma date_columns_parsed df :
  NoDup (columns df) →
  foldl parse_column df (List.filter is_date_col (columns df))
  = with_dates_parsed parse_datetime df.
Proof.
  intros Hnd.
  destruct (foldl_parse_columns (List.filter is_date_col (columns df)) df)
    as [Hcols Hlook].
  { by apply FrameFacts.NoDup_list_filter. }
  { by intros n [Hn _]%FilterFacts.elem_of_list_filter. }
  apply dataframe_ext.
  - by rewrite Hcols, columns_with_dates_parsed.
  - by rewrite Hcols.
  - intros m. rewrite Hlook, lookup_with_dates_parsed.
    destruct (lookup_column m df) as [c|] eqn:Hc; simpl.
    + assert (m ∈ columns df).
      { destruct (decide (m ∈ columns df)) as [|Hn]; [done|].
        apply lookup_column_None in Hn. congruence. }
      destruct (is_date_col m) eqn:Hd.
      * rewrite decide_True; [done|].
        by apply FilterFacts.elem_of_list_filter.
      * rewrite decide_False; [done|].
        intros [_ ?]%FilterFacts.elem_of_list_filter. congruence.
    + by destruct (decide _).
Qed.

Lemma parse_one_spec l df (h : store) :
  h !! l = Some df → NoDup (columns df) →
  parse_one parse_datetime l h
  = (fresh (dom h),
     <[fresh (dom h):=with_dates_parsed parse_datetime df]> h).
Proof.
  intros Hl Hnd. unfold parse_one. rewrite Hl, lookup_insert_eq. simpl.
  f_equal. rewrite (foldl_alter_insert parse_column).
  by rewrite date_columns_parsed.
Qed.

(** C10: [auto_parse_dates] returns one new table per input table, in the
    same order; each new table is the input table with exactly the columns
    whose lower-cased name contains "date" or "_ts" converted cell by cell
    (an unparseable cell becomes the missing marker) and every other
    column, the column order and the rows as they were; and every table
    that existed before the call, the inputs among them, is unchanged. *)
Theorem auto_parse_dates_copies (h : store) (df_list : list nat) :
  (∀ l, l ∈ df_list → ∃ df, h !! l = Some df ∧ NoDup (columns df)) →
  ∃ out h',
    auto_parse_dates parse_datetime df_list h = (out, h')
    ∧ (∀ l df, h !! l = Some df → h' !! l = Some df)
    ∧ NoDup out
    ∧ Forall2
        (λ l l', ∃ df,
           h !! l = Some df ∧ h !! l' = None
           ∧ h' !! l' = Some (with_dates_parsed parse_datetime df))
        df_list out.
Proof.
  revert h; induction df_list as [|l rest IH]; intros h Hin.
  - exists [], h. split_and!; [done|done|constructor|constructor].
  - destruct (Hin l) as (df & Hl & Hnd); [apply elem_of_cons; by left|].
    set (l' := fresh (dom h)).
    assert (Hfresh : h !! l' = None) by apply not_elem_of_dom, is_fresh.
    set (h1 := <[l':=with_dates_parsed parse_datetime df]> h).
    assert (Hkeep : ∀ k d, h !! k = Some d → h1 !! k = Some d).
    { intros k d Hk. unfold h1. rewrite lookup_insert_ne; [done|].
      intros <-. congruence. }
    destruct (IH h1) as (out & h' & Hrun & Hsame & Hnd' & Hall).
    { intros k Hk. destruct (Hin k) as (d & Hd & Hdn);
        [apply elem_of_cons; by right|]. exists d. split; [by apply Hkeep|done]. }
    exists (l' :: out), h'. split_and!.
    + cbn [auto_parse_dates]. rewrite (parse_one_spec l df) by done.
      fold l' h1. by rewrite Hrun.
    + intros k d Hk. by apply Hsame, Hkeep.
    + constructor; [|done]. intros Hl'.
      apply list_elem_of_lookup in Hl' as (i & Hi).
      destruct (Forall2_lookup_r _ _ _ _ _ Hall Hi) as (k & _ & d & _ & Hn & _).
      unfold h1 in Hn. by rewrite lookup_insert_eq in Hn.
    + constructor.
      * exists df. split_and!; [done|done|].
        apply Hsame. unfold h1. apply lookup_insert_eq.
      * apply Forall2_same_length_lookup.
        apply Forall2_same_length_lookup in Hall as [Hlen Hall].
        split; [done|]. intros i k k' Hk Hk'.
        destruct (Hall i k k' Hk Hk') as (d & Hd & Hn & Hp).
        destruct (Hin k) as (d0 & Hd0 & _).
        { apply elem_of_cons. right. by eapply list_elem_of_lookup_2. }
        exists d. split_and!; [| |done].
        -- rewrite (Hkeep _ _ Hd0) in Hd. by injection Hd as <-.
        -- unfold h1 in Hn. apply lookup_insert_None in Hn. tauto.
Qed.

End Parse.

Lemma auto_parse_dates_copies_witness :
  ∃ out h',
    auto_parse_dates Examples.parse_demo [0]
      {[ 0 := Examples.raw_orders_frame ]} = (out, h')
    ∧ h' !! 0 = Some Examples.raw_orders_frame
    ∧ out = [1]
    ∧ h' !! 1
      = Some
          [("order_code", {| col_dtype := DObject;
                             col_cells := [Text "A1"; Text "A2"] |});
           ("Order_TS", {| col_dtype := DDatetime;
                           col_cells := [Timestamp 1700; Missing] |});
           ("quantity", {| col_dtype := DInt;
                           col_cells := [Number 2; Number 3] |});
           ("due_date", {| col_dtype := DDatetime;
                           col_cells := [Missing; Timestamp 1800] |})].
Proof.
  destruct (auto_parse_dates_copies Examples.parse_demo
              {[ 0 := Examples.raw_orders_frame ]} [0])
    as (out & h' & Hrun & Hsame & _ & Hall).
  { intros l ->%list_elem_of_singleton. exists Examples.raw_orders_frame.
    split; [reflexivity|].
    apply (bool_decide_unpack (NoDup (columns Examples.raw_orders_frame))).
    vm_compute. exact I. }
  exists out, h'. split; [exact Hrun|]. split; [by apply Hsame|].
  vm_compute in Hrun. injection Hrun as <- <-. split; reflexivity.
Defined.

End DatesFacts.

(** ** The schema validator *)

Module ValidationFacts.
Import Table Validation Verdicts.
Local Open Scope validator_scope.

(** *** Running and printing *)

Lemma bind_ret_l {A B} (a : A) (f : A → V B) : bind (ret a) f = f a.
Proof. unfold bind, ret. by destruct (f a). Qed.

Lemma bind_ret_r {A} (m : V A) : bind m ret = m.
Proof. destruct m as [[a|e] out]; simpl; [|done]. by rewrite app_nil_r. Qed.

Lemma bind_done {A B} (m : V A) (f : A → V B) a :
  m.1 = Done a → bind m f = ((f a).1, m.2 ++ (f a).2).
Proof. destruct m as [r out]. simpl. intros ->. simpl. by destruct (f a). Qed.

Lemma bind_raised {A B} (m : V A) (f : A → V B) e :
  m.1 = Raised e → bind m f = (Raised e, m.2).
Proof. destruct m as [r out]. simpl. by intros ->. Qed.

Lemma safe_ret {A} P (a : A) : safe P (ret a).
Proof. split; [by exists a|constructor]. Qed.

Lemma safe_print P lvl m : P m → safe P (print (lvl, m)).
Proof. intros H. split; [by exists ()|]. by repeat constructor. Qed.

Lemma safe_one {A} P (a : A) lvl m : P m → safe P (Done a, [(lvl, m)]).
Proof. intros H. split; [by exists a|]. by repeat constructor. Qed.

Lemma safe_bind {A B} P (m : V A) (f : A → V B) :
  safe P m → (∀ a, m.1 = Done a → safe P (f a)) → safe P (bind m f).
Proof.
  intros [[a Ha] Hout] Hf. rewrite (bind_done m f a Ha).
  destruct (Hf a Ha) as [[b Hb] Hout']. split; [by exists b|].
  simpl. by apply Forall_app.
Qed.

(** Closes the goal left by a failing branch: one line, then [ret]. *)
Ltac fail_line :=
  first [ apply safe_one
        | apply safe_bind; [apply safe_print|intros; apply safe_ret] ].

Lemma safe_for_each {A} P (xs : list A) (body : A → V bool) ok :
  (∀ x, x ∈ xs → safe P (body x)) → safe P (for_each xs body ok).
Proof.
  revert ok; induction xs as [|x xs IH]; intros ok H; simpl.
  - apply safe_ret.
  - apply safe_bind; [apply H, elem_of_cons; by left|].
    intros b _. apply IH. intros y Hy. apply H, elem_of_cons. by right.
Qed.

(** *** Columns that are present *)

Lemma has_column_true df col : has_column df col = true ↔ col ∈ columns df.
Proof. unfold has_column. by rewrite bool_decide_eq_true. Qed.

Lemma getitem_present df col :
  col ∈ columns df →
  ∃ c, lookup_column col df = Some c ∧ getitem df col = ret c.
Proof.
  intros Hin. unfold getitem.
  destruct (lookup_column col df) as [c|] eqn:E; [by exists c|].
  by apply DatesFacts.lookup_column_None in E.
Qed.

Lemma getitem_absent df col :
  col ∉ columns df → getitem df col = raise (KeyError col).
Proof.
  intros Hin%DatesFacts.lookup_column_None. unfold getitem. by rewrite Hin.
Qed.

Lemma about_one df col m :
  message_columns m = [col] → col ∈ columns df → about_present df m.
Proof. intros E Hin c. rewrite E. by intros ->%list_elem_of_singleton. Qed.

(** *** Each check skips what is absent and completes *)

Lemma check_nulls_safe schema name df :
  safe (about_present df) (check_nulls schema name df).
Proof.
  apply safe_for_each. intros col _.
  destruct (has_column df col) eqn:Hc; simpl; [|apply safe_ret].
  apply has_column_true in Hc.
  destruct (bool_decide (col ∉ allow_nulls schema)); [|apply safe_ret].
  destruct (getitem_present df col Hc) as (c & _ & ->). rewrite bind_ret_l.
  destruct (existsb isna (col_cells c)); [|apply safe_ret].
  fail_line. by apply (about_one df col).
Qed.

Lemma dtype_loop_safe declared test expected name df ok :
  safe (about_present df) (dtype_loop declared test expected name df ok).
Proof.
  apply safe_for_each. intros col _.
  destruct (has_column df col) eqn:Hc; simpl; [|apply safe_ret].
  apply has_column_true in Hc.
  destruct (getitem_present df col Hc) as (c & _ & ->). rewrite bind_ret_l.
  destruct (negb (test c)); [|apply safe_ret].
  fail_line. by apply (about_one df col).
Qed.

Lemma check_dtypes_safe schema name df :
  safe (about_present df) (check_dtypes schema name df).
Proof.
  unfold check_dtypes.
  repeat (apply safe_bind; [apply dtype_loop_safe|intros ? _]).
  apply dtype_loop_safe.
Qed.

Lemma check_allowed_values_safe schema name df :
  safe (about_present df) (check_allowed_values schema name df).
Proof.
  apply safe_for_each. intros [col allowed] _.
  destruct (has_column df col) eqn:Hc; simpl; [|apply safe_ret].
  apply has_column_true in Hc.
  destruct (getitem_present df col Hc) as (c & _ & ->). rewrite bind_ret_l.
  destruct (0 <? _)%nat; [|apply safe_ret].
  fail_line. by apply (about_one df col).
Qed.

Lemma series_lt_numeric c min_val :
  is_numeric_column c = true → ∃ mask, series_lt c min_val = ret mask.
Proof.
  unfold is_numeric_column, series_lt. intros [Hd Hc]%andb_prop.
  assert (Hm : is_Some (mapM (cell_lt min_val) (col_cells c))).
  { apply mapM_is_Some, Forall_forall. intros x Hx.
    rewrite forallb_forall in Hc. apply list_elem_of_In in Hx.
    specialize (Hc x Hx). unfold compose.
    destruct x; simpl in *; try done; by eexists. }
  destruct Hm as [mask ->]. exists mask. by destruct (col_dtype c).
Qed.

Lemma check_min_values_safe schema name df :
  (∀ col min_val c, (col, min_val) ∈ min_values schema →
     lookup_column col df = Some c → is_numeric_column c = true) →
  safe (about_present df) (check_min_values schema name df).
Proof.
  intros Hnum. apply safe_for_each. intros [col min_val] Hin.
  destruct (has_column df col) eqn:Hc; simpl; [|apply safe_ret].
  apply has_column_true in Hc.
  destruct (getitem_present df col Hc) as (c & Hl & ->). rewrite bind_ret_l.
  destruct (series_lt_numeric c min_val (Hnum _ _ _ Hin Hl)) as [mask ->].
  rewrite bind_ret_l.
  destruct (0 <? _)%nat; [|apply safe_ret].
  fail_line. by apply (about_one df col).
Qed.

Lemma getitems_present df cols :
  (∀ c, c ∈ cols → c ∈ columns df) → ∃ cs, getitems df cols = ret cs.
Proof.
  induction cols as [|col cols IH]; intros H; simpl; [by exists []|].
  destruct (getitem_present df col) as (c & _ & ->);
    [apply H, elem_of_cons; by left|].
  destruct IH as [cs ->]; [intros; apply H, elem_of_cons; by right|].
  exists (c :: cs). by rewrite !bind_ret_l.
Qed.

Lemma check_uniqueness_safe schema name df :
  safe (about_present df) (check_uniqueness schema name df).
Proof.
  apply safe_for_each. intros cols _.
  destruct (existsb _ cols) eqn:Hex; [apply safe_ret|].
  assert (Hall : ∀ c, c ∈ cols → c ∈ columns df).
  { intros c Hc. apply has_column_true.
    destruct (has_column df c) eqn:E; [done|].
    assert (existsb (λ c, negb (has_column df c)) cols = true); [|congruence].
    apply existsb_exists. exists c. split; [by apply list_elem_of_In|].
    by rewrite E. }
  destruct (getitems_present df cols Hall) as [cs ->]. rewrite bind_ret_l.
  cbv zeta. destruct (0 <? length _)%nat; [|apply safe_ret].
  by fail_line.
Qed.

(** *** The entries of [SCHEMAS] *)

Lemma dict_get_SCHEMAS name schema :
  (name, schema) ∈ SCHEMAS → dict_get SCHEMAS name = ret schema.
Proof.
  unfold SCHEMAS. intros H.
  repeat (apply elem_of_cons in H as [[= -> ->]|H]; [reflexivity|]).
  by apply elem_of_nil in H.
Qed.

Lemma min_values_declared name schema col min_val :
  (name, schema) ∈ SCHEMAS → (col, min_val) ∈ min_values schema →
  col ∈ ints schema ∪ floats schema.
Proof.
  unfold SCHEMAS. intros H Hm.
  repeat (apply elem_of_cons in H as [[= -> ->]|H];
          [simpl in Hm;
           repeat (apply elem_of_cons in Hm as [[= -> ->]|Hm];
                   [by apply (bool_decide_unpack _)|]);
           by apply elem_of_nil in Hm|]).
  by apply elem_of_nil in H.
Qed.

Lemma loaded_like_numeric name schema df col min_val c :
  (name, schema) ∈ SCHEMAS → loaded_like schema df = true →
  (col, min_val) ∈ min_values schema →
  lookup_column col df = Some c → is_numeric_column c = true.
Proof.
  intros Hs Hl Hm Hc. unfold loaded_like in Hl.
  rewrite forallb_forall in Hl. specialize (Hl col).
  rewrite Hc in Hl. apply Hl, list_elem_of_In, elem_of_elements.
  by eapply min_values_declared.
Qed.

Lemma check_schema_spec schema name df :
  let missing := required_columns schema ∖ list_to_set (columns df) in
  let extra := list_to_set (columns df) ∖ required_columns schema in
  check_schema schema name df
  = (Done (bool_decide (missing = ∅)),
     (if bool_decide (missing = ∅) then []
      else [(FAIL, MissingColumns name (elements missing))])
     ++ (if bool_decide (extra = ∅) then []
         else [(WARN, ExtraColumns name (elements extra))])).
Proof.
  intros missing extra. unfold check_schema. fold missing extra.
  destruct (decide (missing = ∅)) as [Hm|Hm];
    destruct (decide (extra = ∅)) as [He|He];
    rewrite ?(bool_decide_eq_true_2 _ Hm), ?(bool_decide_eq_false_2 _ Hm),
      ?(bool_decide_eq_true_2 _ He), ?(bool_decide_eq_false_2 _ He);
    try rewrite (bool_decide_eq_false_2 (missing ≠ ∅)) by tauto;
    try rewrite (bool_decide_eq_true_2 (missing ≠ ∅)) by tauto;
    try rewrite (bool_decide_eq_false_2 (extra ≠ ∅)) by tauto;
    try rewrite (bool_decide_eq_true_2 (extra ≠ ∅)) by tauto;
    reflexivity.
Qed.

(** C9 (amended): for a table of [SCHEMAS] typed as [load_table] types it,
    the structural check returns whether a required column is absent and
    reports the absent ones in one line (and the unexpected ones in a
    warning); the null, dtype, allowed-value, minimum-value and uniqueness
    checks each complete without raising, and every line they print is
    about columns the table has: an absent column, or a key tuple with an
    absent column, is passed over. *)
Theorem per_table_checks_skip_absent name schema df :
  (name, schema) ∈ SCHEMAS → loaded_like schema df = true →
  let missing := required_columns schema ∖ list_to_set (columns df) in
  let extra := list_to_set (columns df) ∖ required_columns schema in
  validate_schema name df
  = (Done (bool_decide (missing = ∅)),
     (if bool_decide (missing = ∅) then []
      else [(FAIL, MissingColumns name (elements missing))])
     ++ (if bool_decide (extra = ∅) then []
         else [(WARN, ExtraColumns name (elements extra))]))
  ∧ safe (about_present df) (validate_nulls name df)
  ∧ safe (about_present df) (validate_dtypes name df)
  ∧ safe (about_present df) (validate_allowed_values name df)
  ∧ safe (about_present df) (validate_min_values name df)
  ∧ safe (about_present df) (validate_uniqueness name df).
Proof.
  intros Hs Hl missing extra.
  unfold validate_schema, validate_nulls, validate_dtypes,
    validate_allowed_values, validate_min_values, validate_uniqueness.
  rewrite (dict_get_SCHEMAS _ _ Hs), !bind_ret_l. split_and!.
  - apply check_schema_spec.
  - apply check_nulls_safe.
  - apply check_dtypes_safe.
  - apply check_allowed_values_safe.
  - apply check_min_values_safe. intros col min_val c.
    by apply (loaded_like_numeric name).
  - apply check_uniqueness_safe.
Qed.

Lemma per_table_checks_skip_absent_witness :
  validate_schema "orders" Examples.orders_no_store
  = (Done false, [(FAIL, MissingColumns "orders" ["store_code"])])
  ∧ safe (about_present Examples.orders_no_store)
      (validate_uniqueness "orders" Examples.orders_no_store).
Proof.
  destruct (per_table_checks_skip_absent "orders" orders_schema
              Examples.orders_no_store)
    as (Hs & _ & _ & _ & _ & Hu).
  - apply list_elem_of_In. do 4 right. by left.
  - vm_compute. reflexivity.
  - split; [|exact Hu]. rewrite Hs. vm_compute. reflexivity.
Defined.

(** C9 (as stated): with every table valid except that the orders table
    has no [store_code] column, the per-table checks report the absent
    column and the cross-table check then raises [KeyError]: the run ends
    on the exception, not on the verdict. *)
Lemma run_validation_key_error :
  Forall (λ t, loaded_like t.2
                 (Examples.load_with Examples.orders_no_store t.1) = true)
    SCHEMAS
  ∧ run_validation (Examples.load_with Examples.orders_no_store)
    = (Raised (KeyError "store_code"),
       [(OK, Loaded "regions" 1 3); (OK, Loaded "products" 1 5);
        (OK, Loaded "stores" 1 8); (OK, Loaded "customers" 1 5);
        (OK, Loaded "orders" 1 11);
        (FAIL, MissingColumns "orders" ["store_code"])]).
Proof. split; [repeat constructor|vm_compute; reflexivity]. Qed.

(** The cross-table check has no such guard: it raises as soon as a key
    column it reads is absent, here the first one. *)
Lemma fk_raises_on_absent_column tables regions products stores customers orders :
  dict_get tables "regions" = ret regions →
  dict_get tables "products" = ret products →
  dict_get tables "stores" = ret stores →
  dict_get tables "customers" = ret customers →
  dict_get tables "orders" = ret orders →
  "store_code" ∉ columns orders →
  validate_referential_integrity tables = raise (KeyError "store_code").
Proof.
  intros Hr Hp Hs Hc Ho Habs. unfold validate_referential_integrity.
  rewrite Hr, Hp, Hs, Hc, Ho, !bind_ret_l.
  unfold fk_check at 1. rewrite (getitem_absent _ _ Habs).
  by rewrite !(bind_raised _ _ (KeyError "store_code")).
Qed.

(** *** The whole run *)

Lemma bind_assoc {A B C} (m : V A) (f : A → V B) (g : B → V C) :
  bind (bind m f) g = bind m (λ a, bind (f a) g).
Proof.
  destruct m as [[a|e] out]; simpl; [|done].
  destruct (f a) as [[b|e] out']; simpl; [|done].
  destruct (g b) as [r out'']. by rewrite app_assoc.
Qed.

Lemma bind_ext {A B} (m : V A) (f g : A → V B) :
  (∀ a, f a = g a) → bind m f = bind m g.
Proof. intros H. destruct m as [[a|e] out]; simpl; [|done]. by rewrite H. Qed.

Lemma load_tables_spec load_table names :
  load_tables load_table names
  = (Done (map (λ name, (name, load_table name)) names),
     map (λ name, (OK, Loaded name (n_rows (load_table name))
                         (length (columns (load_table name))))) names).
Proof.
  induction names as [|name names IH]; [done|]. cbn [load_tables map].
  rewrite IH. unfold _ok, print, bind, ret. simpl. by rewrite app_nil_r.
Qed.

Lemma run_checks_app ok cs1 cs2 :
  run_checks ok (cs1 ++ cs2)
  = bind (run_checks ok cs1) (λ ok', run_checks ok' cs2).
Proof.
  revert ok; induction cs1 as [|c cs1 IH]; intros ok; cbn [run_checks app].
  - by rewrite bind_ret_l.
  - rewrite bind_assoc. apply bind_ext. intros b. apply IH.
Qed.

Lemma check_table_run_checks ok name df :
  check_table ok name df
  = run_checks ok
      [validate_schema name df; validate_nulls name df;
       validate_dtypes name df; validate_allowed_values name df;
       validate_min_values name df; validate_uniqueness name df].
Proof.
  unfold check_table. cbn [run_checks].
  repeat (apply bind_ext; intros ?). by rewrite bind_ret_r.
Qed.

Lemma check_tables_run_checks ok tables :
  check_tables ok tables = run_checks ok (per_table_checks tables).
Proof.
  revert ok; induction tables as [|[name df] tables IH]; intros ok; [done|].
  cbn [check_tables]. unfold per_table_checks. cbn [map concat].
  rewrite run_checks_app, check_table_run_checks.
  apply bind_ext. intros b. apply IH.
Qed.

Lemma run_checks_spec ok (cs : list (V bool)) oks :
  Forall2 (λ (c : V bool) b, c.1 = Done b) cs oks →
  run_checks ok cs = (Done (ok && forallb id oks), concat (map snd cs)).
Proof.
  intros H. revert ok. induction H as [|c b cs oks Hc H IH]; intros ok.
  - simpl. by rewrite andb_true_r.
  - cbn [run_checks]. unfold and_assign.
    rewrite (bind_done c _ b Hc). cbn [fst snd ret bind].
    rewrite IH. simpl. by rewrite app_nil_r, andb_assoc.
Qed.

Lemma completes_all (cs : list (V bool)) :
  Forall (λ c : V bool, ∃ b, c.1 = Done b) cs →
  ∃ oks, Forall2 (λ (c : V bool) b, c.1 = Done b) cs oks.
Proof.
  induction 1 as [|c cs [b Hb] _ [oks IH]]; [by exists []|].
  exists (b :: oks). by constructor.
Qed.

Lemma schema_of_table name :
  name ∈ TABLE_PATHS → ∃ schema, (name, schema) ∈ SCHEMAS.
Proof.
  unfold TABLE_PATHS, SCHEMAS. intros H.
  repeat (apply elem_of_cons in H as [->|H];
          [eexists; apply list_elem_of_In; simpl; tauto|]).
  by apply elem_of_nil in H.
Qed.

Lemma per_table_checks_complete load_table names :
  (∀ name, name ∈ names → name ∈ TABLE_PATHS) →
  (∀ name schema, (name, schema) ∈ SCHEMAS →
     loaded_like schema (load_table name) = true) →
  Forall (λ c : V bool, ∃ b, c.1 = Done b)
    (per_table_checks (map (λ name, (name, load_table name)) names)).
Proof.
  intros Hnames Hload. induction names as [|name names IH]; [constructor|].
  unfold per_table_checks. cbn [map concat fst snd].
  destruct (schema_of_table name) as [schema Hs];
    [apply Hnames, elem_of_cons; by left|].
  pose proof (Hload _ _ Hs) as Hl.
  apply Forall_app. split.
  - unfold validate_schema, validate_nulls, validate_dtypes,
      validate_allowed_values, validate_min_values, validate_uniqueness.
    rewrite (dict_get_SCHEMAS _ _ Hs), !bind_ret_l.
    repeat constructor.
    + rewrite check_schema_spec. by eexists.
    + apply check_nulls_safe.
    + apply check_dtypes_safe.
    + apply check_allowed_values_safe.
    + apply check_min_values_safe. intros col min_val c.
      by apply (loaded_like_numeric name).
    + apply check_uniqueness_safe.
  - apply IH. intros n Hn. apply Hnames, elem_of_cons. by right.
Qed.

(** *** The cross-table check and the key columns it reads *)

Lemma fk_check_cases child_name child child_col parent_name parent
    parent_col sentinel :
  let check := fk_check child_name child child_col parent_name parent
                 parent_col sentinel in
  (∃ ok, check.1 = Done ok)
  ∨ (check.1 = Raised (KeyError child_col) ∧ child_col ∉ columns child)
  ∨ (check.1 = Raised (KeyError parent_col) ∧ parent_col ∉ columns parent).
Proof.
  intros check. unfold check, fk_check.
  destruct (decide (child_col ∈ columns child)) as [Hc|Hc].
  - destruct (getitem_present _ _ Hc) as (values & _ & ->).
    rewrite bind_ret_l.
    destruct (decide (parent_col ∈ columns parent)) as [Hp|Hp].
    + destruct (getitem_present _ _ Hp) as (keys & _ & ->).
      rewrite bind_ret_l. cbv zeta. left.
      destruct (0 <? _)%nat; by eexists.
    + right. right. by rewrite (getitem_absent _ _ Hp).
  - right. left. by rewrite (getitem_absent _ _ Hc).
Qed.

Lemma dict_get_tables (load_table : string → dataframe) name :
  name ∈ TABLE_PATHS →
  dict_get (map (λ name, (name, load_table name)) TABLE_PATHS) name
  = ret (load_table name).
Proof.
  unfold TABLE_PATHS. intros H.
  repeat (apply elem_of_cons in H as [->|H]; [reflexivity|]).
  by apply elem_of_nil in H.
Qed.

Lemma fk_raises_key_error (load_table : string → dataframe) :
  let fk := validate_referential_integrity
              (map (λ name, (name, load_table name)) TABLE_PATHS) in
  match fk.1 with
  | Done _ => True
  | Raised e =>
      ∃ name col, (name, col) ∈ key_columns
        ∧ e = KeyError col ∧ col ∉ columns (load_table name)
  end.
Proof.
  intros fk. unfold fk, validate_referential_integrity.
  rewrite !dict_get_tables by (apply list_elem_of_In; simpl; tauto).
  rewrite !bind_ret_l.
  assert (Hk : ∀ name col, In (name, col) key_columns → (name, col) ∈ key_columns)
    by (intros ? ?; apply list_elem_of_In).
  destruct (fk_check_cases "orders" (load_table "orders") "store_code"
              "stores" (load_table "stores") "store_code" (Some "store-0"))
    as [[ok1 H1]|[[H1 Ha]|[H1 Ha]]];
    [rewrite (bind_done _ _ _ H1); cbn [fst]
    |rewrite (bind_raised _ _ _ H1); cbn [fst];
     eexists _, _; split; [apply Hk|split; [reflexivity|exact Ha]];
     simpl; tauto..].
  destruct (fk_check_cases "orders" (load_table "orders") "customer_code"
              "customers" (load_table "customers") "customer_code"
              (Some "cust-0"))
    as [[ok2 H2]|[[H2 Ha]|[H2 Ha]]];
    [rewrite (bind_done _ _ _ H2); cbn [fst]
    |rewrite (bind_raised _ _ _ H2); cbn [fst];
     eexists _, _; split; [apply Hk|split; [reflexivity|exact Ha]];
     simpl; tauto..].
  destruct (fk_check_cases "orders" (load_table "orders") "product_code"
              "products" (load_table "products") "product_code"
              (Some "prd-0"))
    as [[ok3 H3]|[[H3 Ha]|[H3 Ha]]];
    [rewrite (bind_done _ _ _ H3); cbn [fst]
    |rewrite (bind_raised _ _ _ H3); cbn [fst];
     eexists _, _; split; [apply Hk|split; [reflexivity|exact Ha]];
     simpl; tauto..].
  destruct (fk_check_cases "stores" (load_table "stores") "region_name"
              "regions" (load_table "regions") "region_name" None)
    as [[ok4 H4]|[[H4 Ha]|[H4 Ha]]];
    [rewrite (bind_done _ _ _ H4); by cbn [fst]
    |rewrite (bind_raised _ _ _ H4); cbn [fst];
     eexists _, _; split; [apply Hk|split; [reflexivity|exact Ha]];
     simpl; tauto..].
Qed.




End ValidationFacts.

(** ** Names and loops of the database load *)

Module LoadToDbFacts.
Import Text LoadToDb AsciiText TextFacts CaseFacts.

(** *** Character classes *)

Lemma word_of_snake c : is_snake_char c = true → is_word c = true.
Proof. by_char c. Qed.

Lemma snake_of_lower_word c : is_word c = true → is_snake_char (lower_char c) = true.
Proof. by_char c. Qed.

Lemma snake_not_space c : is_snake_char c = true → is_space c = false.
Proof. by_char c. Qed.

Lemma snake_not_upper c : is_snake_char c = true → is_upper c = false.
Proof. by_char c. Qed.

Lemma underscore_lower_char c : is_underscore (lower_char c) = is_underscore c.
Proof. by_char c. Qed.

Lemma alnum_lower_char c : is_alnum (lower_char c) = is_alnum c.
Proof. by_char c. Qed.

Lemma underscore_not_alnum c : is_underscore c = true → is_alnum c = false.
Proof. by_char c. Qed.

Lemma space_not_alnum c : is_space c = true → is_alnum c = false.
Proof. by_char c. Qed.

Lemma non_word_not_alnum c : negb (is_word c) = true → is_alnum c = false.
Proof. by_char c. Qed.

Lemma snake_not_alnum c :
  is_snake_char c = true → is_alnum c = false → is_underscore c = true.
Proof. by_char c. Qed.

Lemma snake_head c :
  is_snake_char c = true → is_alpha c || is_underscore c = negb (is_digit c).
Proof. by_char c. Qed.

Lemma word_not_newline c : is_word c = true → Ascii.eqb c "010" = false.
Proof. by_char c. Qed.

(** *** Predicates on texts *)

Lemma all_chars_impl (p q : ascii → bool) s :
  (∀ c, p c = true → q c = true) → all_chars p s = true → all_chars q s = true.
Proof.
  intros Hpq. induction s as [|c s IH]; simpl; [done|].
  intros [Hc Hs]%andb_prop. rewrite (Hpq c Hc). by apply IH.
Qed.

Lemma all_chars_app p s t :
  all_chars p (s +:+ t) = all_chars p s && all_chars p t.
Proof.
  induction s as [|c s IH]; [done|]. rewrite app_cons. simpl.
  by rewrite IH, andb_assoc.
Qed.

Lemma underscore_ended_cons c s :
  s ≠ EmptyString → underscore_ended (String c s) = underscore_ended s.
Proof. by destruct s. Qed.

(** *** The two substitutions *)

Lemma all_chars_sub_runs p cls r s :
  p "_"%char = true → all_chars p s = true →
  all_chars p (sub_runs cls r s) = true.
Proof.
  intros Hu. revert r. induction s as [|c s IH]; intros r; simpl; [done|].
  intros [Hc Hs]%andb_prop.
  destruct (cls c); [destruct r|]; simpl; rewrite ?Hu, ?Hc; simpl; auto.
Qed.

Lemma sub_runs_non_word r s :
  all_chars is_word (sub_runs (λ c, negb (is_word c)) r s) = true.
Proof.
  revert r. induction s as [|c s IH]; intros r; simpl; [done|].
  destruct (is_word c) eqn:E; simpl.
  - by rewrite E, IH.
  - destruct r; simpl; by rewrite ?IH.
Qed.

Lemma sub_camel_step c d t :
  sub_camel (String c (String d t))
  = if (is_lower c || is_digit c) && is_upper d
    then String c (String "_" (String d (sub_camel t)))
    else String c (sub_camel (String d t)).
Proof. done. Qed.

Lemma all_chars_sub_camel p s :
  p "_"%char = true → all_chars p s = true → all_chars p (sub_camel s) = true.
Proof.
  intros Hu. remember (String.length s) as n eqn:Hn.
  revert s Hn. induction (lt_wf n) as [n _ IH]. intros s -> Hs.
  destruct s as [|c [|d t]]; [done|done|].
  rewrite sub_camel_step. simpl in Hs.
  apply andb_prop in Hs as [Hc Hs]. pose proof Hs as Hdt.
  apply andb_prop in Hs as [Hd Ht].
  destruct (_ && is_upper d).
  - simpl. rewrite Hc, Hu, Hd. simpl.
    apply (IH (String.length t)); [simpl; lia|done|done].
  - cbn [all_chars]. rewrite Hc. cbn [andb].
    apply (IH (String.length (String d t))); [simpl; lia|done|done].
Qed.

Lemma sub_runs_underscores r s :
  (r = true → underscore_led (sub_runs is_underscore r s) = false)
  ∧ no_double_underscore (sub_runs is_underscore r s) = true.
Proof.
  revert r. induction s as [|c s IH]; intros r; simpl; [done|].
  destruct (is_underscore c) eqn:E.
  - destruct (IH true) as [H1 H2]. destruct r; [done|].
    split; [done|]. simpl. by rewrite H1, H2.
  - destruct (IH false) as [H1 H2]. simpl. rewrite E. simpl. by rewrite H2.
Qed.

(** *** Stripping a class of characters *)

Lemma lstrip_chars_suffix cls s : ∃ pre, s = pre +:+ lstrip_chars cls s.
Proof.
  induction s as [|c s [pre IH]]; simpl; [by exists EmptyString|].
  destruct (cls c); [|by exists EmptyString].
  exists (String c pre). by rewrite app_cons, <- IH.
Qed.

Lemma lstrip_chars_led cls s :
  match lstrip_chars cls s with
  | EmptyString => True
  | String c _ => cls c = false
  end.
Proof. induction s as [|c s IH]; simpl; [done|]. by destruct (cls c) eqn:E. Qed.

Lemma all_chars_rstrip_chars p cls s :
  all_chars p s = true → all_chars p (rstrip_chars cls s) = true.
Proof.
  induction s as [|c s IH]; simpl; [done|]. intros [Hc Hs]%andb_prop.
  specialize (IH Hs). destruct (rstrip_chars cls s); simpl.
  - destruct (cls c); simpl; by rewrite ?Hc.
  - simpl in IH. by rewrite Hc, IH.
Qed.

Lemma rstrip_chars_led cls s :
  underscore_led s = false → underscore_led (rstrip_chars cls s) = false.
Proof.
  destruct s as [|c s]; simpl; [done|]. intros Hc.
  destruct (rstrip_chars cls s); [by destruct (cls c)|done].
Qed.

Lemma rstrip_chars_ended s :
  underscore_ended (rstrip_chars is_underscore s) = false.
Proof.
  induction s as [|c s IH]; simpl; [done|].
  destruct (rstrip_chars is_underscore s) as [|d t] eqn:E.
  - destruct (is_underscore c) eqn:Ec; simpl; by rewrite ?Ec.
  - by rewrite underscore_ended_cons.
Qed.

Lemma rstrip_chars_no_double cls s :
  no_double_underscore s = true →
  no_double_underscore (rstrip_chars cls s) = true.
Proof.
  induction s as [|c s IH]; simpl; [done|]. intros [Hc Hs]%andb_prop.
  specialize (IH Hs).
  destruct (rstrip_chars cls s) as [|d t] eqn:E.
  - destruct (cls c); simpl; [done|]. by rewrite andb_false_r.
  - change (negb (is_underscore c && is_underscore d)
            && no_double_underscore (String d t) = true).
    rewrite IH, andb_true_r.
    destruct (is_underscore c); [|done]. simpl in *.
    apply negb_true_iff in Hc. apply negb_true_iff.
    destruct s as [|d' t']; [done|]. simpl in E, Hc.
    destruct (rstrip_chars cls t');
      [destruct (cls d'); [done|]|]; by injection E as <- _.
Qed.

(** A part of a text that ends where the text ends keeps what the text
    has: its character class and the absence of doubled underscores, and,
    when it is not empty, the last character. *)
Lemma suffix_shape pre s :
  all_chars is_snake_char (pre +:+ s) = true →
  underscore_ended (pre +:+ s) = false →
  no_double_underscore (pre +:+ s) = true →
  all_chars is_snake_char s = true
  ∧ underscore_ended s = false
  ∧ no_double_underscore s = true.
Proof.
  induction pre as [|c pre IH]; [by rewrite app_nil_l|].
  rewrite app_cons. cbn [all_chars no_double_underscore].
  intros [_ Ha]%andb_prop He [_ Hd]%andb_prop. apply IH; [done| |done].
  destruct (pre +:+ s) eqn:E; [done|]. by rewrite underscore_ended_cons in He.
Qed.

Lemma drop_chars_suffix n s : ∃ pre, s = pre +:+ drop_chars n s.
Proof.
  revert s. induction n as [|n IH]; intros s; [by exists EmptyString|].
  destruct s as [|c s]; [by exists EmptyString|]. simpl.
  destruct (IH s) as [pre Hpre]. exists (String c pre).
  by rewrite app_cons, <- Hpre.
Qed.

(** *** The shape of a snake-cased name *)

Lemma lower_shape s :
  all_chars is_word s = true →
  all_chars is_snake_char (lower s) = true
  ∧ underscore_led (lower s) = underscore_led s
  ∧ underscore_ended (lower s) = underscore_ended s
  ∧ no_double_underscore (lower s) = no_double_underscore s.
Proof.
  induction s as [|c s IH]; simpl; [done|]. intros [Hc Hs]%andb_prop.
  destruct (IH Hs) as (H1 & H2 & H3 & H4).
  rewrite (snake_of_lower_word c Hc), H1, underscore_lower_char, H2, H4.
  split_and!; try done.
  destruct s as [|d t]; simpl in *; [done|]. exact H3.
Qed.

Lemma snake_case_shaped name : snake_shaped (snake_case name) = true.
Proof.
  unfold snake_case, strip_chars.
  set (b := sub_camel _).
  assert (Hb : all_chars is_word b = true).
  { apply all_chars_sub_camel; [done|]. apply sub_runs_non_word. }
  set (d := sub_runs is_underscore false b).
  assert (Hd : all_chars is_word d = true) by by apply all_chars_sub_runs.
  destruct (sub_runs_underscores false b) as [_ Hdd]. fold d in Hdd.
  destruct (lstrip_chars_suffix is_underscore d) as [pre Hpre].
  pose proof (lstrip_chars_led is_underscore d) as Hled.
  set (e := lstrip_chars is_underscore d) in *.
  assert (He : all_chars is_word e = true).
  { rewrite Hpre, all_chars_app in Hd. by apply andb_prop in Hd as [_ ?]. }
  assert (Hee : no_double_underscore e = true).
  { clear -Hpre Hdd. rewrite Hpre in Hdd. clear Hpre.
    induction pre as [|c pre IH]; [by rewrite app_nil_l in Hdd|].
    rewrite app_cons in Hdd. simpl in Hdd.
    apply andb_prop in Hdd as [_ Hdd]. auto. }
  assert (Hel : underscore_led e = false) by by destruct e.
  set (f := rstrip_chars is_underscore e).
  assert (Hf : all_chars is_word f = true) by by apply all_chars_rstrip_chars.
  destruct (lower_shape f Hf) as (H1 & H2 & H3 & H4).
  unfold snake_shaped. rewrite H1, H2, H3, H4. unfold f.
  by rewrite rstrip_chars_led, rstrip_chars_ended, rstrip_chars_no_double.
Qed.

(** *** A snake-cased name is left as it is *)

Lemma sub_runs_none cls r s :
  all_chars (λ c, negb (cls c)) s = true → sub_runs cls r s = s.
Proof.
  revert r. induction s as [|c s IH]; intros r; simpl; [done|].
  intros [Hc Hs]%andb_prop. apply negb_true_iff in Hc. rewrite Hc.
  by rewrite IH.
Qed.

Lemma sub_camel_none s :
  all_chars (λ c, negb (is_upper c)) s = true → sub_camel s = s.
Proof.
  induction s as [|c s IH]; [done|]. cbn [all_chars].
  intros [Hc Hs]%andb_prop. destruct s as [|d t]; [done|].
  rewrite sub_camel_step.
  pose proof Hs as Hs'. simpl in Hs'. apply andb_prop in Hs' as [Hd _].
  apply negb_true_iff in Hd. rewrite Hd, andb_false_r. by rewrite (IH Hs).
Qed.

Lemma sub_runs_single r s :
  no_double_underscore s = true → (r = true → underscore_led s = false) →
  sub_runs is_underscore r s = s.
Proof.
  revert r. induction s as [|c s IH]; intros r; simpl; [done|].
  intros [Hc Hs]%andb_prop Hr. destruct (is_underscore c) eqn:E.
  - destruct r; [by specialize (Hr eq_refl)|].
    simpl in Hc. apply negb_true_iff in Hc.
    rewrite (IH true); [|done|done]. by by_char c.
  - by rewrite (IH false).
Qed.

Lemma lstrip_chars_fix s :
  underscore_led s = false → lstrip_chars is_underscore s = s.
Proof. destruct s as [|c s]; simpl; [done|]. by intros ->. Qed.

Lemma rstrip_chars_cons cls c s :
  rstrip_chars cls (String c s)
  = match rstrip_chars cls s with
    | EmptyString => if cls c then EmptyString else String c EmptyString
    | String _ _ as t' => String c t'
    end.
Proof. done. Qed.

Lemma rstrip_chars_fix s :
  underscore_ended s = false → rstrip_chars is_underscore s = s.
Proof.
  induction s as [|c s IH]; [done|]. destruct s as [|d t].
  - simpl. by intros ->.
  - intros H. rewrite underscore_ended_cons in H by done.
    by rewrite rstrip_chars_cons, (IH H).
Qed.

Lemma no_space_ends s :
  all_chars (λ c, negb (is_space c)) s = true →
  space_led s = false ∧ space_ended s = false.
Proof.
  induction s as [|c s IH]; [done|]. cbn [all_chars].
  intros [Hc Hs]%andb_prop. apply negb_true_iff in Hc.
  destruct (IH Hs) as [_ He]. split; [done|].
  destruct s as [|d t]; [done|]. exact He.
Qed.

Lemma snake_shaped_fixed s : snake_shaped s = true → snake_case s = s.
Proof.
  unfold snake_shaped. intros [[[Ha Hl]%andb_prop He]%andb_prop Hd]%andb_prop.
  apply negb_true_iff in Hl, He.
  assert (Hns : all_chars (λ c, negb (is_space c)) s = true).
  { revert Ha. apply all_chars_impl. intros c Hc.
    by rewrite (snake_not_space c Hc). }
  assert (Hw : all_chars (λ c, negb (negb (is_word c))) s = true).
  { revert Ha. apply all_chars_impl. intros c Hc.
    by rewrite (word_of_snake c Hc). }
  assert (Hnu : all_chars (λ c, negb (is_upper c)) s = true).
  { revert Ha. apply all_chars_impl. intros c Hc.
    by rewrite (snake_not_upper c Hc). }
  destruct (no_space_ends s Hns) as [Hsl Hse].
  unfold snake_case, strip_chars.
  rewrite (strip_fix s Hsl Hse).
  rewrite (sub_runs_none (λ c, negb (is_word c)) false s Hw).
  rewrite (sub_camel_none s Hnu).
  rewrite (sub_runs_single false s Hd) by done.
  rewrite (lstrip_chars_fix s Hl), (rstrip_chars_fix s He).
  by apply lower_fix.
Qed.


(** *** Letters and digits survive the renaming *)

Lemma lstrip_is_chars s : lstrip s = lstrip_chars is_space s.
Proof. induction s as [|c s IH]; simpl; [done|]. by rewrite IH. Qed.

Lemma rstrip_is_chars s : rstrip s = rstrip_chars is_space s.
Proof. induction s as [|c s IH]; simpl; [done|]. by rewrite IH. Qed.

Section Alnum.
Variable cls : ascii → bool.
Hypothesis cls_not_alnum : ∀ c, cls c = true → is_alnum c = false.

Lemma any_alnum_lstrip s :
  any_char is_alnum (lstrip_chars cls s) = any_char is_alnum s.
Proof.
  induction s as [|c s IH]; simpl; [done|].
  destruct (cls c) eqn:E; [|done]. by rewrite (cls_not_alnum c E).
Qed.

Lemma any_alnum_rstrip s :
  any_char is_alnum (rstrip_chars cls s) = any_char is_alnum s.
Proof.
  induction s as [|c s IH]; simpl; [done|]. rewrite <- IH.
  destruct (rstrip_chars cls s); simpl; [|done].
  destruct (cls c) eqn:E; simpl; [|done]. by rewrite (cls_not_alnum c E).
Qed.

Lemma any_alnum_sub_runs r s :
  any_char is_alnum (sub_runs cls r s) = any_char is_alnum s.
Proof.
  revert r. induction s as [|c s IH]; intros r; simpl; [done|].
  destruct (cls c) eqn:E; simpl; [|by rewrite IH].
  rewrite (cls_not_alnum c E). destruct r; simpl; by rewrite IH.
Qed.

End Alnum.

Lemma any_alnum_sub_camel s :
  any_char is_alnum (sub_camel s) = any_char is_alnum s.
Proof.
  remember (String.length s) as n eqn:Hn.
  revert s Hn. induction (lt_wf n) as [n _ IH]. intros s ->.
  destruct s as [|c [|d t]]; [done|done|]. rewrite sub_camel_step.
  destruct (_ && is_upper d).
  - cbn [any_char]. rewrite (IH (String.length t)); [|simpl; lia|done].
    by rewrite (underscore_not_alnum "_").
  - change (is_alnum c || any_char is_alnum (sub_camel (String d t))
            = is_alnum c || any_char is_alnum (String d t)).
    by rewrite (IH (String.length (String d t))); [|simpl; lia|].
Qed.

Lemma any_alnum_lower s : any_char is_alnum (lower s) = any_char is_alnum s.
Proof.
  induction s as [|c s IH]; simpl; [done|]. by rewrite alnum_lower_char, IH.
Qed.

Lemma any_alnum_snake_case name :
  any_char is_alnum (snake_case name) = any_char is_alnum name.
Proof.
  unfold snake_case, strip_chars, strip.
  rewrite any_alnum_lower.
  rewrite (any_alnum_rstrip _ underscore_not_alnum).
  rewrite (any_alnum_lstrip _ underscore_not_alnum).
  rewrite (any_alnum_sub_runs _ underscore_not_alnum).
  rewrite any_alnum_sub_camel.
  rewrite (any_alnum_sub_runs _ non_word_not_alnum).
  rewrite rstrip_is_chars, lstrip_is_chars.
  rewrite (any_alnum_rstrip _ space_not_alnum).
  by rewrite (any_alnum_lstrip _ space_not_alnum).
Qed.

Lemma snake_case_empty name :
  snake_case name = EmptyString ↔ any_char is_alnum name = false.
Proof.
  rewrite <- (any_alnum_snake_case name).
  pose proof (snake_case_shaped name) as Hs.
  destruct (snake_case name) as [|c t]; [done|]. split; [done|].
  unfold snake_shaped in Hs.
  apply andb_prop in Hs as [[[[Ec _]%andb_prop Hl]%andb_prop _]%andb_prop _].
  simpl. intros [Hc _]%orb_false_elim.
  simpl in Hl. by rewrite (snake_not_alnum c Ec Hc) in Hl.
Qed.

(** *** Names the guard of the load accepts *)

Lemma identifier_tail_word t :
  all_chars is_word t = true → identifier_tail t = true.
Proof.
  induction t as [|c t IH]; simpl; [done|].
  intros [Hc Ht]%andb_prop. rewrite Hc. by apply IH.
Qed.

Lemma identifier_tail_spec t :
  identifier_tail t = true
  ↔ all_chars is_word t = true
    ∨ ∃ t', all_chars is_word t' = true ∧ t = t' +:+ String "010" EmptyString.
Proof.
  induction t as [|c t IH]; simpl.
  - split; [by left|done].
  - destruct (is_word c) eqn:E; simpl.
    + rewrite IH. split.
      * intros [H|(t' & H & ->)]; [by left|right].
        exists (String c t'). simpl. by rewrite E, H.
      * intros [H|(t' & H & Ht)]; [by left|right].
        destruct t' as [|c' t'].
        -- rewrite app_nil_l in Ht. injection Ht as -> _. done.
        -- rewrite app_cons in Ht. injection Ht as <- ->.
           exists t'. simpl in H. by rewrite E in H.
    + rewrite andb_true_iff, Ascii.eqb_eq, String.eqb_eq. split.
      * intros [-> ->]. right. by exists EmptyString.
      * intros [H|(t' & H & Ht)]; [done|].
        destruct t' as [|c' t'].
        -- rewrite app_nil_l in Ht. by injection Ht as -> ->.
        -- rewrite app_cons in Ht. injection Ht as <- ->.
           simpl in H. by rewrite E in H.
Qed.

Lemma snake_shaped_valid s :
  snake_shaped s = true →
  validate_schema_name s
  = match s with EmptyString => false | String c _ => negb (is_digit c) end.
Proof.
  unfold snake_shaped. intros [[[Ha _]%andb_prop _]%andb_prop _]%andb_prop.
  destruct s as [|c t]; [done|]. simpl in *.
  apply andb_prop in Ha as [Hc Ht].
  rewrite (snake_head c Hc), identifier_tail_word; [by rewrite andb_true_r|].
  revert Ht. apply all_chars_impl, word_of_snake.
Qed.

(** *** Stripping prefixes *)

Lemma strip_prefix_shaped t p :
  snake_shaped t = true →
  snake_shaped (strip_prefix t p) = true
  ∧ ∃ pre, t = pre +:+ strip_prefix t p.
Proof.
  intros Ht. unfold strip_prefix.
  destruct (String.prefix p t); [|split; [done|by exists EmptyString]].
  destruct (drop_chars_suffix (String.length p) t) as [pre1 H1].
  destruct (lstrip_chars_suffix is_underscore
              (drop_chars (String.length p) t)) as [pre2 H2].
  pose proof (lstrip_chars_led is_underscore
                (drop_chars (String.length p) t)) as Hled.
  set (e := lstrip_chars is_underscore _) in *.
  assert (He : t = (pre1 +:+ pre2) +:+ e).
  { rewrite append_assoc, <- H2. exact H1. }
  split; [|by exists (pre1 +:+ pre2)].
  unfold snake_shaped in Ht.
  apply andb_prop in Ht as [[[Ha _]%andb_prop Hend%negb_true_iff]%andb_prop Hd].
  rewrite He in Ha, Hend, Hd.
  destruct (suffix_shape _ _ Ha Hend Hd) as (Ha' & Hend' & Hd').
  unfold snake_shaped. rewrite Ha', Hend', Hd'.
  by destruct e as [|c e']; [|simpl; rewrite Hled].
Qed.

Lemma strip_prefixes_shaped ps t :
  snake_shaped t = true →
  snake_shaped (foldl strip_prefix t ps) = true
  ∧ ∃ pre, t = pre +:+ foldl strip_prefix t ps.
Proof.
  revert t. induction ps as [|p ps IH]; intros t Ht; simpl.
  - split; [done|by exists EmptyString].
  - destruct (strip_prefix_shaped t p Ht) as [Hs [pre1 H1]].
    destruct (IH _ Hs) as [Hs' [pre2 H2]]. split; [done|].
    exists (pre1 +:+ pre2). rewrite append_assoc, <- H2. exact H1.
Qed.

Lemma infer_table_name_shaped stem env :
  snake_shaped (infer_table_name stem env) = true
  ∧ ∃ pre, snake_case stem = pre +:+ infer_table_name stem env.
Proof.
  unfold infer_table_name.
  destruct (String.eqb (strip env) EmptyString).
  - split; [apply snake_case_shaped|by exists EmptyString].
  - apply strip_prefixes_shaped, snake_case_shaped.
Qed.

(** *** The properties *)

(** X1: a name made by [snake_case] holds lower-case letters, digits and
    underscores only, neither starts nor ends with an underscore, and has
    no two underscores in a row. *)
Theorem snake_case_shape (name : string) :
  all_chars is_snake_char (snake_case name) = true
  ∧ underscore_led (snake_case name) = false
  ∧ underscore_ended (snake_case name) = false
  ∧ no_double_underscore (snake_case name) = true.
Proof.
  pose proof (snake_case_shaped name) as H. unfold snake_shaped in H.
  apply andb_prop in H as [[[Ha Hl]%andb_prop He]%andb_prop Hd].
  apply negb_true_iff in Hl, He. done.
Qed.

(** X2: the ASCII names [snake_case] leaves unchanged are exactly the names
    in snake case; its results on ASCII names are among them, so applying
    it twice to an ASCII name gives what applying it once gives. *)
Theorem snake_case_idempotent (name : string) :
  ascii_text name = true →
  (snake_case name = name ↔ snake_shaped name = true)
  ∧ snake_case (snake_case name) = snake_case name.
Proof.
  intros _. split.
  - split; [|apply snake_shaped_fixed].
    intros <-. apply snake_case_shaped.
  - apply snake_shaped_fixed, snake_case_shaped.
Qed.

Lemma snake_case_idempotent_witness :
  (snake_case "Order ID" = "Order ID" ↔ snake_shaped "Order ID" = true)
  ∧ snake_case (snake_case "Order ID") = snake_case "Order ID".
Proof. exact (snake_case_idempotent "Order ID" eq_refl). Defined.

(** X3: [validate_schema_name] accepts the identifiers (a letter or an
    underscore, then letters, digits and underscores) and the identifiers
    followed by one line feed, and nothing else. *)
Theorem validate_schema_name_accepts (schema : string) :
  validate_schema_name schema = true
  ↔ identifier schema = true
    ∨ ∃ id, identifier id = true ∧ schema = id +:+ String "010" EmptyString.
Proof.
  destruct schema as [|c t]; simpl.
  - split; [done|]. intros [H|(id & H & Hid)]; [done|].
    destruct id; [done|]. by rewrite app_cons in Hid.
  - rewrite !andb_true_iff, identifier_tail_spec. split.
    + intros [Hc [Ht|(t' & Ht & ->)]]; [by left|right].
      exists (String c t'). simpl. by rewrite Hc, Ht.
    + intros [[Hc Ht]|(id & H & Hid)]; [split; [done|by left]|].
      destruct id as [|c' id]; [done|].
      rewrite app_cons in Hid. injection Hid as <- ->.
      simpl in H. apply andb_prop in H as [Hc Ht].
      split; [done|]. right. by exists id.
Qed.

(** X4: for a file with an ASCII stem, and ASCII prefixes to strip, the
    table name inferred is a final part of the snake-cased stem, itself in
    snake case; it is the snake-cased stem when [TABLE_PREFIX_STRIP] is
    blank; and the name guard of [load_csv_to_raw] accepts it exactly when
    it is not empty and does not start with a digit. *)
Theorem infer_table_name_valid (stem TABLE_PREFIX_STRIP : string) :
  ascii_text stem = true → ascii_text TABLE_PREFIX_STRIP = true →
  let table := infer_table_name stem TABLE_PREFIX_STRIP in
  snake_shaped table = true
  ∧ (∃ pre, snake_case stem = pre +:+ table)
  ∧ (strip TABLE_PREFIX_STRIP = EmptyString → table = snake_case stem)
  ∧ (validate_schema_name table = true
     ↔ table ≠ EmptyString ∧ not_digit_led table = true).
Proof.
  intros _ _ table.
  destruct (infer_table_name_shaped stem TABLE_PREFIX_STRIP) as [Hs Hpre].
  fold table in Hs, Hpre. split_and!; [done|done| |].
  - intros H. unfold table, infer_table_name. by rewrite H.
  - rewrite (snake_shaped_valid table Hs).
    destruct table as [|c t]; simpl; [|split; [done|tauto]].
    split; [done|]. by intros [? _].
Qed.

Lemma infer_table_name_valid_witness :
  let table := infer_table_name "raw_Sales Orders" "raw_, stg_" in
  snake_shaped table = true
  ∧ (∃ pre, snake_case "raw_Sales Orders" = pre +:+ table)
  ∧ (strip "raw_, stg_" = EmptyString → table = snake_case "raw_Sales Orders")
  ∧ (validate_schema_name table = true
     ↔ table ≠ EmptyString ∧ not_digit_led table = true).
Proof.
  exact (infer_table_name_valid "raw_Sales Orders" "raw_, stg_" eq_refl eq_refl).
Defined.



(** *** Quoted names *)

Lemma word_not_quote c :
  is_word c = true → Ascii.eqb c double_quote = false.
Proof. by_char c. Qed.

Lemma head_not_quote c :
  is_alpha c || is_underscore c = true → Ascii.eqb c double_quote = false.
Proof. by_char c. Qed.

Lemma identifier_tail_no_quote t :
  identifier_tail t = true → count_quotes t = 0.
Proof.
  induction t as [|c t IH]; simpl; [done|].
  destruct (is_word c) eqn:E.
  - intros H. by rewrite (word_not_quote c E), (IH H).
  - intros [->%Ascii.eqb_eq ->%String.eqb_eq]%andb_prop. done.
Qed.

Lemma validated_no_quote s :
  validate_schema_name s = true → count_quotes s = 0.
Proof.
  destruct s as [|c t]; simpl; [done|].
  intros [Hc Ht]%andb_prop.
  by rewrite (head_not_quote c Hc), (identifier_tail_no_quote t Ht).
Qed.

Lemma count_quotes_app s t :
  count_quotes (s +:+ t) = count_quotes s + count_quotes t.
Proof.
  induction s as [|c s IH]; [done|]. rewrite app_cons. simpl.
  rewrite IH. lia.
Qed.

Lemma count_quotes_quoted name : count_quotes (quoted name) = 2 + count_quotes name.
Proof. unfold quoted. simpl. rewrite count_quotes_app. simpl. lia. Qed.

(** X19: a name that reaches a statement sent to the database has passed
    the name guard and holds no double quote, so that the only double
    quotes of the statement are the delimiters written around the names:
    two in the statement of [ensure_schema], four in the query of
    [get_table_row_count]. *)
Theorem quoted_names_stay_quoted (schema table : string) :
  (∀ sql, ensure_schema schema = Some sql →
     count_quotes schema = 0 ∧ count_quotes sql = 2)
  ∧ (∀ sql, row_count_query schema table = Some sql →
       count_quotes schema = 0 ∧ count_quotes table = 0
       ∧ count_quotes sql = 4).
Proof.
  split.
  - intros sql. unfold ensure_schema.
    destruct (validate_schema_name schema) eqn:Es; [|done].
    simpl. intros [= <-]. pose proof (validated_no_quote _ Es) as H0.
    split; [done|].
    rewrite !count_quotes_app, count_quotes_quoted, H0. reflexivity.
  - intros sql. unfold row_count_query.
    destruct (validate_schema_name schema) eqn:Es; [|done].
    destruct (validate_schema_name table) eqn:Et; [|done].
    simpl. intros [= <-]. pose proof (validated_no_quote _ Es) as H0.
    pose proof (validated_no_quote _ Et) as H1. split_and!; [done|done|].
    rewrite !count_quotes_app, !count_quotes_quoted, H0, H1. reflexivity.
Qed.

Lemma quoted_names_stay_quoted_witness :
  ∃ sql, ensure_schema "raw" = Some sql ∧ count_quotes sql = 2.
Proof.
  destruct (quoted_names_stay_quoted "raw" "orders") as [H _].
  eexists. split; [reflexivity|]. by apply H.
Defined.

(** *** The loops of [main] *)

Section MainFacts.
Context {World : Type}.
Variable connection_test : World → bool * World.
Variable stem : string → string.
Variable load_chunks : string → string → string → World → bool * World.
Variable MAX_RETRIES : Z.
Variable RAW_SCHEMA TABLE_PREFIX_STRIP : string.

Local Abbreviation loop := (connectivity_loop World connection_test MAX_RETRIES).
Local Abbreviation after := (world_after World connection_test).
Local Abbreviation test := (connects World connection_test).

Lemma world_after_S k w :
  after (S k) w = after k (connection_test w).2.
Proof. unfold world_after. by rewrite Nat.iter_succ_r. Qed.

Lemma connects_S k w : test (S k) w = test k (connection_test w).2.
Proof. unfold connects. by rewrite world_after_S. Qed.

Lemma connectivity_loop_spec a len w :
  (0 < len → Z.of_nat (a + len) = MAX_RETRIES) →
  match loop (map Z.of_nat (seq a len)) w with
  | (ok, n, w') =>
      w' = after n w
      ∧ n ≤ len
      ∧ (∀ k, S k < n → test k w = false)
      ∧ (ok = true → n = 0 ∧ len = 0 ∨ 0 < n ∧ test (n - 1) w = true)
      ∧ (ok = false → n = len ∧ 0 < n ∧ test (n - 1) w = false)
  end.
Proof.
  revert a w. induction len as [|len IH]; intros a w Hm.
  - simpl. split_and!; try done; [lia|by left].
  - cbn [seq map connectivity_loop].
    destruct (connection_test w) as [connected w1] eqn:Et.
    assert (Ht : test 0 w = connected) by (unfold connects; simpl; by rewrite Et).
    assert (Hw : (connection_test w).2 = w1) by by rewrite Et.
    destruct connected.
    + split_and!.
      * unfold world_after. simpl. by rewrite Et.
      * lia.
      * intros k Hk. lia.
      * intros _. right. split; [lia|done].
      * done.
    + destruct (Z.ltb_spec (Z.of_nat a) (MAX_RETRIES - 1)) as [Hlt|Hge].
      * specialize (IH (S a) w1).
        destruct (loop (map Z.of_nat (seq (S a) len)) w1) as [[ok n] w'].
        destruct IH as (H1 & H2 & H3 & H4 & H5); [lia|].
        split_and!.
        -- by rewrite world_after_S, Hw.
        -- lia.
        -- intros [|k] Hk; [done|]. rewrite connects_S, Hw. apply H3. lia.
        -- intros Hok. right. destruct (H4 Hok) as [[-> ->]|[Hn Hc]]; [lia|].
           split; [lia|]. replace (S n - 1) with (S (n - 1)) by lia.
           by rewrite connects_S, Hw.
        -- intros Hok. destruct (H5 Hok) as (-> & Hn & Hc).
           split_and!; [done|lia|].
           replace (S len - 1) with (S (len - 1)) by lia.
           by rewrite connects_S, Hw.
      * assert (len = 0) as -> by lia. split_and!.
        -- unfold world_after. simpl. by rewrite Et.
        -- lia.
        -- intros k Hk. lia.
        -- done.
        -- intros _. split_and!; [done|lia|done].
Qed.

(** X6: the connectivity check of [main] makes at most [MAX_RETRIES] tests,
    one after the other, and stops at the first that goes through; it
    raises exactly when [MAX_RETRIES] tests were made and all failed. With
    [MAX_RETRIES] at or below zero no test is made and the check passes. *)
Theorem connectivity_check_attempts (w : World) :
  match connectivity_check World connection_test MAX_RETRIES w with
  | (ok, n, w') =>
      w' = after n w
      ∧ (Z.of_nat n ≤ Z.max 0 MAX_RETRIES)%Z
      ∧ (∀ k, S k < n → test k w = false)
      ∧ (ok = true →
         n = 0 ∧ (MAX_RETRIES ≤ 0)%Z ∨ 0 < n ∧ test (n - 1) w = true)
      ∧ (ok = false →
         Z.of_nat n = MAX_RETRIES ∧ 0 < n ∧ test (n - 1) w = false)
  end.
Proof.
  unfold connectivity_check, range.
  pose proof (connectivity_loop_spec 0 (Z.to_nat MAX_RETRIES) w) as H.
  destruct (loop _ w) as [[ok n] w'].
  destruct H as (H1 & H2 & H3 & H4 & H5); [lia|].
  split_and!; [done|lia|done| |].
  - intros Hok. destruct (H4 Hok) as [[-> Hz]|?]; [left; split; [done|lia]|by right].
  - intros Hok. destruct (H5 Hok) as (-> & Hn & Hc). split_and!; [lia|done|done].
Qed.

Local Abbreviation files :=
  (load_files World stem load_chunks RAW_SCHEMA TABLE_PREFIX_STRIP).
Local Abbreviation bad := (refused stem TABLE_PREFIX_STRIP).

Lemma load_files_spec csv_files successful failed w :
  match files csv_files successful failed w with
  | (successful', failed', w') =>
      successful' + failed' = successful + failed + length csv_files
      ∧ failed + length (List.filter bad csv_files) ≤ failed'
  end.
Proof.
  revert successful failed w.
  induction csv_files as [|p ps IH]; intros successful failed w.
  - simpl. split_and!; lia.
  - cbn [load_files List.filter length]. unfold load_csv_to_raw.
    assert (Hb : bad p = negb (validate_schema_name
                           (infer_table_name (stem p) TABLE_PREFIX_STRIP)))
      by done.
    rewrite Hb. clear Hb.
    destruct (validate_schema_name RAW_SCHEMA) eqn:Es;
      destruct (validate_schema_name (infer_table_name (stem p) _)) eqn:Et;
      cbn [negb orb].
    + destruct (load_chunks p RAW_SCHEMA _ w) as [[] w1].
      * specialize (IH (successful + 1) failed w1).
        destruct (files ps _ _ w1) as [[s' f'] w'].
        destruct IH as (H1 & H2). split_and!; lia.
      * specialize (IH successful (failed + 1) w1).
        destruct (files ps _ _ w1) as [[s' f'] w'].
        destruct IH as (H1 & H2). split_and!; lia.
    + specialize (IH successful (failed + 1) w).
      destruct (files ps _ _ w) as [[s' f'] w'].
      destruct IH as (H1 & H2). split_and!; [lia|simpl; lia].
    + specialize (IH successful (failed + 1) w).
      destruct (files ps _ _ w) as [[s' f'] w'].
      destruct IH as (H1 & H2). split_and!; lia.
    + specialize (IH successful (failed + 1) w).
      destruct (files ps _ _ w) as [[s' f'] w'].
      destruct IH as (H1 & H2). split_and!; [lia|simpl; lia].
Qed.

(** X7: in a run of [main] that reaches the loop over the files, that is
    with a [RAW_SCHEMA] that [ensure_schema] accepted, the loop goes
    through every file, whatever the files before it did: the two counts
    add up to the number of files. A file whose inferred table name the
    name guard refuses counts as failed, so that [main] ends on
    [RuntimeError] as soon as there is one. *)
Theorem load_files_counts (csv_files : list string) (w : World) :
  validate_schema_name RAW_SCHEMA = true →
  match files csv_files 0 0 w with
  | (successful, failed, w') =>
      successful + failed = length csv_files
      ∧ length (List.filter bad csv_files) ≤ failed
      ∧ (existsb bad csv_files = true → raises_runtime_error failed = true)
  end.
Proof.
  intros _. pose proof (load_files_spec csv_files 0 0 w) as H.
  destruct (files csv_files 0 0 w) as [[s f] w'].
  destruct H as (H1 & H2). split_and!; [lia|lia|].
  intros (p & Hin & Hp)%existsb_exists.
  assert (Hf : In p (List.filter bad csv_files)) by by apply filter_In.
  unfold raises_runtime_error. apply Nat.ltb_lt.
  destruct (List.filter bad csv_files); [done|simpl in H2; lia].
Qed.

End MainFacts.

Lemma load_files_counts_witness :
  match load_files nat id (λ _ _ _ w, (true, S w)) "raw" ""
          ["Sales Orders"; "2024"] 0 0 0 with
  | (successful, failed, w') =>
      successful + failed = 2
      ∧ length (List.filter (refused id "") ["Sales Orders"; "2024"]) ≤ failed
      ∧ (existsb (refused id "") ["Sales Orders"; "2024"] = true →
         raises_runtime_error failed = true)
  end.
Proof.
  exact (load_files_counts id (λ _ _ _ w, (true, S w)) "raw" "" 
           ["Sales Orders"; "2024"] 0 eq_refl).
Defined.

End LoadToDbFacts.

(** ** What the checks of the validator decide *)

Module VerdictFacts.
Import Table Validation Verdicts ValidationFacts.
Local Open Scope validator_scope.

(** *** A loop whose body fails or passes *)

Lemma for_each_flags {A} (xs : list A) (body : A → V bool) (bad : A → bool)
    (msg : A → message) ok :
  (∀ x, x ∈ xs →
     body x = if bad x then (Done false, [(FAIL, msg x)]) else (Done true, [])) →
  for_each xs body ok
  = (Done (ok && negb (existsb bad xs)),
     map (λ x, (FAIL, msg x)) (List.filter bad xs)).
Proof.
  revert ok. induction xs as [|x xs IH]; intros ok H.
  - simpl. by rewrite andb_true_r.
  - cbn [for_each existsb List.filter].
    rewrite (H x) by (apply elem_of_cons; by left).
    destruct (bad x); cbn [bind]; rewrite IH
      by (intros y Hy; apply H, elem_of_cons; by right);
      simpl; by destruct ok.
Qed.

Lemma fail_then_false m :
  (_ <- _fail m ; ret false) = (Done false, [(FAIL, m)]) :> V bool.
Proof. done. Qed.

Lemma lookup_has_column df col :
  has_column df col = bool_decide (is_Some (lookup_column col df)).
Proof.
  unfold has_column. apply bool_decide_ext.
  destruct (lookup_column col df) as [c|] eqn:E.
  - split; [by eexists|]. intros _.
    destruct (decide (col ∈ columns df)) as [|Hn]; [done|].
    apply DatesFacts.lookup_column_None in Hn. congruence.
  - apply DatesFacts.lookup_column_None in E. split; [done|].
    by intros [? ?].
Qed.

Lemma getitem_lookup df col c :
  lookup_column col df = Some c → getitem df col = ret c.
Proof. unfold getitem. by intros ->. Qed.

Lemma cells_of_lookup df col c :
  lookup_column col df = Some c → cells_of df col = col_cells c.
Proof. unfold cells_of. by intros ->. Qed.

Lemma cells_of_absent df col :
  lookup_column col df = None → cells_of df col = [].
Proof. unfold cells_of. by intros ->. Qed.

Lemma existsb_false_Forall {A} (p : A → bool) l :
  existsb p l = false ↔ Forall (λ x, p x = false) l.
Proof.
  induction l as [|x l IH]; simpl.
  - split; [constructor|done].
  - rewrite orb_false_iff, IH, Forall_cons. done.
Qed.

Lemma length_filter_existsb {A} (p : A → bool) l :
  (0 <? length (List.filter p l))%nat = existsb p l.
Proof.
  induction l as [|x l IH]; simpl; [done|]. by destruct (p x).
Qed.

Lemma unique_nil l : unique l = [] ↔ l = [].
Proof. destruct l; [done|]. split; discriminate. Qed.

Lemma length_unique l : (0 <? length (unique l))%nat = (0 <? length l)%nat.
Proof.
  destruct l as [|x l]; [done|]. pose proof (unique_nil (x :: l)) as H.
  destruct (unique (x :: l)); [|done]. by destruct H as [H _]; discriminate H.
Qed.

(** *** Missing values *)

(** X8: [validate_nulls] passes when no required column of the table, outside
    the columns allowed to be empty, has a missing cell; it prints one
    failure for each such column that has one, with the number of its
    missing cells. A required column that is absent counts for nothing. *)
Theorem nulls_verdict (schema : schema) (name : string) (df : dataframe) :
  let cols := elements (required_columns schema) in
  let offending col :=
    bool_decide (col ∉ allow_nulls schema) && existsb isna (cells_of df col) in
  check_nulls schema name df
  = (Done (negb (existsb offending cols)),
     map (λ col, (FAIL, NullsNotAllowed name col
                          (length (List.filter isna (cells_of df col)))))
       (List.filter offending cols))
  ∧ (existsb offending cols = false
     ↔ ∀ col, col ∈ required_columns schema → col ∉ allow_nulls schema →
         Forall (λ x, isna x = false) (cells_of df col)).
Proof.
  intros cols offending. split.
  - unfold check_nulls. fold cols. rewrite <- (andb_true_l (negb _)).
    apply for_each_flags. intros col _. unfold offending.
    rewrite lookup_has_column.
    destruct (lookup_column col df) as [c|] eqn:E.
    + rewrite (cells_of_lookup _ _ _ E), (getitem_lookup _ _ _ E).
      rewrite bool_decide_eq_true_2 by by eexists. cbn [negb].
      destruct (bool_decide (col ∉ allow_nulls schema)); [|done].
      rewrite bind_ret_l. by destruct (existsb isna (col_cells c)).
    + rewrite (cells_of_absent _ _ E).
      rewrite bool_decide_eq_false_2 by (by intros [? ?]). cbn [negb].
      by rewrite andb_false_r.
  - rewrite existsb_false_Forall, Forall_forall. unfold cols. split.
    + intros H col Hreq Hnull. apply existsb_false_Forall.
      specialize (H col). rewrite elem_of_elements in H.
      specialize (H Hreq). unfold offending in H.
      by rewrite (bool_decide_eq_true_2 _ Hnull) in H.
    + intros H col Hreq%elem_of_elements. unfold offending.
      destruct (decide (col ∉ allow_nulls schema)) as [Hn|Hn].
      * rewrite (bool_decide_eq_true_2 _ Hn). simpl.
        by apply existsb_false_Forall, H.
      * by rewrite (bool_decide_eq_false_2 _ Hn).
Qed.

(** *** Allowed values *)

Lemma cell_eqb_Text x s : cell_eqb x (Text s) = true ↔ x = Text s.
Proof.
  destruct x; simpl; try (split; [done|discriminate]).
  rewrite String.eqb_eq. split; [by intros ->|by intros [= ->]].
Qed.

Lemma isin_texts x allowed :
  isin x (map Text allowed) = true ↔ ∃ s, x = Text s ∧ s ∈ allowed.
Proof.
  unfold isin. rewrite existsb_exists. split.
  - intros (y & Hin & Heq). apply in_map_iff in Hin as (s & <- & Hs).
    apply cell_eqb_Text in Heq. exists s. split; [done|].
    by apply list_elem_of_In.
  - intros (s & -> & Hs). exists (Text s). split.
    + apply in_map. by apply list_elem_of_In.
    + by apply cell_eqb_Text.
Qed.

(** X9: [validate_allowed_values] passes when every cell of a column with a
    set of allowed values is missing or is a text of the set; it prints
    one failure for each column with another value, showing at most ten
    of its distinct offending values. An absent column counts for
    nothing. *)
Theorem allowed_values_verdict (schema : schema) (name : string)
    (df : dataframe) :
  let invalid (entry : string * list string) :=
    List.filter (λ x, negb (isna x) && negb (isin x (map Text entry.2)))
      (cells_of df entry.1) in
  let offending entry := (0 <? length (invalid entry))%nat in
  check_allowed_values schema name df
  = (Done (negb (existsb offending (allowed_values schema))),
     map (λ entry, (FAIL, InvalidValues name entry.1
                            (take 10 (unique (invalid entry)))))
       (List.filter offending (allowed_values schema)))
  ∧ (existsb offending (allowed_values schema) = false
     ↔ ∀ col allowed, (col, allowed) ∈ allowed_values schema →
         Forall (λ x, x = Missing ∨ ∃ s, x = Text s ∧ s ∈ allowed)
           (cells_of df col)).
Proof.
  intros invalid offending. split.
  - unfold check_allowed_values. rewrite <- (andb_true_l (negb _)).
    apply for_each_flags. intros [col allowed] _. unfold offending, invalid.
    cbn [fst snd]. rewrite lookup_has_column.
    destruct (lookup_column col df) as [c|] eqn:E.
    + rewrite (cells_of_lookup _ _ _ E), (getitem_lookup _ _ _ E).
      rewrite bool_decide_eq_true_2 by by eexists. cbn [negb].
      rewrite bind_ret_l. cbv zeta. rewrite length_unique.
      by destruct (0 <? _)%nat.
    + rewrite (cells_of_absent _ _ E).
      by rewrite bool_decide_eq_false_2 by (by intros [? ?]).
  - rewrite existsb_false_Forall, Forall_forall. split.
    + intros H col allowed Hin. specialize (H _ Hin).
      unfold offending, invalid in H. cbn [fst snd] in H.
      rewrite length_filter_existsb, existsb_false_Forall in H.
      eapply Forall_impl; [exact H|]. intros x Hx. simpl in Hx.
      apply andb_false_iff in Hx as [Hx|Hx].
      * left. apply negb_false_iff in Hx. by destruct x.
      * right. apply negb_false_iff in Hx. by apply isin_texts.
    + intros H [col allowed] Hin. specialize (H _ _ Hin).
      unfold offending, invalid. cbn [fst snd].
      rewrite length_filter_existsb, existsb_false_Forall.
      eapply Forall_impl; [exact H|]. intros x [->|Hx]; [done|].
      apply isin_texts in Hx. simpl. rewrite Hx. by rewrite andb_false_r.
Qed.

(** *** Minimum values *)

Section MinValues.
Variable (schema : schema) (name : string) (df : dataframe).

Local Abbreviation below_min min_val :=
  (λ x, match x with Number q => negb (Qle_bool min_val q) | _ => false end).
Local Abbreviation under :=
  (λ entry : string * Q, existsb (below_min entry.2) (cells_of df entry.1)).
Local Abbreviation uncomparable :=
  (λ c, col_dtype c = DDatetime
        ∨ Exists (λ x, match x with
                       | Text _ | Timestamp _ => True
                       | _ => False
                       end) (col_cells c)).
Local Abbreviation body :=
  (λ '(col, min_val),
     if negb (has_column df col) then ret true
     else
       c <- getitem df col ;
       below <- series_lt c min_val ;
       let bad :=
         Frame.select (col_cells c)
           (zip_with andb (map (λ x, negb (isna x)) (col_cells c)) below) in
       if (0 <? length bad)%nat
       then _ <- _fail (BelowMinimum name col min_val (take 5 bad)) ; ret false
       else ret true).

Lemma select_below min_val cells below :
  mapM (cell_lt min_val) cells = Some below →
  (0 <? length (Frame.select cells
                  (zip_with andb (map (λ x, negb (isna x)) cells) below)))%nat
  = existsb (below_min min_val) cells.
Proof.
  intros H%mapM_Some. induction H as [|x b cells below Hx H IH]; [done|].
  simpl. destruct x; simpl in Hx; try discriminate; injection Hx as <-; simpl.
  - exact IH.
  - destruct (negb (Qle_bool min_val q)); [done|]. exact IH.
Qed.

Lemma series_lt_cases c min_val :
  (∃ below, series_lt c min_val = ret below
            ∧ mapM (cell_lt min_val) (col_cells c) = Some below)
  ∨ (series_lt c min_val = raise TypeError ∧ uncomparable c).
Proof.
  unfold series_lt.
  destruct (mapM (cell_lt min_val) (col_cells c)) as [below|] eqn:E.
  - destruct (col_dtype c) eqn:Ed;
      try (left; exists below; by split); right; split; [done|by left].
  - right. split; [by destruct (col_dtype c)|]. right.
    apply eq_None_not_Some in E. rewrite mapM_is_Some in E.
    apply not_Forall_Exists in E; [|apply _].
    eapply Exists_impl; [exact E|]. intros x Hx. unfold compose in Hx.
    destruct x; simpl in Hx; try done; by destruct Hx; eexists.
Qed.

Lemma min_body col min_val :
  match (body (col, min_val)).1 with
  | Done b => b = negb (under (col, min_val))
  | Raised e =>
      e = TypeError
      ∧ ∃ c, lookup_column col df = Some c ∧ uncomparable c
  end.
Proof.
  cbn [fst snd]. rewrite lookup_has_column.
  destruct (lookup_column col df) as [c|] eqn:E.
  - rewrite (cells_of_lookup _ _ _ E), (getitem_lookup _ _ _ E).
    rewrite bool_decide_eq_true_2 by by eexists. cbn [negb].
    rewrite bind_ret_l.
    destruct (series_lt_cases c min_val) as [(below & -> & Hb)|[-> Hu]].
    + rewrite bind_ret_l. cbv zeta. rewrite (select_below _ _ _ Hb).
      by destruct (existsb _ _).
    + simpl. split; [done|]. by exists c.
  - rewrite (cells_of_absent _ _ E).
    by rewrite bool_decide_eq_false_2 by (by intros [? ?]).
Qed.

Lemma min_loop (loop_body : string * Q → V bool) xs ok :
  (∀ col min_val,
     match (loop_body (col, min_val)).1 with
     | Done b => b = negb (under (col, min_val))
     | Raised e =>
         e = TypeError
         ∧ ∃ c, lookup_column col df = Some c ∧ uncomparable c
     end) →
  match (for_each xs loop_body ok).1 with
  | Done ok' => ok' = ok && negb (existsb under xs)
  | Raised e =>
      e = TypeError
      ∧ ∃ col min_val c, (col, min_val) ∈ xs
          ∧ lookup_column col df = Some c ∧ uncomparable c
  end.
Proof.
  intros Hbody. revert ok. induction xs as [|[col min_val] xs IH]; intros ok.
  - simpl. by rewrite andb_true_r.
  - cbn [for_each existsb]. pose proof (Hbody col min_val) as Hb.
    destruct (loop_body (col, min_val)) as [[b|e] out] eqn:Eb; cbn [fst] in Hb.
    + rewrite (bind_done _ _ b) by done. cbn [fst].
      specialize (IH (ok && b)).
      destruct (for_each xs loop_body (ok && b)) as [[ok'|e] out'];
        cbn [fst] in *.
      * rewrite IH, Hb. by destruct ok, (existsb _ (cells_of df col)).
      * destruct IH as (-> & col' & min' & c & Hin & Hc & Hu).
        split; [done|]. exists col', min', c.
        split; [apply elem_of_cons; by right|done].
    + rewrite (bind_raised _ _ e) by done. cbn [fst].
      destruct Hb as (-> & c & Hc & Hu). split; [done|].
      exists col, min_val, c. split; [apply elem_of_cons; by left|done].
Qed.

(** A column that cannot be compared with a number makes the comparison,
    and with it the loop, raise. *)
Lemma series_lt_uncomparable c min_val :
  uncomparable c → series_lt c min_val = raise TypeError.
Proof.
  unfold series_lt. intros [->|Hex];
    [by destruct (mapM (cell_lt min_val) (col_cells c))|].
  destruct (mapM (cell_lt min_val) (col_cells c)) as [below|] eqn:E;
    [|by destruct (col_dtype c)].
  assert (Hs : is_Some (mapM (cell_lt min_val) (col_cells c))) by by eexists.
  rewrite mapM_is_Some, Forall_forall in Hs.
  apply Exists_exists in Hex as (x & Hin & Hx).
  specialize (Hs x Hin). unfold compose in Hs.
  destruct x; simpl in Hs; try done; by destruct Hs.
Qed.

Lemma min_body_raises col min_val c :
  lookup_column col df = Some c → uncomparable c →
  (body (col, min_val)).1 = Raised TypeError.
Proof.
  intros Hc Hu. cbn [fst snd]. rewrite lookup_has_column.
  rewrite bool_decide_eq_true_2 by by eexists. cbn [negb].
  rewrite (getitem_lookup _ _ _ Hc), bind_ret_l.
  by rewrite (series_lt_uncomparable c min_val Hu).
Qed.

Lemma min_body_error col min_val :
  match (body (col, min_val)).1 with
  | Done _ => True
  | Raised e => e = TypeError
  end.
Proof.
  pose proof (min_body col min_val) as Hb.
  destruct (body (col, min_val)) as [[b|e] out]; [done|]. by destruct Hb.
Qed.

Lemma min_loop_raises (loop_body : string * Q → V bool) xs ok :
  (∀ col min_val,
     match (loop_body (col, min_val)).1 with
     | Done _ => True
     | Raised e => e = TypeError
     end) →
  (∀ col min_val c, lookup_column col df = Some c → uncomparable c →
     (loop_body (col, min_val)).1 = Raised TypeError) →
  (∃ col min_val c, (col, min_val) ∈ xs
     ∧ lookup_column col df = Some c ∧ uncomparable c) →
  (for_each xs loop_body ok).1 = Raised TypeError.
Proof.
  intros Hbody Hraise. revert ok.
  induction xs as [|[col min_val] xs IH]; intros ok (col' & min' & c & Hin & Hc & Hu).
  - by apply elem_of_nil in Hin.
  - cbn [for_each]. pose proof (Hbody col min_val) as Hb.
    destruct (loop_body (col, min_val)) as [[b|e] out] eqn:Eb; cbn [fst] in Hb.
    + rewrite (bind_done _ _ b) by done. cbn [fst].
      apply elem_of_cons in Hin as [[= <- <-]|Hin].
      * pose proof (Hraise _ min' _ Hc Hu) as Hr. rewrite Eb in Hr. done.
      * specialize (IH (ok && b)).
        destruct (for_each xs loop_body (ok && b)) as [[ok'|e] out'];
          cbn [fst] in *; apply IH; by exists col', min', c.
    + rewrite (bind_raised _ _ e) by done. cbn [fst]. by rewrite Hb.
Qed.

End MinValues.

(** X10: for a table of [SCHEMAS], [validate_min_values] ignores missing
    cells: it passes when every number in a column with a floor is at or
    above the floor, an absent column counting for nothing. It raises
    [TypeError] instead of returning exactly when a column with a floor is
    present and is a datetime column or holds a text or a timestamp; it
    raises nothing else. *)
Theorem min_values_verdict (schema : schema) (name : string) (df : dataframe) :
  let uncomparable c :=
    col_dtype c = DDatetime
    ∨ Exists (λ x, match x with
                   | Text _ | Timestamp _ => True
                   | _ => False
                   end) (col_cells c) in
  ((check_min_values schema name df).1 = Raised TypeError
   ↔ ∃ col min_val c, (col, min_val) ∈ min_values schema
       ∧ lookup_column col df = Some c ∧ uncomparable c)
  ∧ match (check_min_values schema name df).1 with
    | Done ok =>
        ok = true
        ↔ ∀ col min_val q, (col, min_val) ∈ min_values schema →
            Number q ∈ cells_of df col → (min_val <= q)%Q
    | Raised e => e = TypeError
    end.
Proof.
  intros uncomparable. unfold check_min_values.
  pose proof (min_loop df _ (min_values schema) true (min_body name df)) as H.
  match goal with
  | |- context [for_each _ ?b true] =>
      pose proof (min_loop_raises df b (min_values schema) true) as Hconv
  end.
  destruct (for_each (min_values schema) _ true) as [[ok|e] out];
    cbn [fst] in *.
  - split.
    + split; [done|]. intros Hu. apply Hconv; [| |exact Hu].
      * intros col min_val. exact (min_body_error name df col min_val).
      * intros col min_val c. exact (min_body_raises name df col min_val c).
    + rewrite H. cbn [andb]. rewrite negb_true_iff, existsb_false_Forall.
      rewrite Forall_forall. split.
      * intros Hall col min_val q Hin Hq. specialize (Hall _ Hin).
        cbn [fst snd] in Hall.
        rewrite existsb_false_Forall, Forall_forall in Hall.
        specialize (Hall _ Hq). simpl in Hall.
        apply negb_false_iff in Hall. by apply Qle_bool_iff.
      * intros Hall [col min_val] Hin. cbn [fst snd].
        apply existsb_false_Forall, Forall_forall. intros x Hx.
        destruct x; try done. apply negb_false_iff, Qle_bool_iff.
        by apply (Hall col).
  - destruct H as [-> H]. done.
Qed.

(** *** Unique keys *)

Lemma cell_eqb_refl x : cell_eqb x x = true.
Proof.
  destruct x; simpl; [done|apply String.eqb_refl|apply Qeq_bool_refl|apply Z.eqb_refl].
Qed.

Lemma tuple_eqb_refl k : tuple_eqb k k = true.
Proof.
  unfold tuple_eqb. rewrite Nat.eqb_refl. simpl.
  induction k as [|x k IH]; simpl; [done|]. by rewrite cell_eqb_refl.
Qed.

Lemma select_map_filter {A} (p : A → bool) l :
  Frame.select l (map p l) = List.filter p l.
Proof.
  induction l as [|x l IH]; simpl; [done|]. rewrite IH. by destruct (p x).
Qed.

Lemma filter_one {A} (p : A → bool) l j y :
  l !! j = Some y → p y = true → 0 < length (List.filter p l).
Proof.
  intros Hj Hy. apply Nat.ltb_lt. rewrite length_filter_existsb.
  apply existsb_exists. exists y. split; [|done].
  apply list_elem_of_In. by eapply list_elem_of_lookup_2.
Qed.

Lemma filter_two {A} (p : A → bool) l i j x y :
  i < j → l !! i = Some x → l !! j = Some y → p x = true → p y = true →
  1 < length (List.filter p l).
Proof.
  revert i j. induction l as [|z l IH]; intros i j Hij Hi Hj Hx Hy; [done|].
  destruct j as [|j]; [lia|]. simpl in Hj. destruct i as [|i].
  - injection Hi as ->. simpl. rewrite Hx. simpl.
    pose proof (filter_one p l j y Hj Hy). lia.
  - simpl in Hi. assert (Hl := IH i j ltac:(lia) Hi Hj Hx Hy).
    simpl. destruct (p z); simpl; lia.
Qed.

Lemma two_in_filter {A} (p : A → bool) l :
  1 < length (List.filter p l) →
  ∃ i j x y, i < j ∧ l !! i = Some x ∧ l !! j = Some y
             ∧ p x = true ∧ p y = true.
Proof.
  induction l as [|z l IH]; simpl; [lia|]. destruct (p z) eqn:Ez; simpl.
  - intros H. assert (H0 : (0 <? length (List.filter p l))%nat = true)
      by (apply Nat.ltb_lt; lia).
    rewrite length_filter_existsb in H0.
    apply existsb_exists in H0 as (y & Hin & Hy).
    apply list_elem_of_In, list_elem_of_lookup in Hin as [j Hj].
    exists 0, (S j), z, y. split_and!; [lia|done|done|done|done].
  - intros H. destruct (IH H) as (i & j & x & y & Hij & Hi & Hj & Hx & Hy).
    exists (S i), (S j), x, y. split_and!; [lia|done|done|done|done].
Qed.

Lemma collide_filter keys :
  existsb (λ k, (1 <? length (List.filter (tuple_eqb k) keys))%nat) keys = true
  ↔ collide keys.
Proof.
  rewrite existsb_exists. split.
  - intros (k & Hin & Hk%Nat.ltb_lt).
    apply list_elem_of_In, list_elem_of_lookup in Hin as [m Hm].
    apply two_in_filter in Hk as (i & j & x & y & Hij & Hi & Hj & Hx & Hy).
    destruct (decide (i = m)) as [->|Hne].
    + exists m, j, k, y. split_and!; [lia|done|done|done].
    + exists m, i, k, x. split_and!; [lia|done|done|done].
  - intros (i & j & ki & kj & Hij & Hi & Hj & Heq). exists ki. split.
    + apply list_elem_of_In. by eapply list_elem_of_lookup_2.
    + apply Nat.ltb_lt. destruct (decide (i < j)).
      * eapply (filter_two _ _ i j); eauto using tuple_eqb_refl.
      * eapply (filter_two _ _ j i); eauto using tuple_eqb_refl. lia.
Qed.

Lemma getitems_all df cols :
  forallb (has_column df) cols = true →
  ∃ cs, getitems df cols = ret cs
        ∧ map col_cells cs = map (cells_of df) cols.
Proof.
  induction cols as [|col cols IH]; simpl; [by exists []|].
  intros [Hc Hall]%andb_prop. destruct (IH Hall) as (cs & Hcs & Hmap).
  rewrite lookup_has_column in Hc. apply bool_decide_eq_true in Hc as [c Hc].
  exists (c :: cs). rewrite (getitem_lookup _ _ _ Hc), bind_ret_l, Hcs.
  rewrite bind_ret_l. split; [done|]. simpl.
  by rewrite (cells_of_lookup _ _ _ Hc), Hmap.
Qed.

(** X11: [validate_uniqueness] passes when, for every unique key whose columns
    are all present, no two rows of the table carry the same tuple of
    values in these columns (two missing values counting as the same
    value); it prints one failure for each key that has such rows, showing
    at most five of them. A key with an absent column counts for
    nothing. *)
Theorem uniqueness_verdict (schema : schema) (name : string) (df : dataframe) :
  let dupes cols :=
    Frame.select (key_tuples df cols) (duplicated_all (key_tuples df cols)) in
  let offending cols :=
    forallb (has_column df) cols && (0 <? length (dupes cols))%nat in
  check_uniqueness schema name df
  = (Done (negb (existsb offending (unique_keys schema))),
     map (λ cols, (FAIL, DuplicateKey name cols (take 5 (dupes cols))))
       (List.filter offending (unique_keys schema)))
  ∧ ∀ cols,
      offending cols = true
      ↔ (∀ c, c ∈ cols → c ∈ columns df) ∧ collide (key_tuples df cols).
Proof.
  intros dupes offending. split.
  - unfold check_uniqueness. rewrite <- (andb_true_l (negb _)).
    apply for_each_flags. intros cols _. unfold offending, dupes, key_tuples.
    destruct (forallb (has_column df) cols) eqn:Hall.
    + assert (Hex : existsb (λ c, negb (has_column df c)) cols = false).
      { apply existsb_false_Forall, Forall_forall. intros c Hc.
        rewrite forallb_forall in Hall. apply negb_false_iff, Hall.
        by apply list_elem_of_In. }
      rewrite Hex. destruct (getitems_all df cols Hall) as (cs & Hget & Hmap).
      rewrite Hget, bind_ret_l. cbv zeta. rewrite Hmap. cbn [andb].
      by destruct (0 <? _)%nat.
    + assert (Hex : existsb (λ c, negb (has_column df c)) cols = true).
      { apply not_false_iff_true. intros Hf.
        rewrite existsb_false_Forall, Forall_forall in Hf.
        assert (forallb (has_column df) cols = true); [|congruence].
        apply forallb_forall. intros c Hc%list_elem_of_In.
        by apply negb_false_iff, Hf. }
      by rewrite Hex.
  - intros cols. unfold offending, dupes. unfold duplicated_all.
    rewrite select_map_filter, length_filter_existsb, andb_true_iff.
    rewrite collide_filter, forallb_forall.
    split; intros [H1 H2]; (split; [|done]).
    + intros c Hc. apply has_column_true, H1. by apply list_elem_of_In.
    + intros c Hc. apply has_column_true, H1. by apply list_elem_of_In.
Qed.

(** *** References between tables *)

Lemma dict_get_cases {A} (d : list (string * A)) key :
  (∃ p, List.find (λ p, String.eqb p.1 key) d = Some p
        ∧ dict_get d key = ret p.2)
  ∨ (List.find (λ p, String.eqb p.1 key) d = None
     ∧ dict_get d key = raise (KeyError key)).
Proof.
  unfold dict_get. destruct (List.find _ d) as [p|]; [left; by exists p|by right].
Qed.

Lemma getitem_cases df col :
  (∃ c, lookup_column col df = Some c ∧ getitem df col = ret c)
  ∨ (lookup_column col df = None ∧ getitem df col = raise (KeyError col)).
Proof.
  unfold getitem. destruct (lookup_column col df) as [c|]; [left; by exists c|by right].
Qed.

Lemma dangling_none (dangling resolved : cell → bool) values :
  (∀ x, resolved x = negb (negb (isna x) && dangling x)) →
  (0 <? length (unique (List.filter (λ x, negb (isna x))
                          (List.filter dangling values))))%nat
  = negb (forallb resolved values).
Proof.
  intros H. rewrite length_unique, length_filter_existsb.
  induction values as [|x values IH]; simpl; [done|]. rewrite H.
  destruct (dangling x); simpl; rewrite IH; [|by rewrite andb_false_r].
  by destruct (isna x).
Qed.

Lemma fk_check_verdict child_name child child_col parent_name parent
    parent_col sentinel :
  match (fk_check child_name child child_col parent_name parent parent_col
           sentinel).1 with
  | Done ok => ok = references_resolve child child_col parent parent_col sentinel
  | Raised e => ∃ key, e = KeyError key
  end.
Proof.
  unfold fk_check, references_resolve.
  destruct (getitem_cases child child_col) as [(values & Hv & ->)|[_ ->]];
    [|by eexists].
  rewrite bind_ret_l.
  destruct (getitem_cases parent parent_col) as [(keys & Hk & ->)|[_ ->]];
    [|by eexists].
  rewrite bind_ret_l. cbv zeta.
  rewrite (cells_of_lookup _ _ _ Hv), (cells_of_lookup _ _ _ Hk).
  rewrite (dangling_none _
             (λ x, isna x || isin x (col_cells keys)
                   || match sentinel with
                      | Some s => cell_eqb x (Text s)
                      | None => false
                      end)).
  - by destruct (forallb _ _).
  - intros x. destruct (isna x), (isin x (col_cells keys)), sentinel as [s|];
      simpl; try done; by destruct (cell_eqb x (Text s)).
Qed.

(** X12: [validate_referential_integrity] passes when every order line has a
    store, a customer and a product code that is missing, is the sentinel
    of its column or is a code of the parent table, and every store has a
    region name that is missing or is a name of the regions table. A
    missing table or key column makes it raise [KeyError]; it raises
    nothing else. *)
Theorem referential_integrity_verdict (tables : list (string * dataframe)) :
  let t := table_of tables in
  match (validate_referential_integrity tables).1 with
  | Done ok =>
      ok = references_resolve (t "orders") "store_code"
             (t "stores") "store_code" (Some "store-0")
           && references_resolve (t "orders") "customer_code"
                (t "customers") "customer_code" (Some "cust-0")
           && references_resolve (t "orders") "product_code"
                (t "products") "product_code" (Some "prd-0")
           && references_resolve (t "stores") "region_name"
                (t "regions") "region_name" None
  | Raised e => ∃ key, e = KeyError key
  end.
Proof.
  intros t. unfold validate_referential_integrity.
  assert (Ht : ∀ name p,
            List.find (λ p, String.eqb p.1 name) tables = Some p →
            t name = p.2).
  { intros name p H. unfold t, table_of. by rewrite H. }
  destruct (dict_get_cases tables "regions") as [(r & Hr & ->)|[_ ->]];
    [rewrite bind_ret_l, <- (Ht _ _ Hr)|by eexists].
  destruct (dict_get_cases tables "products") as [(p & Hp & ->)|[_ ->]];
    [rewrite bind_ret_l, <- (Ht _ _ Hp)|by eexists].
  destruct (dict_get_cases tables "stores") as [(s & Hs & ->)|[_ ->]];
    [rewrite bind_ret_l, <- (Ht _ _ Hs)|by eexists].
  destruct (dict_get_cases tables "customers") as [(c & Hc & ->)|[_ ->]];
    [rewrite bind_ret_l, <- (Ht _ _ Hc)|by eexists].
  destruct (dict_get_cases tables "orders") as [(o & Ho & ->)|[_ ->]];
    [rewrite bind_ret_l, <- (Ht _ _ Ho)|by eexists].
  clear.
  pose proof (fk_check_verdict "orders" (t "orders") "store_code" "stores"
                (t "stores") "store_code" (Some "store-0")) as H1.
  pose proof (fk_check_verdict "orders" (t "orders") "customer_code"
                "customers" (t "customers") "customer_code" (Some "cust-0"))
    as H2.
  pose proof (fk_check_verdict "orders" (t "orders") "product_code"
                "products" (t "products") "product_code" (Some "prd-0")) as H3.
  pose proof (fk_check_verdict "stores" (t "stores") "region_name" "regions"
                (t "regions") "region_name" None) as H4.
  destruct (fk_check "orders" _ "store_code" _ _ _ _) as [[ok1|e1] out1];
    cbn [fst bind] in *; [|done].
  destruct (fk_check "orders" _ "customer_code" _ _ _ _) as [[ok2|e2] out2];
    cbn [fst bind] in *; [|done].
  destruct (fk_check "orders" _ "product_code" _ _ _ _) as [[ok3|e3] out3];
    cbn [fst bind] in *; [|done].
  destruct (fk_check "stores" _ "region_name" _ _ _ _) as [[ok4|e4] out4];
    cbn [fst bind ret] in *; [|done].
  by rewrite H1, H2, H3, H4.
Qed.

(** *** The flag of a check and the failures it prints *)

Lemma has_failure_app out out' :
  has_failure (out ++ out') = has_failure out || has_failure out'.
Proof. apply existsb_app. Qed.

Lemma tracks_ret ok : tracks ok (ret ok).
Proof. unfold tracks. simpl. by rewrite andb_true_r. Qed.

Lemma tracks_failed ok m : tracks ok (_ <- _fail m ; ret false).
Proof. unfold tracks. simpl. by rewrite andb_false_r. Qed.

Lemma tracks_weaken ok (m : V bool) :
  tracks true m → tracks ok (bind m (λ b, ret (ok && b))).
Proof.
  unfold tracks. destruct m as [[b|e] out]; simpl; [|done].
  intros ->. by rewrite app_nil_r.
Qed.

Lemma tracks_bind ok (m : V bool) (f : bool → V bool) :
  tracks ok m → (∀ a, tracks a (f a)) → tracks ok (bind m f).
Proof.
  unfold tracks. destruct m as [[a|e] out]; simpl; [|done].
  intros -> Hf. specialize (Hf (ok && negb (has_failure out))).
  destruct (f _) as [[b|e] out']; simpl in *; [|done].
  rewrite Hf, has_failure_app. by destruct ok, (has_failure out).
Qed.

Lemma quiet_bind {A} ok (m : V A) (f : A → V bool) :
  quiet m → (∀ a, tracks ok (f a)) → tracks ok (bind m f).
Proof.
  unfold quiet, tracks. destruct m as [[a|e] out]; simpl.
  - intros [Hq _] Hf. specialize (Hf a).
    destruct (f a) as [[b|e] out']; simpl in *; [|done].
    by rewrite Hf, has_failure_app, Hq.
  - intros [_ Hq] _. congruence.
Qed.

Lemma quiet_getitem df col : quiet (getitem df col).
Proof. by destruct (getitem_cases df col) as [(c & _ & ->)|[_ ->]]. Qed.

Lemma quiet_dict_get {A} (d : list (string * A)) key : quiet (dict_get d key).
Proof. by destruct (dict_get_cases d key) as [(c & _ & ->)|[_ ->]]. Qed.

Lemma quiet_series_lt c min_val : quiet (series_lt c min_val).
Proof.
  unfold series_lt.
  by destruct (col_dtype c), (mapM (cell_lt min_val) (col_cells c)).
Qed.

Lemma quiet_getitems df cols : quiet (getitems df cols).
Proof.
  induction cols as [|col cols IH]; [done|]. cbn [getitems].
  destruct (getitem_cases df col) as [(c & _ & ->)|[_ ->]]; [|done].
  rewrite bind_ret_l. destruct (getitems df cols) as [[cs|e] out]; [|done].
  destruct IH as [IH _]. simpl in *. split; [|done]. by rewrite app_nil_r.
Qed.

Lemma tracks_for_each {A} (xs : list A) (body : A → V bool) ok :
  (∀ x, tracks true (body x)) → tracks ok (for_each xs body ok).
Proof.
  intros Hbody. revert ok. induction xs as [|x xs IH]; intros ok.
  - apply tracks_ret.
  - cbn [for_each]. specialize (Hbody x). unfold tracks in *.
    destruct (body x) as [[b|e] out]; simpl in *; [|done].
    specialize (IH (ok && b)).
    destruct (for_each xs body (ok && b)) as [[b'|e] out']; simpl in *; [|done].
    rewrite IH, Hbody, has_failure_app. by destruct ok, (has_failure out).
Qed.

Lemma tracks_check_schema schema name df :
  tracks true (check_schema schema name df).
Proof.
  rewrite check_schema_spec. unfold tracks. cbn [fst snd].
  by destruct (bool_decide _), (bool_decide _).
Qed.

Lemma tracks_check_nulls schema name df :
  tracks true (check_nulls schema name df).
Proof.
  apply tracks_for_each. intros col.
  destruct (negb (has_column df col)); [apply tracks_ret|].
  destruct (bool_decide _); [|apply tracks_ret].
  apply quiet_bind; [apply quiet_getitem|]. intros c.
  destruct (existsb isna (col_cells c)); [apply tracks_failed|apply tracks_ret].
Qed.

Lemma tracks_dtype_loop declared test expected name df ok :
  tracks ok (dtype_loop declared test expected name df ok).
Proof.
  apply tracks_for_each. intros col.
  destruct (has_column df col); [|apply tracks_ret].
  apply quiet_bind; [apply quiet_getitem|]. intros c.
  destruct (negb (test c)); [apply tracks_failed|apply tracks_ret].
Qed.

Lemma tracks_check_dtypes schema name df :
  tracks true (check_dtypes schema name df).
Proof.
  unfold check_dtypes.
  repeat (apply tracks_bind; [apply tracks_dtype_loop|intros ?]).
  apply tracks_dtype_loop.
Qed.

Lemma tracks_check_allowed_values schema name df :
  tracks true (check_allowed_values schema name df).
Proof.
  apply tracks_for_each. intros [col allowed].
  destruct (negb (has_column df col)); [apply tracks_ret|].
  apply quiet_bind; [apply quiet_getitem|]. intros c. cbv zeta.
  destruct (0 <? _)%nat; [apply tracks_failed|apply tracks_ret].
Qed.

Lemma tracks_check_min_values schema name df :
  tracks true (check_min_values schema name df).
Proof.
  apply tracks_for_each. intros [col min_val].
  destruct (negb (has_column df col)); [apply tracks_ret|].
  apply quiet_bind; [apply quiet_getitem|]. intros c.
  apply quiet_bind; [apply quiet_series_lt|]. intros below. cbv zeta.
  destruct (0 <? _)%nat; [apply tracks_failed|apply tracks_ret].
Qed.

Lemma tracks_check_uniqueness schema name df :
  tracks true (check_uniqueness schema name df).
Proof.
  apply tracks_for_each. intros cols.
  destruct (existsb _ cols); [apply tracks_ret|].
  apply quiet_bind; [apply quiet_getitems|]. intros cs. cbv zeta.
  destruct (0 <? _)%nat; [apply tracks_failed|apply tracks_ret].
Qed.

Lemma tracks_fk_check child_name child child_col parent_name parent
    parent_col sentinel :
  tracks true (fk_check child_name child child_col parent_name parent
                 parent_col sentinel).
Proof.
  unfold fk_check.
  apply quiet_bind; [apply quiet_getitem|]. intros values.
  apply quiet_bind; [apply quiet_getitem|]. intros keys. cbv zeta.
  destruct (0 <? _)%nat; [apply tracks_failed|apply tracks_ret].
Qed.

Lemma tracks_referential_integrity tables :
  tracks true (validate_referential_integrity tables).
Proof.
  unfold validate_referential_integrity.
  apply quiet_bind; [apply quiet_dict_get|intros regions].
  apply quiet_bind; [apply quiet_dict_get|intros products].
  apply quiet_bind; [apply quiet_dict_get|intros stores].
  apply quiet_bind; [apply quiet_dict_get|intros customers].
  apply quiet_bind; [apply quiet_dict_get|intros orders].
  pose proof (tracks_fk_check "orders" orders "store_code" "stores" stores
                "store_code" (Some "store-0")) as H1.
  pose proof (tracks_fk_check "orders" orders "customer_code" "customers"
                customers "customer_code" (Some "cust-0")) as H2.
  pose proof (tracks_fk_check "orders" orders "product_code" "products"
                products "product_code" (Some "prd-0")) as H3.
  pose proof (tracks_fk_check "stores" stores "region_name" "regions" regions
                "region_name" None) as H4.
  destruct (fk_check "orders" _ "store_code" _ _ _ _) as [[ok1|e1] out1];
    [|exact H1].
  destruct (fk_check "orders" _ "customer_code" _ _ _ _) as [[ok2|e2] out2];
    [|exact H2].
  destruct (fk_check "orders" _ "product_code" _ _ _ _) as [[ok3|e3] out3];
    [|exact H3].
  destruct (fk_check "stores" _ "region_name" _ _ _ _) as [[ok4|e4] out4];
    [|exact H4].
  unfold tracks in *. simpl in *. subst.
  rewrite app_nil_r, !has_failure_app.
  by destruct (has_failure out1), (has_failure out2), (has_failure out3).
Qed.

Lemma tracks_validate (check : schema → string → dataframe → V bool) name df :
  (∀ schema, tracks true (check schema name df)) →
  tracks true (schema <- dict_get SCHEMAS name ; check schema name df).
Proof. intros H. apply quiet_bind; [apply quiet_dict_get|done]. Qed.

Lemma tracks_and_assign all_ok (check : V bool) :
  tracks true check → tracks all_ok (and_assign all_ok check).
Proof. apply tracks_weaken. Qed.

Lemma tracks_check_table all_ok name df :
  tracks all_ok (check_table all_ok name df).
Proof.
  unfold check_table.
  apply tracks_bind;
    [apply tracks_and_assign, tracks_validate;
     intros; apply tracks_check_schema|intros ?].
  apply tracks_bind;
    [apply tracks_and_assign, tracks_validate;
     intros; apply tracks_check_nulls|intros ?].
  apply tracks_bind;
    [apply tracks_and_assign, tracks_validate;
     intros; apply tracks_check_dtypes|intros ?].
  apply tracks_bind;
    [apply tracks_and_assign, tracks_validate;
     intros; apply tracks_check_allowed_values|intros ?].
  apply tracks_bind;
    [apply tracks_and_assign, tracks_validate;
     intros; apply tracks_check_min_values|intros ?].
  apply tracks_and_assign, tracks_validate.
  intros; apply tracks_check_uniqueness.
Qed.

Lemma tracks_check_tables all_ok tables :
  tracks all_ok (check_tables all_ok tables).
Proof.
  revert all_ok. induction tables as [|[name df] tables IH]; intros all_ok.
  - apply tracks_ret.
  - cbn [check_tables]. apply tracks_bind; [apply tracks_check_table|done].
Qed.

Lemma loaded_lines_quiet load_table names :
  has_failure
    (map (λ name, (OK, Loaded name (n_rows (load_table name))
                         (length (columns (load_table name))))) names)
  = false.
Proof. induction names; [done|]. simpl. exact IHnames. Qed.

(** X13: whatever the loaded tables are, a run of the validator ends on
    [SystemExit] only after it has printed a failure, and ends normally
    only when it has printed none, its last line being then the success
    line: the verdict of the run can be read off what it printed. (A run
    may also end on the [KeyError] or [TypeError] of a check.) *)
Theorem failures_decide_the_run (load_table : string → dataframe) :
  let run := run_validation load_table in
  match run.1 with
  | Done _ => has_failure run.2 = false ∧ last run.2 = Some (OK, AllPassed)
  | Raised SystemExit => has_failure run.2 = true
  | Raised _ => True
  end.
Proof.
  intros run. unfold run, run_validation.
  rewrite load_tables_spec. cbn [bind].
  set (tables := map _ TABLE_PATHS).
  pose proof (loaded_lines_quiet load_table TABLE_PATHS) as Hq.
  set (loaded := map _ TABLE_PATHS) in *.
  assert (Hm : tracks true
            (all_ok <- check_tables true tables ;
             and_assign all_ok (validate_referential_integrity tables))).
  { apply tracks_bind; [apply tracks_check_tables|].
    intros a. apply tracks_and_assign, tracks_referential_integrity. }
  rewrite <- bind_assoc.
  destruct (all_ok <- check_tables true tables ;
            and_assign all_ok (validate_referential_integrity tables))
    as [[all_ok|e] out]; unfold tracks in Hm; cbn [fst snd bind] in *.
  - subst all_ok. cbn [andb]. rewrite negb_involutive.
    destruct (has_failure out) eqn:Ho; cbn [raise print fst snd].
    + by rewrite app_nil_r, has_failure_app, Ho, orb_true_r.
    + rewrite app_assoc, has_failure_app, has_failure_app, Hq, Ho.
      split; [done|]. by rewrite last_snoc.
  - by destruct e.
Qed.

(** *** The date columns of the schemas *)

(** X14: the name test of [auto_parse_dates] and the schemas of the validator
    agree: among the required columns of every table, the columns whose
    name holds "date" or "_ts" are exactly the columns the schema declares
    as datetimes. *)
Theorem date_columns_match_schemas (name : string) (schema : schema)
    (col : string) :
  (name, schema) ∈ SCHEMAS → col ∈ required_columns schema →
  Dates.is_date_col col = bool_decide (col ∈ datetimes schema).
Proof.
  unfold SCHEMAS. intros Hs Hc.
  repeat (apply elem_of_cons in Hs as [[= -> ->]|Hs];
          [apply elem_of_list_to_set in Hc;
           repeat (apply elem_of_cons in Hc as [->|Hc];
                   [vm_compute; reflexivity|]);
           by apply elem_of_nil in Hc|]).
  by apply elem_of_nil in Hs.
Qed.

Lemma date_columns_match_schemas_witness :
  Dates.is_date_col "order_ts" = true ∧ Dates.is_date_col "order_status" = false.
Proof.
  split.
  - rewrite (date_columns_match_schemas "orders" orders_schema "order_ts").
    + vm_compute. reflexivity.
    + apply list_elem_of_In. do 4 right. by left.
    + apply (bool_decide_unpack _). vm_compute. exact I.
  - rewrite (date_columns_match_schemas "orders" orders_schema "order_status").
    + vm_compute. reflexivity.
    + apply list_elem_of_In. do 4 right. by left.
    + apply (bool_decide_unpack _). vm_compute. exact I.
Defined.

End VerdictFacts.

(** ** Cleaning again *)

Module RerunFacts.
Import Text Keys Frame Orders TextFacts KeysFacts FrameFacts OrdersFacts.
Import FilterFacts NormalizerFacts Cleaned.

(** *** Lists *)

Lemma filter_all {A} (p : A → bool) l :
  (∀ x, x ∈ l → p x = true) → List.filter p l = l.
Proof.
  induction l as [|x l IH]; intros H; simpl; [done|].
  rewrite (H x) by (apply elem_of_cons; by left).
  f_equal. apply IH. intros y Hy. apply H, elem_of_cons. by right.
Qed.

Lemma mapM_fixed {A} (f : A → option A) l :
  (∀ x, x ∈ l → f x = Some x) → mapM f l = Some l.
Proof.
  intros H. apply mapM_Some. induction l as [|x l IH]; constructor.
  - apply H, elem_of_cons. by left.
  - apply IH. intros y Hy. apply H, elem_of_cons. by right.
Qed.

Lemma select_none {A} (l : list A) mask :
  Forall (λ b, b = false) mask → select l mask = [].
Proof.
  intros H. revert l. induction H as [|b mask -> _ IH]; intros [|x l]; simpl; auto.
Qed.

(** *** Renumbering a table without collisions *)

Lemma duplicated_distinct seen rs :
  distinct_keys rs = true →
  (∀ r k, r ∈ rs → k ∈ seen → key_eqb (key_of r) k = false) →
  Forall (λ b, b = false) (duplicated_aux key_eqb seen (map key_of rs)).
Proof.
  revert seen. induction rs as [|r rs IH]; intros seen Hd Hs; simpl;
    [constructor|].
  simpl in Hd. apply andb_prop in Hd as [Hr Hd]. apply negb_true_iff in Hr.
  constructor.
  - apply not_true_is_false. intros (k & Hk & He)%existsb_exists.
    rewrite (Hs r k) in He; [done|apply elem_of_cons; by left|].
    by apply list_elem_of_In.
  - apply IH; [done|]. intros r' k Hr' [->|Hk]%elem_of_cons.
    + rewrite key_eqb_sym. apply not_true_is_false. intros He.
      assert (existsb (λ r', key_eqb (key_of r) (key_of r')) rs = true);
        [|congruence].
      apply existsb_exists. exists r'. split; [by apply list_elem_of_In|done].
    + apply Hs; [apply elem_of_cons; by right|done].
Qed.

Lemma renumber_fixed t :
  (∀ r, r ∈ rows t → is_Some (order_num (order_code r))) →
  distinct_keys (rows t) = true → renumber t = Some t.
Proof.
  intros Hnum Hd. unfold renumber.
  assert (Hsome : is_Some (mapM (λ lr : nat * order_row,
                                   order_num (order_code lr.2)) t)).
  { apply mapM_is_Some, Forall_forall. intros [l r] Hin. simpl.
    apply Hnum, elem_of_rows. by exists l. }
  destruct Hsome as [nums ->]. simpl. f_equal.
  rewrite select_none; [done|].
  replace (map (λ lr : nat * order_row, key_of lr.2) t)
    with (map key_of (rows t)) by (unfold rows; by rewrite map_map).
  apply duplicated_distinct; [done|]. by intros r k _ ?%elem_of_nil.
Qed.

(** *** What [clean_orders] returns *)

Lemma marked_rows m k mask t :
  Forall2 (λ lr lo : nat * order_row,
             lo.1 = lr.1 ∧ lo.2 = set_order_code (order_code lo.2) lr.2)
    t (renumber_marked m k mask t).
Proof.
  revert k mask. induction t as [|[l r] t IH]; intros k mask;
    [destruct mask; constructor|].
  destruct mask as [|[] mask]; simpl.
  - apply Forall2_same_length_lookup. split; [done|].
    intros i x y Hx Hy. assert (x = y) as -> by congruence.
    split; [done|]. by destruct y as [? []].
  - constructor; [done|apply IH].
  - constructor; [|apply IH]. split; [done|]. by destruct r.
Qed.

Lemma renumber_inv t out :
  NoDup (labels t) → renumber t = Some out →
  ∃ m,
    rows out = renumber_scan m 1 [] (rows t)
    ∧ labels out = labels t
    ∧ distinct_keys (rows out) = true
    ∧ Forall2 (λ lr lo : nat * order_row,
                 lo.1 = lr.1 ∧ lo.2 = set_order_code (order_code lo.2) lr.2)
        t out.
Proof.
  intros Hndt Hren. unfold renumber in Hren.
  destruct (mapM (λ lr : nat * order_row, order_num (order_code lr.2)) t)
    as [nums|] eqn:Hnums; [|done].
  simpl in Hren. injection Hren as <-.
  pose proof (mapM_Some_1 _ _ _ Hnums) as Hf2.
  rewrite (renumber_loop_marked _ _ _ [] t); [|done|].
  2:{ unfold duplicated. by rewrite length_duplicated_aux, length_map. }
  simpl.
  assert (Hrows : rows (renumber_marked (max_of nums) 1
                   (duplicated key_eqb (map (λ lr, key_of lr.2) t)) t)
                  = renumber_scan (max_of nums) 1 [] (rows t))
    by apply rows_renumber_marked.
  exists (max_of nums). split_and!; [done| | |].
  - apply labels_renumber_marked.
  - rewrite Hrows. apply scan_distinct; [|done].
    intros r (l & Hin)%elem_of_rows.
    apply list_elem_of_lookup in Hin as (i & Hi).
    destruct (Forall2_lookup_l _ _ _ _ _ Hf2 Hi) as (n & Hn & Hrn).
    exists n. split; [done|]. apply max_of_upper.
    apply list_elem_of_lookup. by exists i.
  - apply marked_rows.
Qed.

Lemma clean_orders_inv df out :
  NoDup (labels df) → clean_orders df = Some out →
  ∃ t1 m,
    normalize df = Some t1
    ∧ rows out = renumber_scan m 1 [] (rows (filter_orders t1))
    ∧ labels out = labels (filter_orders t1)
    ∧ distinct_keys (rows out) = true
    ∧ Forall2 (λ lr lo : nat * order_row,
                 lo.1 = lr.1 ∧ lo.2 = set_order_code (order_code lo.2) lr.2)
        (filter_orders t1) out.
Proof.
  intros Hnd Hclean. unfold clean_orders in Hclean.
  destruct (normalize df) as [t1|] eqn:Hnorm; [|done]. simpl in Hclean.
  destruct (normalize_orders_ok _ _ Hnorm) as [Hlab _].
  assert (Hndt : NoDup (labels (filter_orders t1))).
  { apply (sublist_NoDup (labels (filter_orders t1)) (labels t1)).
    - by rewrite Hlab.
    - apply sublist_map, filter_orders_sublist. }
  destruct (renumber_inv _ _ Hndt Hclean) as (m & H1 & H2 & H3 & H4).
  by exists t1, m.
Qed.

(** *** Rows that pass the filters *)

Lemma filter_orders_passes t lr : lr ∈ filter_orders t → passes lr.2.
Proof.
  unfold filter_orders, passes. rewrite !elem_of_list_filter. tauto.
Qed.

Lemma filter_orders_fixed t :
  (∀ lr, lr ∈ t → passes lr.2) → filter_orders t = t.
Proof.
  intros H. unfold filter_orders.
  rewrite (filter_all (λ lr : nat * order_row, notna (unit_cost lr.2)) t)
    by (intros lr Hlr; by destruct (H lr Hlr) as (? & ? & ? & ?)).
  rewrite (filter_all (λ lr : nat * order_row, ge (quantity lr.2) 0) t)
    by (intros lr Hlr; by destruct (H lr Hlr) as (? & ? & ? & ?)).
  rewrite (filter_all (λ lr : nat * order_row, ge (unit_price lr.2) 0) t)
    by (intros lr Hlr; by destruct (H lr Hlr) as (? & ? & ? & ?)).
  apply filter_all. intros lr Hlr. by destruct (H lr Hlr) as (? & ? & ? & ?).
Qed.

Lemma clean_orders_passes df out lo :
  NoDup (labels df) → clean_orders df = Some out → lo ∈ out → passes lo.2.
Proof.
  intros Hnd Hclean Hlo.
  destruct (clean_orders_inv _ _ Hnd Hclean) as (t1 & m & _ & _ & _ & _ & Hf2).
  apply list_elem_of_lookup in Hlo as [i Hi].
  destruct (Forall2_lookup_r _ _ _ _ _ Hf2 Hi) as (lr & Hlr & _ & Heq).
  apply list_elem_of_lookup_2, filter_orders_passes in Hlr.
  rewrite Heq. exact Hlr.
Qed.

(** *** Rows that are already normalised *)

Lemma standardize_order_num c :
  standardize_id c "ord" = n ← order_num c; Some (new_code n).
Proof. done. Qed.

Lemma normalize_set_code r c :
  normalize_order r = Some r → standardize_id c "ord" = Some c →
  normalize_order (set_order_code c r) = Some (set_order_code c r).
Proof.
  unfold normalize_order. intros H Hc. simpl. rewrite Hc. simpl.
  destruct (standardize_id (order_code r) "ord") as [oc|]; [|done].
  destruct (standardize_id (customer_code r) "cust") as [cc|]; [|done].
  destruct (standardize_id (store_code r) "store") as [sc|]; [|done].
  destruct (standardize_id (product_code r) "prd") as [pc|]; [|done].
  simpl in *. injection H as H.
  pose proof (f_equal store_code H) as Hs.
  pose proof (f_equal customer_code H) as Hcu.
  pose proof (f_equal product_code H) as Hp.
  pose proof (f_equal order_type H) as Ht.
  pose proof (f_equal order_status H) as Hst.
  simpl in Hs, Hcu, Hp, Ht, Hst. unfold set_order_code. congruence.
Qed.

Lemma normalized_rows t t1 lr :
  normalize t = Some t1 → lr ∈ t1 → normalize_order lr.2 = Some lr.2.
Proof.
  unfold normalize. intros H%mapM_Some Hin.
  apply list_elem_of_lookup in Hin as [i Hi].
  destruct (Forall2_lookup_r _ _ _ _ _ H Hi) as ([l r] & _ & Hr).
  simpl in Hr. destruct (normalize_order r) as [r'|] eqn:E; [|done].
  simpl in Hr. injection Hr as <-. simpl. by apply (normalize_order_idem r).
Qed.

Lemma new_code_standard n :
  is_Some (order_num (new_code n)) →
  standardize_id (new_code n) "ord" = Some (new_code n).
Proof.
  rewrite standardize_order_num, order_num_new_code.
  by destruct (n <=? int64_max)%N; [|intros [? ?]].
Qed.

Lemma normalized_standard r :
  normalize_order r = Some r →
  standardize_id (order_code r) "ord" = Some (order_code r).
Proof.
  unfold normalize_order. intros H.
  destruct (standardize_id (order_code r) "ord") as [oc|]; [|done].
  destruct (standardize_id (customer_code r) "cust") as [cc|]; [|done].
  destruct (standardize_id (store_code r) "store") as [sc|]; [|done].
  destruct (standardize_id (product_code r) "prd") as [pc|]; [|done].
  simpl in H. injection H as H. by rewrite <- H at 1.
Qed.

Lemma scan_normalized m k seen rs o :
  (∀ r, r ∈ rs → normalize_order r = Some r) →
  o ∈ renumber_scan m k seen rs →
  is_Some (order_num (order_code o)) →
  normalize_order o = Some o.
Proof.
  revert k seen. induction rs as [|r rs IH]; intros k seen Hn; simpl.
  - by intros ?%elem_of_nil.
  - assert (Hr : normalize_order r = Some r)
      by (apply Hn, elem_of_cons; by left).
    assert (Hrs : ∀ r', r' ∈ rs → normalize_order r' = Some r')
      by (intros r' Hr'; apply Hn, elem_of_cons; by right).
    destruct (existsb _ seen); intros [->|Hin]%elem_of_cons Hsome; eauto.
    apply normalize_set_code; [done|]. by apply new_code_standard.
Qed.

(** *** Distinct keys survive a mask *)

Lemma distinct_keys_sublist rs1 rs2 :
  sublist rs1 rs2 → distinct_keys rs2 = true → distinct_keys rs1 = true.
Proof.
  induction 1 as [|r rs1 rs2 Hsub IH|r rs1 rs2 Hsub IH]; simpl; [done| |].
  - intros [Hr Hd]%andb_prop. rewrite (IH Hd), andb_true_r.
    apply negb_true_iff in Hr. apply negb_true_iff, not_true_is_false.
    intros (r' & Hin & He)%existsb_exists.
    assert (existsb (λ r', key_eqb (key_of r) (key_of r')) rs2 = true);
      [|congruence].
    apply existsb_exists. exists r'. split; [|done].
    apply list_elem_of_In. apply list_elem_of_In in Hin.
    eapply elem_of_submseteq; [exact Hin|by apply sublist_submseteq].
  - intros [_ Hd]%andb_prop. auto.
Qed.

(** *** The properties *)

(** X15: the renumbering step leaves a table as it is exactly when no two of
    its rows share [(order_code, line_number)]. *)
Theorem renumber_unchanged (t : frame) :
  NoDup (labels t) →
  Forall (λ r, is_Some (order_num (order_code r))) (rows t) →
  renumber t = Some t ↔ distinct_keys (rows t) = true.
Proof.
  intros Hnd Hnum. split.
  - intros H. by destruct (renumber_inv _ _ Hnd H) as (m & _ & _ & Hd & _).
  - apply renumber_fixed. by apply Forall_forall.
Qed.

Lemma renumber_unchanged_witness :
  renumber Examples.fk_orders = Some Examples.fk_orders.
Proof.
  apply (renumber_unchanged Examples.fk_orders).
  - apply (bool_decide_unpack _). vm_compute. exact I.
  - apply (bool_decide_unpack _). vm_compute. exact I.
  - vm_compute. reflexivity.
Defined.

(** X16: cleaning a cleaned order table again returns it unchanged, as long as
    the numbers of its order codes, the new ones included, still fit 64
    bits. *)
Theorem clean_orders_twice (df out : frame) :
  NoDup (labels df) → clean_orders df = Some out →
  Forall (λ r, is_Some (order_num (order_code r))) (rows out) →
  clean_orders out = Some out.
Proof.
  intros Hnd Hclean Hnum. rewrite Forall_forall in Hnum.
  destruct (clean_orders_inv _ _ Hnd Hclean)
    as (t1 & m & Hnorm & Hrows & Hlab & Hd & Hf2).
  assert (Hrows1 : ∀ r, r ∈ rows (filter_orders t1) →
            normalize_order r = Some r).
  { intros r (l & Hin)%elem_of_rows.
    apply (normalized_rows df t1 (l, r) Hnorm).
    eapply elem_of_submseteq; [exact Hin|].
    apply sublist_submseteq, filter_orders_sublist. }
  assert (Hout : normalize out = Some out).
  { unfold normalize. apply mapM_fixed. intros [l o] Hin. simpl.
    rewrite (scan_normalized m 1 [] (rows (filter_orders t1)) o); [done|done| |].
    - rewrite <- Hrows. apply elem_of_rows. by exists l.
    - apply Hnum, elem_of_rows. by exists l. }
  unfold clean_orders. rewrite Hout. simpl.
  rewrite filter_orders_fixed
    by (intros lo Hlo; by apply (clean_orders_passes df out)).
  by apply renumber_fixed.
Qed.

Lemma clean_orders_twice_witness :
  ∃ out, clean_orders Examples.three_collisions = Some out
         ∧ clean_orders out = Some out.
Proof.
  eexists. split; [vm_compute; reflexivity|].
  apply (clean_orders_twice Examples.three_collisions).
  - apply (bool_decide_unpack _). vm_compute. exact I.
  - vm_compute. reflexivity.
  - apply (bool_decide_unpack _). vm_compute. exact I.
Defined.

(** X17: every order line that [run_cleaning] writes has passed the four masks
    of [clean_orders], and no two of the lines written share
    [(order_code, line_number)]: the referential filter, which runs
    last, undoes neither. *)
Theorem run_cleaning_orders_sound regions orders products stores customers out :
  NoDup (labels orders) →
  Cleaning.run_cleaning regions orders products stores customers = Some out →
  distinct_keys (rows (Cleaning.orders_clean out)) = true
  ∧ ∀ r, r ∈ rows (Cleaning.orders_clean out) → passes r.
Proof.
  intros Hnd Hrun. unfold Cleaning.run_cleaning in Hrun.
  destruct (Products.clean_products products) as [ps|]; [|done].
  destruct (Stores.clean_stores stores) as [ss|]; [|done].
  destruct (Customers.clean_customers customers) as [cs|]; [|done].
  destruct (clean_orders orders) as [os|] eqn:Hclean; [|done].
  simpl in Hrun. injection Hrun as <-. simpl.
  assert (Hsub : sublist (Cleaning.enforce_fk ss ps os) os)
    by apply filter_list_sublist.
  destruct (clean_orders_inv _ _ Hnd Hclean) as (t1 & m & _ & _ & _ & Hd & _).
  split.
  - apply (distinct_keys_sublist _ (rows os)); [|done]. by apply sublist_map.
  - intros r (l & Hin)%elem_of_rows.
    apply (clean_orders_passes orders os (l, r)); [done|done|].
    eapply elem_of_submseteq; [exact Hin|by apply sublist_submseteq].
Qed.

Lemma run_cleaning_orders_sound_witness :
  ∃ out,
    Cleaning.run_cleaning [] Examples.three_collisions
      [Examples.product "P1" "nail" (Some 2%Q)] [Examples.store "S1" 100]
      [Examples.customer "C1"] = Some out
    ∧ map key_of (rows (Cleaning.orders_clean out))
      = [("ord-5", Some 1%Q); ("ord-6", Some 1%Q); ("ord-7", Some 1%Q)]
    ∧ distinct_keys (rows (Cleaning.orders_clean out)) = true.
Proof.
  eexists. split; [vm_compute; reflexivity|]. split; [vm_compute; reflexivity|].
  eapply (run_cleaning_orders_sound [] Examples.three_collisions
            [Examples.product "P1" "nail" (Some 2%Q)] [Examples.store "S1" 100]
            [Examples.customer "C1"]).
  - apply (bool_decide_unpack _). vm_compute. exact I.
  - vm_compute. reflexivity.
Defined.

(** *** The dimension tables *)

Lemma dd_fixed {A} (key : A → string) seen l :
  NoDup (map key l) → (∀ r, r ∈ l → key r ∉ seen) →
  select l (map negb (duplicated_aux String.eqb seen (map key l))) = l.
Proof.
  revert seen. induction l as [|r l IH]; intros seen Hnd Hs; [done|].
  rewrite DimsFacts.dd_cons.
  rewrite decide_False by (apply Hs, elem_of_cons; by left).
  simpl in Hnd. apply NoDup_cons in Hnd as [Hr Hnd]. f_equal.
  apply IH; [done|]. intros r' Hr' [Heq|Hin]%elem_of_cons.
  - apply Hr. rewrite <- Heq. change (map key l) with (key <$> l).
    apply list_elem_of_fmap. by exists r'.
  - apply (Hs r'); [apply elem_of_cons; by right|done].
Qed.

Lemma drop_duplicates_fixed {A} (key : A → string) l :
  NoDup (map key l) → drop_duplicates String.eqb key l = l.
Proof.
  intros Hnd. apply dd_fixed; [done|]. by intros r _ ?%elem_of_nil.
Qed.

Lemma mapM_rows {A} (f : A → option A) t t' r :
  (∀ x y, f x = Some y → f y = Some y) →
  mapM f t = Some t' → r ∈ t' → f r = Some r.
Proof.
  intros Hf H%mapM_Some Hin. apply list_elem_of_lookup in Hin as [i Hi].
  destruct (Forall2_lookup_r _ _ _ _ _ H Hi) as (x & _ & Hx). eauto.
Qed.

Lemma sublist_elem {A} (l1 l2 : list A) x : sublist l1 l2 → x ∈ l1 → x ∈ l2.
Proof.
  intros Hsub Hin. eapply elem_of_submseteq; [exact Hin|].
  by apply sublist_submseteq.
Qed.

(** X18: cleaning again the cleaned table of a Product table of ASCII texts
    returns it unchanged; so does cleaning again the cleaned table of a
    Store table of ASCII texts when its region names no longer contain
    the word "region", and cleaning a cleaned Customer table on which
    the text accessor of the segment column still exists. *)
Theorem dimensions_clean_twice :
  (∀ df out, forallb AsciiText.ascii_product df = true →
     Products.clean_products df = Some out →
     Products.clean_products out = Some out)
  ∧ (∀ df out, forallb AsciiText.ascii_store df = true →
       Stores.clean_stores df = Some out →
       Forall (λ r, contains "region" (lower (Stores.region_name r)) = false)
         out →
       Stores.clean_stores out = Some out)
  ∧ (∀ df out, Customers.clean_customers df = Some out →
       Customers.str_accessor (map Customers.customer_segment out) = Some () →
       Customers.clean_customers out = Some out).
Proof.
  split_and!.
  - intros df out _ H. unfold Products.clean_products in *.
    destruct (mapM Products.normalize_product df) as [t|] eqn:Ht; [|done].
    simpl in H. injection H as <-.
    destruct (DimsFacts.drop_duplicates_spec Products.product_code
                (Products.filter_products t)) as (Hnd & Hsub & _).
    set (out := drop_duplicates _ _ _) in *.
    assert (Hin : ∀ r, r ∈ out → r ∈ Products.filter_products t)
      by (intros r; by apply sublist_elem).
    rewrite mapM_fixed.
    2:{ intros r Hr%Hin. apply (mapM_rows _ df t); [|done|].
        - apply normalize_product_idem.
        - revert Hr. apply sublist_elem.
          unfold Products.filter_products.
          etrans; apply filter_list_sublist. }
    simpl. f_equal. unfold Products.filter_products.
    rewrite (filter_all (λ r, notna (Products.base_price r)) out).
    2:{ intros r Hr%Hin. unfold Products.filter_products in Hr.
        rewrite !elem_of_list_filter in Hr. tauto. }
    rewrite filter_all.
    2:{ intros r Hr%Hin. unfold Products.filter_products in Hr.
        rewrite !elem_of_list_filter in Hr. tauto. }
    by apply drop_duplicates_fixed.
  - intros df out _ H Hreg. rewrite Forall_forall in Hreg.
    unfold Stores.clean_stores in *.
    destruct (mapM Stores.normalize_store df) as [t|] eqn:Ht; [|done].
    simpl in H. injection H as <-.
    destruct (DimsFacts.drop_duplicates_spec Stores.store_code
                (Stores.filter_stores t)) as (Hnd & Hsub & _).
    set (out := drop_duplicates _ _ _) in *.
    assert (Hin : ∀ r, r ∈ out → r ∈ Stores.filter_stores t)
      by (intros r; by apply sublist_elem).
    rewrite mapM_fixed.
    2:{ intros r Hr. pose proof (Hreg r Hr) as Hr'. apply Hin in Hr.
        assert (Hrt : r ∈ t).
        { revert Hr. apply sublist_elem. unfold Stores.filter_stores.
          etrans; apply filter_list_sublist. }
        apply mapM_Some in Ht. apply list_elem_of_lookup in Hrt as [i Hi].
        destruct (Forall2_lookup_r _ _ _ _ _ Ht Hi) as (x & _ & Hx).
        by apply (normalize_store_idem x). }
    simpl. f_equal. unfold Stores.filter_stores.
    rewrite (filter_all (λ r, notna (Stores.square_feet r)) out).
    2:{ intros r Hr%Hin. unfold Stores.filter_stores in Hr.
        rewrite !elem_of_list_filter in Hr. tauto. }
    rewrite filter_all.
    2:{ intros r Hr%Hin. unfold Stores.filter_stores in Hr.
        rewrite !elem_of_list_filter in Hr. tauto. }
    by apply drop_duplicates_fixed.
  - intros df out H Hacc. unfold Customers.clean_customers in *.
    destruct (mapM Customers.normalize_customer df) as [t|] eqn:Ht; [|done].
    simpl in H. destruct (Customers.str_accessor _); [|done].
    simpl in H. injection H as <-.
    destruct (DimsFacts.drop_duplicates_spec Customers.customer_code t)
      as (Hnd & Hsub & _).
    set (out := drop_duplicates _ _ _) in *.
    rewrite mapM_fixed.
    2:{ intros r Hr. apply (mapM_rows _ df t); [|done|].
        - apply normalize_customer_idem.
        - revert Hr. by apply sublist_elem. }
    simpl. rewrite Hacc. simpl. f_equal. by apply drop_duplicates_fixed.
Qed.

Lemma dimensions_clean_twice_witness :
  Products.clean_products [Examples.product "prd-1" "Mallet" (Some 5%Q)]
  = Some [Examples.product "prd-1" "Mallet" (Some 5%Q)].
Proof.
  destruct dimensions_clean_twice as (Hp & _ & _).
  apply (Hp Examples.priced_twice); vm_compute; reflexivity.
Defined.

End RerunFacts.

(** ** What the row filters leave in the cleaned tables *)

Module FloorFacts.
Import Frame FrameFacts FilterFacts.

Lemma find_first_of_key {A} (key : A → string) (l : list A) r :
  NoDup (map key l) → r ∈ l →
  find (λ x, String.eqb (key x) (key r)) l = Some r.
Proof.
  induction l as [|x l IH]; intros Hnd Hin; [by apply elem_of_nil in Hin|].
  simpl in Hnd. apply NoDup_cons in Hnd as [Hx Hnd]. simpl.
  apply elem_of_cons in Hin as [->|Hin]; [by rewrite String.eqb_refl|].
  destruct (String.eqb_spec (key x) (key r)) as [Heq|_]; [|by apply IH].
  destruct Hx. rewrite Heq. change (map key l) with (key <$> l).
  apply list_elem_of_fmap. by exists r.
Qed.

Lemma kept_first_of_key {A} (key : A → string) (l : list A) r :
  r ∈ drop_duplicates String.eqb key l
  ↔ r ∈ l ∧ find (λ x, String.eqb (key x) (key r)) l = Some r.
Proof.
  destruct (DimsFacts.drop_duplicates_spec key l) as (Hnd & Hsub & Hfind).
  split.
  - intros Hin. split; [by apply (RerunFacts.sublist_elem _ _ _ Hsub)|].
    rewrite <- Hfind. by apply find_first_of_key.
  - intros [_ Hf]. rewrite <- Hfind in Hf.
    apply find_some in Hf as [Hin _]. by apply list_elem_of_In.
Qed.

(** C8 (amended): a row passes the masks of a cleaning function exactly
    when every floored field is present and at or above its floor; a
    missing value fails the comparison as a value below the floor does.
    [clean_orders] returns the rows its masks keep, under their labels and
    in table order, a row differing from the row kept in its order code at
    most; [clean_products] and [clean_stores] return, of the rows their
    masks keep, the first row of each key. *)
Theorem floor_filters_need_presence :
  (∀ t lr, lr ∈ Orders.filter_orders t ↔
     lr ∈ t ∧ ∃ q p c,
       Orders.quantity lr.2 = Some q ∧ Orders.unit_price lr.2 = Some p
       ∧ Orders.unit_cost lr.2 = Some c
       ∧ (0 <= q)%Q ∧ (0 <= p)%Q ∧ (0 <= c)%Q)
  ∧ (∀ t r, r ∈ Products.filter_products t ↔
       r ∈ t ∧ ∃ b, Products.base_price r = Some b ∧ (0 <= b)%Q)
  ∧ (∀ t r, r ∈ Stores.filter_stores t ↔
       r ∈ t ∧ ∃ a, Stores.square_feet r = Some a ∧ (1 <= a)%Q)
  ∧ (∀ df out, NoDup (Orders.labels df) → Orders.clean_orders df = Some out →
       ∃ t, Orders.normalize df = Some t
         ∧ Forall2 (λ lr lo : nat * Orders.order_row,
                      lo.1 = lr.1
                      ∧ lo.2 = Orders.set_order_code (Orders.order_code lo.2)
                                 lr.2)
             (Orders.filter_orders t) out)
  ∧ (∀ df out, Products.clean_products df = Some out →
       ∃ t, mapM Products.normalize_product df = Some t
         ∧ ∀ r, r ∈ out
                ↔ r ∈ Products.filter_products t
                  ∧ find (λ x, String.eqb (Products.product_code x)
                                 (Products.product_code r))
                      (Products.filter_products t) = Some r)
  ∧ (∀ df out, Stores.clean_stores df = Some out →
       ∃ t, mapM Stores.normalize_store df = Some t
         ∧ ∀ r, r ∈ out
                ↔ r ∈ Stores.filter_stores t
                  ∧ find (λ x, String.eqb (Stores.store_code x)
                                 (Stores.store_code r))
                      (Stores.filter_stores t) = Some r).
Proof.
  split_and!.
  - intros t lr. unfold Orders.filter_orders.
    rewrite !elem_of_list_filter, !ge_spec. split.
    + intros [[[[Hin Hna] (q & Hq & Hq0)] (p & Hp & Hp0)] (c & Hc & Hc0)].
      split; [done|]. by exists q, p, c.
    + intros [Hin (q & p & c & Hq & Hp & Hc & Hq0 & Hp0 & Hc0)].
      split_and!; [done|by rewrite Hc|by exists q|by exists p|by exists c].
  - intros t r. unfold Products.filter_products.
    rewrite !elem_of_list_filter, ge_spec. split.
    + by intros [[Hin _] Hb].
    + intros [Hin (b & Hb & Hb0)]. split_and!; [done|by rewrite Hb|by exists b].
  - intros t r. unfold Stores.filter_stores.
    rewrite !elem_of_list_filter, ge_spec. split.
    + by intros [[Hin _] Hb].
    + intros [Hin (b & Hb & Hb0)]. split_and!; [done|by rewrite Hb|by exists b].
  - intros df out Hnd Hclean.
    destruct (RerunFacts.clean_orders_inv _ _ Hnd Hclean)
      as (t & m & Hnorm & _ & _ & _ & Hf2).
    by exists t.
  - intros df out H. unfold Products.clean_products in H.
    destruct (mapM Products.normalize_product df) as [t|]; [|done].
    injection H as <-. exists t. split; [done|].
    intros r. apply kept_first_of_key.
  - intros df out H. unfold Stores.clean_stores in H.
    destruct (mapM Stores.normalize_store df) as [t|]; [|done].
    injection H as <-. exists t. split; [done|].
    intros r. apply kept_first_of_key.
Qed.

Lemma floor_filters_need_presence_witness :
  ∃ out, Products.clean_products Examples.priced_twice = Some out
    ∧ ∀ r, r ∈ out → ∃ b, Products.base_price r = Some b ∧ (0 <= b)%Q.
Proof.
  destruct floor_filters_need_presence
    as (_ & Hmask & _ & _ & Hp & _).
  destruct (Hp Examples.priced_twice
              [Examples.product "prd-1" "Mallet" (Some (inject_Z 5))])
    as (t & _ & Hout); [reflexivity|].
  eexists. split; [reflexivity|].
  intros r [Hr _]%Hout. by apply Hmask in Hr as [_ Hb].
Defined.

End FloorFacts.
